(** * tv-screener: the query builder, the logical combinators and the
    response mapper, embedded over a JavaScript-style object store.

    Sources: [src/models.ts], [src/column.ts], [src/operators.ts],
    [src/query.ts].

    The TypeScript code works on plain objects and arrays that are created,
    stored by reference and mutated in place.  The embedding keeps that: a
    value is a primitive or a reference into a store of objects, and every
    method of the source is a computation in a small state-and-failure
    monad over that store. *)

From Stdlib Require Import ZArith QArith Qcanon Lia.
From stdpp Require Import base tactics option list strings.

Close Scope Qc_scope.
Close Scope Q_scope.
Open Scope string_scope.
Open Scope list_scope.
Open Scope nat_scope.

(** ** Values and the object store *)

Abbreviation loc := nat.

(** JavaScript values.  Numbers are exact rationals kept in lowest terms
    (rounding, NaN and the infinities are outside the model); functions,
    symbols and class instances other than plain objects do not occur in the
    modelled code. *)
Inductive val :=
| VUndefined
| VNull
| VBool (b : bool)
| VNum (q : Q)
| VStr (s : string)
| VRef (l : loc).

(** A stored object: an array, or a plain object whose properties are kept
    in enumeration order. *)
Inductive obj :=
| Arr (elems : list val)
| Obj (props : list (string * val)).

(** Allocation appends, so a location is fresh exactly when it is not below
    the length of the store. *)
Abbreviation heap := (list obj).

(** Property lists. *)
Fixpoint assoc {A} (k : string) (ps : list (string * A)) : option A :=
  match ps with
  | [] => None
  | (k', v) :: ps => if String.eqb k k' then Some v else assoc k ps
  end.

(** [o[k] = v] on a property list: an existing key keeps its position, a new
    key goes last. *)
Fixpoint assoc_set {A} (k : string) (v : A) (ps : list (string * A))
  : list (string * A) :=
  match ps with
  | [] => [(k, v)]
  | (k', v') :: ps =>
      if String.eqb k k' then (k, v) :: ps else (k', v') :: assoc_set k v ps
  end.

Definition prop_of (k : string) (ps : list (string * val)) : val :=
  default VUndefined (assoc k ps).

(** ** The monad of store computations *)

(** [None] is an exception ([TypeError]) or a step that leaves the modelled
    fragment of JavaScript; the comments at each primitive say which. *)
Definition M (A : Type) : Type := heap → option (A * heap).

#[global] Instance M_ret : MRet M := λ A x h, Some (x, h).
#[global] Instance M_bind : MBind M := λ A B f m h,
  match m h with
  | Some (a, h') => f a h'
  | None => None
  end.

Definition throw {A} : M A := λ _, None.

(** [new] / a literal: a fresh object at the end of the store. *)
Definition alloc (o : obj) : M val := λ h, Some (VRef (length h), h ++ [o]).

Definition read (v : val) : M obj := λ h,
  match v with
  | VRef l => o ← h !! l; Some (o, h)
  | _ => None
  end.

Definition write (v : val) (o : obj) : M unit := λ h,
  match v with
  | VRef l => if decide (l < length h) then Some ((), <[l := o]> h) else None
  | _ => None
  end.

(** [v.k] for a plain object [v].  Reading a named property of an array or of
    a primitive would go through the prototypes, which are not modelled;
    reading from [undefined] or [null] throws. *)
Definition get_prop (v : val) (k : string) : M val :=
  o ← read v;
  match o with
  | Obj ps => mret (prop_of k ps)
  | Arr _ => throw
  end.

(** [v.k = x] for a plain object [v]. *)
Definition set_prop (v : val) (k : string) (x : val) : M unit :=
  o ← read v;
  match o with
  | Obj ps => write v (Obj (assoc_set k x ps))
  | Arr _ => throw
  end.

(** [k in v] for a plain object [v]; throws on a primitive. *)
Definition has_prop (v : val) (k : string) : M bool :=
  o ← read v;
  match o with
  | Obj ps => mret (bool_decide (is_Some (assoc k ps)))
  | Arr _ => throw
  end.

(** The elements of an array. *)
Definition get_elems (v : val) : M (list val) :=
  o ← read v;
  match o with
  | Arr es => mret es
  | Obj _ => throw
  end.

(** [v[i]]: [undefined] past the end. *)
Definition get_index (v : val) (i : nat) : M val :=
  es ← get_elems v; mret (default VUndefined (es !! i)).

(** [v[i] = x]: replaces an element, or appends when [i] is the length.
    Writing further out would leave holes, which are not modelled. *)
Definition set_index (v : val) (i : nat) (x : val) : M unit :=
  es ← get_elems v;
  if decide (i < length es) then write v (Arr (<[i := x]> es))
  else if decide (i = length es) then write v (Arr (es ++ [x]))
  else throw.

(** [v.push(x)]. *)
Definition push (v : val) (x : val) : M unit :=
  es ← get_elems v; write v (Arr (es ++ [x])).

(** ToBoolean. *)
Definition truthy (v : val) : bool :=
  match v with
  | VUndefined | VNull => false
  | VBool b => b
  | VNum q => negb (Qeq_bool q 0)
  | VStr s => negb (String.eqb s "")
  | VRef _ => true
  end.

(** [a + b] and [a - b] on numbers. *)
Definition js_add (a b : val) : M val :=
  match a, b with
  | VNum x, VNum y => mret (VNum (Qred (x + y)))
  | _, _ => throw
  end.

Definition js_sub (a b : val) : M val :=
  match a, b with
  | VNum x, VNum y => mret (VNum (Qred (x - y)))
  | _, _ => throw
  end.

Definition num (z : Z) : val := VNum (inject_Z z).

(** Running a computation for its result or for its final store. *)
Definition eval {A} (m : M A) (h : heap) : option A := fst <$> m h.
Definition exec {A} (m : M A) (h : heap) : option heap := snd <$> m h.

(** [for (const x of xs) body(x)] and [xs.forEach((x, i) => body(i, x))]. *)
Fixpoint for_each {A} (body : A → M unit) (xs : list A) : M unit :=
  match xs with
  | [] => mret ()
  | x :: xs => body x;; for_each body xs
  end.

Fixpoint for_each_from {A} (i : nat) (body : nat → A → M unit) (xs : list A)
  : M unit :=
  match xs with
  | [] => mret ()
  | x :: xs => body i x;; for_each_from (S i) body xs
  end.

(** [xs.map(f)], the elements visited left to right. *)
Fixpoint map_m {A B} (f : A → M B) (xs : list A) : M (list B) :=
  match xs with
  | [] => mret []
  | x :: xs => y ← f x; ys ← map_m f xs; mret (y :: ys)
  end.

(** Keys that a plain object treats specially: integer-like keys are
    enumerated before the others, whenever they were added, and
    [__proto__] is the prototype accessor.  The property lists above do not
    model either, so an assignment [o[key] = x] with a computed key is
    modelled for the other keys only. *)
Definition is_digit (c : Ascii.ascii) : bool :=
  (48 <=? Ascii.nat_of_ascii c) && (Ascii.nat_of_ascii c <=? 57).

Fixpoint all_digits (s : string) : bool :=
  match s with
  | EmptyString => true
  | String c s => is_digit c && all_digits s
  end.

Definition is_integer_key (s : string) : bool :=
  match s with
  | EmptyString => false
  | String c EmptyString => is_digit c
  | String c s => is_digit c && negb (Ascii.eqb c (Ascii.ascii_of_nat 48)) && all_digits s
  end.

Definition ordinary_key (s : string) : bool :=
  negb (is_integer_key s) && negb (String.eqb s "__proto__").

(** [o[key] = x]. *)
Definition set_computed (o key x : val) : M unit :=
  match key with
  | VStr k => if ordinary_key k then set_prop o k x else throw
  | _ => throw
  end.

(** ** JSON *)

(** A JSON document. *)
#[local] Set Warnings "-register-all".
Inductive json :=
| JNull
| JBool (b : bool)
| JNum (q : Q)
| JStr (s : string)
| JArr (items : list json)
| JObj (members : list (string * json)).

(** The outcome of serialising one value: a document, nothing at all (the
    value [undefined]), or a failure. *)
Inductive ser :=
| SDoc (j : json)
| SNone
| SCircular
| SDangling
| SFuel.

Definition ser_items (f : val → ser) : list val → ser :=
  fix go vs :=
    match vs with
    | [] => SDoc (JArr [])
    | v :: vs =>
        match f v with
        | SDoc j =>
            match go vs with SDoc (JArr js) => SDoc (JArr (j :: js)) | r => r end
        | SNone =>
            match go vs with SDoc (JArr js) => SDoc (JArr (JNull :: js)) | r => r end
        | r => r
        end
    end.

Definition ser_members (f : val → ser) : list (string * val) → ser :=
  fix go ps :=
    match ps with
    | [] => SDoc (JObj [])
    | (k, v) :: ps =>
        match f v with
        | SDoc j =>
            match go ps with SDoc (JObj ms) => SDoc (JObj ((k, j) :: ms)) | r => r end
        | SNone => go ps
        | r => r
        end
    end.

(** [JSON.stringify] as a walk over the store.  [stack] holds the objects
    being serialised, as in the specification of [JSON.stringify]: meeting
    one of them again is the [TypeError] for a circular structure.  An
    [undefined] property is left out, an [undefined] element becomes
    [null]. *)
Fixpoint serialize (fuel : nat) (h : heap) (stack : list loc) (v : val) : ser :=
  match v with
  | VUndefined => SNone
  | VNull => SDoc JNull
  | VBool b => SDoc (JBool b)
  | VNum q => SDoc (JNum q)
  | VStr s => SDoc (JStr s)
  | VRef l =>
      match fuel with
      | O => SFuel
      | S fuel =>
          if decide (l ∈ stack) then SCircular
          else match h !! l with
               | None => SDangling
               | Some (Arr es) => ser_items (serialize fuel h (l :: stack)) es
               | Some (Obj ps) => ser_members (serialize fuel h (l :: stack)) ps
               end
      end
  end.

(** No chain of distinct objects is longer than the store, so this much fuel
    is never used up (lemma [serialize_fuel] below). *)
Definition JSON_stringify (v : val) : M json := λ h,
  match serialize (S (length h)) h [] v with
  | SDoc j => Some (j, h)
  | _ => None
  end.

(** [JSON.parse] of the text of a document: every array and object of the
    document becomes a new object of the store. *)
Fixpoint JSON_parse (j : json) : M val :=
  match j with
  | JNull => mret VNull
  | JBool b => mret (VBool b)
  | JNum q => mret (VNum q)
  | JStr s => mret (VStr s)
  | JArr js =>
      vs ← (fix go js : M (list val) :=
              match js with
              | [] => mret []
              | j :: js => v ← JSON_parse j; vs ← go js; mret (v :: vs)
              end) js;
      alloc (Arr vs)
  | JObj ms =>
      ps ← (fix go ms : M (list (string * val)) :=
              match ms with
              | [] => mret []
              | (k, j) :: ms => v ← JSON_parse j; ps ← go ms; mret ((k, v) :: ps)
              end) ms;
      alloc (Obj ps)
  end.

(** ** [src/column.ts] *)

Module Column.

(** [new Column(name)]. *)
Definition constructor (name : val) : M val :=
  alloc (Obj [("name", name)]).

Definition gt (this value : val) : M val :=
  name ← get_prop this "name";
  alloc (Obj [("left", name); ("operation", VStr "greater"); ("right", value)]).

Definition gte (this value : val) : M val :=
  name ← get_prop this "name";
  alloc (Obj [("left", name); ("operation", VStr "egreater"); ("right", value)]).

Definition lt (this value : val) : M val :=
  name ← get_prop this "name";
  alloc (Obj [("left", name); ("operation", VStr "less"); ("right", value)]).

Definition eq (this value : val) : M val :=
  name ← get_prop this "name";
  alloc (Obj [("left", name); ("operation", VStr "equal"); ("right", value)]).

Definition between (this min max : val) : M val :=
  name ← get_prop this "name";
  r ← alloc (Arr [min; max]);
  alloc (Obj [("left", name); ("operation", VStr "in_range"); ("right", r)]).

Definition empty (this : val) : M val :=
  name ← get_prop this "name";
  alloc (Obj [("left", name); ("operation", VStr "empty")]).

Definition notEmpty (this : val) : M val :=
  name ← get_prop this "name";
  alloc (Obj [("left", name); ("operation", VStr "nempty")]).

(** The other methods of [src/column.ts]. *)

Definition lte (this value : val) : M val :=
  name ← get_prop this "name";
  alloc (Obj [("left", name); ("operation", VStr "eless"); ("right", value)]).

Definition neq (this value : val) : M val :=
  name ← get_prop this "name";
  alloc (Obj [("left", name); ("operation", VStr "nequal"); ("right", value)]).

Definition notBetween (this min max : val) : M val :=
  name ← get_prop this "name";
  r ← alloc (Arr [min; max]);
  alloc (Obj [("left", name); ("operation", VStr "not_in_range"); ("right", r)]).

Definition inDayRange (this min max : val) : M val :=
  name ← get_prop this "name";
  r ← alloc (Arr [min; max]);
  alloc (Obj [("left", name); ("operation", VStr "in_day_range"); ("right", r)]).

Definition inWeekRange (this min max : val) : M val :=
  name ← get_prop this "name";
  r ← alloc (Arr [min; max]);
  alloc (Obj [("left", name); ("operation", VStr "in_week_range"); ("right", r)]).

Definition inMonthRange (this min max : val) : M val :=
  name ← get_prop this "name";
  r ← alloc (Arr [min; max]);
  alloc (Obj [("left", name); ("operation", VStr "in_month_range"); ("right", r)]).

Definition abovePct (this value : val) : M val :=
  name ← get_prop this "name";
  alloc (Obj [("left", name); ("operation", VStr "above_pct"); ("right", value)]).

Definition belowPct (this value : val) : M val :=
  name ← get_prop this "name";
  alloc (Obj [("left", name); ("operation", VStr "below_pct"); ("right", value)]).

Definition betweenPct (this min max : val) : M val :=
  name ← get_prop this "name";
  r ← alloc (Arr [min; max]);
  alloc (Obj [("left", name); ("operation", VStr "in_range_pct"); ("right", r)]).

Definition notBetweenPct (this min max : val) : M val :=
  name ← get_prop this "name";
  r ← alloc (Arr [min; max]);
  alloc (Obj [("left", name); ("operation", VStr "not_in_range_pct"); ("right", r)]).

Definition crosses (this value : val) : M val :=
  name ← get_prop this "name";
  alloc (Obj [("left", name); ("operation", VStr "crosses"); ("right", value)]).

Definition crossesAbove (this value : val) : M val :=
  name ← get_prop this "name";
  alloc (Obj [("left", name); ("operation", VStr "crosses_above"); ("right", value)]).

Definition crossesBelow (this value : val) : M val :=
  name ← get_prop this "name";
  alloc (Obj [("left", name); ("operation", VStr "crosses_below"); ("right", value)]).

Definition like (this pattern : val) : M val :=
  name ← get_prop this "name";
  alloc (Obj [("left", name); ("operation", VStr "match"); ("right", pattern)]).

Definition notLike (this pattern : val) : M val :=
  name ← get_prop this "name";
  alloc (Obj [("left", name); ("operation", VStr "nmatch"); ("right", pattern)]).

(** [values] is the caller's array; the predicate keeps the reference. *)
Definition has (this values : val) : M val :=
  name ← get_prop this "name";
  alloc (Obj [("left", name); ("operation", VStr "has"); ("right", values)]).

Definition hasNoneOf (this values : val) : M val :=
  name ← get_prop this "name";
  alloc (Obj [("left", name); ("operation", VStr "has_none_of"); ("right", values)]).

Definition isin (this values : val) : M val :=
  name ← get_prop this "name";
  alloc (Obj [("left", name); ("operation", VStr "has"); ("right", values)]).

Definition notIn (this values : val) : M val :=
  name ← get_prop this "name";
  alloc (Obj [("left", name); ("operation", VStr "has_none_of"); ("right", values)]).

End Column.

Definition col (name : string) : M val := Column.constructor (VStr name).

(** ** [src/operators.ts] *)

(** ['operation' in expr && typeof expr.operation === 'object' &&
    expr.operation !== null && 'operator' in expr.operation]. *)
Definition is_OperationDict (expr : val) : M bool :=
  b ← has_prop expr "operation";
  if b : bool then
    op ← get_prop expr "operation";
    match op with
    | VRef _ => has_prop op "operator"
    | _ => mret false
    end
  else mret false.

(** The callback of [expressions.map] in [And] and [Or]. *)
Definition wrap_operand (expr : val) : M val :=
  b ← is_OperationDict expr;
  if b : bool then mret expr
  else alloc (Obj [("expression", expr)]).

Definition And (expressions : list val) : M val :=
  operands ← map_m wrap_operand expressions;
  a ← alloc (Arr operands);
  o ← alloc (Obj [("operator", VStr "and"); ("operands", a)]);
  alloc (Obj [("operation", o)]).

Definition Or (expressions : list val) : M val :=
  operands ← map_m wrap_operand expressions;
  a ← alloc (Arr operands);
  o ← alloc (Obj [("operator", VStr "or"); ("operands", a)]);
  alloc (Obj [("operation", o)]).

(** ** [src/query.ts] *)

Module Query.

(** A [Query] instance is an object with the one field [queryDict]. *)
Definition constructor : M val :=
  markets ← alloc (Arr [VStr "america"]);
  symbols ← alloc (Obj []);
  options ← alloc (Obj [("lang", VStr "en")]);
  columns ← alloc (Arr [VStr "name"; VStr "close"; VStr "volume";
                        VStr "market_cap_basic"]);
  filter ← alloc (Arr []);
  sort ← alloc (Obj [("sortBy", VStr "name"); ("sortOrder", VStr "asc")]);
  range ← alloc (Arr [num 0; num 50]);
  queryDict ← alloc (Obj [("markets", markets); ("symbols", symbols);
                          ("options", options); ("columns", columns);
                          ("filter", filter); ("sort", sort);
                          ("range", range)]);
  alloc (Obj [("queryDict", queryDict)]).

(** A rest parameter is passed as the list of its arguments; the array
    that holds them is allocated where the method stores it. *)
Definition select (this : val) (columns : list val) : M val :=
  (if decide (0 < length columns) then
     queryDict ← get_prop this "queryDict";
     a ← alloc (Arr columns);
     set_prop queryDict "columns" a
   else mret ());;
  mret this.

Definition setMarkets (this : val) (markets : list val) : M val :=
  (if decide (0 < length markets) then
     queryDict ← get_prop this "queryDict";
     a ← alloc (Arr markets);
     set_prop queryDict "markets" a
   else mret ());;
  mret this.

Definition setTickers (this : val) (tickers : list val) : M val :=
  (if decide (0 < length tickers) then
     queryDict ← get_prop this "queryDict";
     symbols ← get_prop queryDict "symbols";
     (if truthy symbols then mret ()
      else o ← alloc (Obj []); set_prop queryDict "symbols" o);;
     symbols ← get_prop queryDict "symbols";
     a ← alloc (Arr tickers);
     set_prop symbols "tickers" a
   else mret ());;
  mret this.

Definition setIndex (this : val) (indexes : list val) : M val :=
  (if decide (0 < length indexes) then
     queryDict ← get_prop this "queryDict";
     symbols ← get_prop queryDict "symbols";
     (if truthy symbols then mret ()
      else o ← alloc (Obj []); set_prop queryDict "symbols" o);;
     symbols ← get_prop queryDict "symbols";
     groups ← get_prop symbols "groups";
     (if truthy groups then mret ()
      else a ← alloc (Arr []); set_prop symbols "groups" a);;
     groups ← get_prop symbols "groups";
     values ← alloc (Arr indexes);
     g ← alloc (Obj [("type", VStr "index"); ("values", values)]);
     push groups g
   else mret ());;
  mret this.

(** [where] (a reserved word here). *)
Definition where_ (this : val) (expressions : list val) : M val :=
  queryDict ← get_prop this "queryDict";
  filter ← get_prop queryDict "filter";
  (if truthy filter then mret ()
   else a ← alloc (Arr []); set_prop queryDict "filter" a);;
  for_each (λ expr, filter ← get_prop queryDict "filter"; push filter expr)
           expressions;;
  mret this.

Definition where2 (this : val) (operation : val) : M val :=
  queryDict ← get_prop this "queryDict";
  set_prop queryDict "filter2" operation;;
  mret this.

(** A parameter with a default takes it when the argument is
    [undefined]. *)
Definition or_default (d v : val) : val :=
  match v with VUndefined => d | _ => v end.

Definition orderBy (this column ascending nullsFirst : val) : M val :=
  let ascending := or_default (VBool true) ascending in
  let nullsFirst := or_default (VBool false) nullsFirst in
  queryDict ← get_prop this "queryDict";
  s ← alloc (Obj [("sortBy", column);
                  ("sortOrder", VStr (if truthy ascending then "asc" else "desc"));
                  ("nullsFirst", nullsFirst)]);
  set_prop queryDict "sort" s;;
  mret this.

Definition limit (this : val) (limit : val) : M val :=
  queryDict ← get_prop this "queryDict";
  range ← get_prop queryDict "range";
  (if truthy range then
     r0 ← get_index range 0;
     x ← js_add r0 limit;
     set_index range 1 x
   else
     a ← alloc (Arr [num 0; limit]);
     set_prop queryDict "range" a);;
  mret this.

Definition offset (this : val) (offset : val) : M val :=
  queryDict ← get_prop this "queryDict";
  range ← get_prop queryDict "range";
  (if truthy range then
     r1 ← get_index range 1;
     r0 ← get_index range 0;
     currentLimit ← js_sub r1 r0;
     x ← js_add offset currentLimit;
     a ← alloc (Arr [offset; x]);
     set_prop queryDict "range" a
   else
     x ← js_add offset (num 50);
     a ← alloc (Arr [offset; x]);
     set_prop queryDict "range" a);;
  mret this.

Definition copy (this : val) : M val :=
  newQuery ← constructor;
  queryDict ← get_prop this "queryDict";
  text ← JSON_stringify queryDict;
  clone ← JSON_parse text;
  set_prop newQuery "queryDict" clone;;
  mret newQuery.

Definition getQueryDict (this : val) : M val :=
  get_prop this "queryDict".

(** [JSON.stringify(this.queryDict, null, 2)]: the document; its text is
    this document printed with an indentation of two spaces. *)
Definition toJSON (this : val) : M json :=
  queryDict ← get_prop this "queryDict";
  JSON_stringify queryDict.

(** The callback of [rawData.data.map]: one record per row. *)
Definition format_row (columns row : val) : M val :=
  s ← get_prop row "s";
  obj ← alloc (Obj [("symbol", s)]);
  cols ← get_elems columns;
  for_each_from 0 (λ index col,
                     d ← get_prop row "d";
                     x ← get_index d index;
                     set_computed obj col x) cols;;
  mret obj.

(** [getScannerData] from the point where the transport has delivered
    [rawData], the parsed body of the response ([getScannerDataRaw] is the
    HTTP round trip and is not modelled). *)
Definition getScannerData (this rawData : val) : M val :=
  queryDict ← get_prop this "queryDict";
  c ← get_prop queryDict "columns";
  columns ← (if truthy c then mret c else alloc (Arr []));
  data ← get_prop rawData "data";
  rows ← get_elems data;
  formatted ← map_m (format_row columns) rows;
  formattedData ← alloc (Arr formatted);
  totalCount ← get_prop rawData "totalCount";
  alloc (Obj [("totalCount", totalCount); ("data", formattedData)]).

End Query.

(** ** The public mutators as a datatype of calls *)

(** One call of a mutating method, with the argument types of the TypeScript
    signatures.  Predicates and operation trees are objects of the caller
    and are passed by reference. *)
Inductive call :=
| CSelect (columns : list string)
| CSetMarkets (markets : list string)
| CSetTickers (tickers : list string)
| CSetIndex (indexes : list string)
| CWhere (expressions : list val)
| CWhere2 (operation : val)
| COrderBy (column : string) (ascending nullsFirst : option bool)
| CLimit (limit : Q)
| COffset (offset : Q).

Definition opt_arg (o : option bool) : val :=
  match o with Some b => VBool b | None => VUndefined end.

Definition run_call (this : val) (c : call) : M val :=
  match c with
  | CSelect columns => Query.select this (VStr <$> columns)
  | CSetMarkets markets => Query.setMarkets this (VStr <$> markets)
  | CSetTickers tickers => Query.setTickers this (VStr <$> tickers)
  | CSetIndex indexes => Query.setIndex this (VStr <$> indexes)
  | CWhere expressions => Query.where_ this expressions
  | CWhere2 operation => Query.where2 this operation
  | COrderBy column ascending nullsFirst =>
      Query.orderBy this (VStr column) (opt_arg ascending) (opt_arg nullsFirst)
  | CLimit limit => Query.limit this (VNum limit)
  | COffset offset => Query.offset this (VNum offset)
  end.

(** A chain [q.m1(..).m2(..)...]. *)
Fixpoint run_calls (this : val) (cs : list call) : M val :=
  match cs with
  | [] => mret this
  | c :: cs => this ← run_call this c; run_calls this cs
  end.

(** ** Reading a builder's state *)

(** The fields of [getQueryDict()], read the way a caller would. *)
Definition array_of (v : val) : M (option (list val)) :=
  match v with
  | VUndefined => mret None
  | _ => es ← get_elems v; mret (Some es)
  end.

Definition range_of (this : val) : M (option (list val)) :=
  d ← Query.getQueryDict this; r ← get_prop d "range"; array_of r.

Definition columns_of (this : val) : M (option (list val)) :=
  d ← Query.getQueryDict this; r ← get_prop d "columns"; array_of r.

Definition markets_of (this : val) : M (option (list val)) :=
  d ← Query.getQueryDict this; r ← get_prop d "markets"; array_of r.

Definition filter_of (this : val) : M (option (list val)) :=
  d ← Query.getQueryDict this; r ← get_prop d "filter"; array_of r.

Definition tickers_of (this : val) : M (option (list val)) :=
  d ← Query.getQueryDict this;
  s ← get_prop d "symbols";
  t ← get_prop s "tickers";
  array_of t.

(** The groups, each read as its [type] and the elements of its
    [values]. *)
Definition group_of (g : val) : M (val * list val) :=
  t ← get_prop g "type";
  vs ← get_prop g "values";
  es ← get_elems vs;
  mret (t, es).

Definition groups_of (this : val) : M (option (list (val * list val))) :=
  d ← Query.getQueryDict this;
  s ← get_prop d "symbols";
  g ← get_prop s "groups";
  match g with
  | VUndefined => mret None
  | _ => gs ← get_elems g; r ← map_m group_of gs; mret (Some r)
  end.

(** ** The shape of a builder in the store *)

(** [Query] keeps its state in a small tree of objects that it alone
    mutates: the instance, its [queryDict], and the arrays and objects
    hanging off it.  [qstate] names where each of them lives and what it
    holds.  Elements (column names, predicates, operands) are arbitrary
    values and may point anywhere. *)
Record group := Group {
  g_loc : loc;             (* the object [{type: 'index', values}] *)
  g_vloc : loc;            (* its [values] array *)
  g_values : list val }.

Record qstate := QState {
  st_this : loc;
  st_dict : loc;
  st_markets : loc * list val;
  st_symbols : loc;
  st_tickers : option (loc * list val);
  st_groups : option (loc * list group);
  st_tickers_first : bool;  (* the order of the two keys of [symbols] *)
  st_options : loc;
  st_columns : loc * list val;
  st_filter : loc * list val;
  st_filter2 : option val;
  st_sort : loc * list (string * val);
  st_range : loc * list val }.

Definition symbols_props (st : qstate) : list (string * val) :=
  match st_tickers st, st_groups st with
  | None, None => []
  | Some t, None => [("tickers", VRef t.1)]
  | None, Some g => [("groups", VRef g.1)]
  | Some t, Some g =>
      if st_tickers_first st
      then [("tickers", VRef t.1); ("groups", VRef g.1)]
      else [("groups", VRef g.1); ("tickers", VRef t.1)]
  end.

Definition dict_props (st : qstate) : list (string * val) :=
  [("markets", VRef (st_markets st).1); ("symbols", VRef (st_symbols st));
   ("options", VRef (st_options st)); ("columns", VRef (st_columns st).1);
   ("filter", VRef (st_filter st).1); ("sort", VRef (st_sort st).1);
   ("range", VRef (st_range st).1)]
  ++ match st_filter2 st with Some v => [("filter2", v)] | None => [] end.

Definition group_cells (g : group) : list (loc * obj) :=
  [(g_loc g, Obj [("type", VStr "index"); ("values", VRef (g_vloc g))]);
   (g_vloc g, Arr (g_values g))].

(** The objects under [symbols]. *)
Definition tickers_cells (t : option (loc * list val)) : list (loc * obj) :=
  match t with Some t => [(t.1, Arr t.2)] | None => [] end.

Definition groups_cells (g : option (loc * list group)) : list (loc * obj) :=
  match g with
  | Some g => (g.1, Arr (VRef ∘ g_loc <$> g.2)) :: (g.2 ≫= group_cells)
  | None => []
  end.

(** The nine objects every builder has, and those under [symbols]. *)
Definition static_cells (st : qstate) : list (loc * obj) :=
  [(st_this st, Obj [("queryDict", VRef (st_dict st))]);
   (st_dict st, Obj (dict_props st));
   ((st_markets st).1, Arr (st_markets st).2);
   (st_symbols st, Obj (symbols_props st));
   (st_options st, Obj [("lang", VStr "en")]);
   ((st_columns st).1, Arr (st_columns st).2);
   ((st_filter st).1, Arr (st_filter st).2);
   ((st_sort st).1, Obj (st_sort st).2);
   ((st_range st).1, Arr (st_range st).2)].

(** Every object of the builder with its content. *)
Definition footprint (st : qstate) : list (loc * obj) :=
  static_cells st
  ++ tickers_cells (st_tickers st) ++ groups_cells (st_groups st).

Definition holds (h : heap) (c : loc * obj) : Prop := h !! c.1 = Some c.2.

(** The store holds a builder in state [st]: its objects are pairwise
    distinct and have the stated contents. *)
Definition rep (st : qstate) (h : heap) : Prop :=
  NoDup (footprint st).*1 ∧ Forall (holds h) (footprint st).

(** The same, spelled out as a conjunction that computes. *)
Fixpoint conj_all {A} (P : A → Prop) (l : list A) : Prop :=
  match l with
  | [] => True
  | x :: l => P x ∧ conj_all P l
  end.

Fixpoint distinct (l : list loc) : Prop :=
  match l with
  | [] => True
  | x :: l => conj_all (λ y, x ≠ y) l ∧ distinct l
  end.

Definition rep_facts (st : qstate) (h : heap) : Prop :=
  distinct (static_cells st).*1 ∧
  conj_all (λ x, (x ∉ (tickers_cells (st_tickers st)).*1)
               ∧ (x ∉ (groups_cells (st_groups st)).*1)) (static_cells st).*1 ∧
  conj_all (λ x, x ∉ (groups_cells (st_groups st)).*1)
           (tickers_cells (st_tickers st)).*1 ∧
  NoDup (groups_cells (st_groups st)).*1 ∧
  conj_all (holds h) (static_cells st) ∧
  Forall (holds h) (tickers_cells (st_tickers st)) ∧
  Forall (holds h) (groups_cells (st_groups st)).

(** The state a constructor leaves. *)
Definition fresh_state (n : nat) : qstate :=
  {| st_this := 8 + n;
     st_dict := 7 + n;
     st_markets := (n, [VStr "america"]);
     st_symbols := 1 + n;
     st_tickers := None;
     st_groups := None;
     st_tickers_first := true;
     st_options := 2 + n;
     st_columns := (3 + n, [VStr "name"; VStr "close"; VStr "volume";
                            VStr "market_cap_basic"]);
     st_filter := (4 + n, []);
     st_filter2 := None;
     st_sort := (5 + n, [("sortBy", VStr "name"); ("sortOrder", VStr "asc")]);
     st_range := (6 + n, [num 0; num 50]) |}.

(** Field updates. *)
Definition with_markets x st :=
  QState (st_this st) (st_dict st) x (st_symbols st) (st_tickers st)
    (st_groups st) (st_tickers_first st) (st_options st) (st_columns st)
    (st_filter st) (st_filter2 st) (st_sort st) (st_range st).
Definition with_tickers x st :=
  QState (st_this st) (st_dict st) (st_markets st) (st_symbols st) (Some x)
    (st_groups st)
    (match st_tickers st, st_groups st with
     | None, Some _ => false
     | _, _ => st_tickers_first st
     end)
    (st_options st) (st_columns st)
    (st_filter st) (st_filter2 st) (st_sort st) (st_range st).
Definition with_groups x st :=
  QState (st_this st) (st_dict st) (st_markets st) (st_symbols st)
    (st_tickers st) (Some x)
    (match st_tickers st, st_groups st with
     | Some _, None => true
     | _, _ => st_tickers_first st
     end)
    (st_options st) (st_columns st)
    (st_filter st) (st_filter2 st) (st_sort st) (st_range st).
Definition with_columns x st :=
  QState (st_this st) (st_dict st) (st_markets st) (st_symbols st)
    (st_tickers st) (st_groups st) (st_tickers_first st) (st_options st) x
    (st_filter st) (st_filter2 st) (st_sort st) (st_range st).
Definition with_filter x st :=
  QState (st_this st) (st_dict st) (st_markets st) (st_symbols st)
    (st_tickers st) (st_groups st) (st_tickers_first st) (st_options st)
    (st_columns st) x (st_filter2 st) (st_sort st) (st_range st).
Definition with_filter2 x st :=
  QState (st_this st) (st_dict st) (st_markets st) (st_symbols st)
    (st_tickers st) (st_groups st) (st_tickers_first st) (st_options st)
    (st_columns st) (st_filter st) (Some x) (st_sort st) (st_range st).
Definition with_sort x st :=
  QState (st_this st) (st_dict st) (st_markets st) (st_symbols st)
    (st_tickers st) (st_groups st) (st_tickers_first st) (st_options st)
    (st_columns st) (st_filter st) (st_filter2 st) x (st_range st).
Definition with_range x st :=
  QState (st_this st) (st_dict st) (st_markets st) (st_symbols st)
    (st_tickers st) (st_groups st) (st_tickers_first st) (st_options st)
    (st_columns st) (st_filter st) (st_filter2 st) (st_sort st) x.

(** What a caller reads back of the groups and of the tickers. *)
Definition groups_view (st : qstate) : option (list (val * list val)) :=
  match st_groups st with
  | Some g => Some ((λ x, (VStr "index", g_values x)) <$> g.2)
  | None => None
  end.

Definition tickers_view (st : qstate) : option (list val) :=
  match st_tickers st with Some t => Some t.2 | None => None end.

(** The state after [setIndex] with at least one index, run in a store of
    [n] objects. *)
Definition setIndex_state (n : nat) (indexes : list val) (st : qstate) : qstate :=
  match st_groups st with
  | None => with_groups (n, [Group (S (S n)) (S n) indexes]) st
  | Some g => with_groups (g.1, g.2 ++ [Group (S n) n indexes]) st
  end.

(** The state after one call, run in a store of [n] objects. *)
Definition call_state (n : nat) (c : call) (st : qstate) : qstate :=
  match c with
  | CSelect [] | CSetMarkets [] | CSetTickers [] | CSetIndex [] => st
  | CSelect columns => with_columns (n, VStr <$> columns) st
  | CSetMarkets markets => with_markets (n, VStr <$> markets) st
  | CSetTickers tickers => with_tickers (n, VStr <$> tickers) st
  | CSetIndex indexes => setIndex_state n (VStr <$> indexes) st
  | CWhere expressions =>
      with_filter ((st_filter st).1, (st_filter st).2 ++ expressions) st
  | CWhere2 operation => with_filter2 operation st
  | COrderBy column ascending nullsFirst =>
      with_sort
        (n, [("sortBy", VStr column);
             ("sortOrder", VStr (if default true ascending then "asc" else "desc"));
             ("nullsFirst", VBool (default false nullsFirst))]) st
  | CLimit x =>
      match (st_range st).2 with
      | [VNum a; VNum b] =>
          with_range ((st_range st).1, [VNum a; VNum (Qred (a + x))]) st
      | _ => st
      end
  | COffset x =>
      match (st_range st).2 with
      | [VNum a; VNum b] =>
          with_range (n, [VNum x; VNum (Qred (x + Qred (b - a)))]) st
      | _ => st
      end
  end.

(** [st'] is a state a chain of calls can leave, starting in [st]. *)
Fixpoint reaches (st : qstate) (cs : list call) (st' : qstate) : Prop :=
  match cs with
  | [] => st' = st
  | c :: cs => ∃ n, reaches (call_state n c st) cs st'
  end.

(** The range holds two numbers. *)
Definition numeric_range (st : qstate) : Prop :=
  ∃ a b, (st_range st).2 = [VNum a; VNum b].

(** ** Vocabulary of the claims *)


(** A bare simple predicate: an object with a field name under [left] and
    an operation code under [operation] (and possibly an operand under
    [right]). *)
Definition is_predicate (h : heap) (v : val) : Prop :=
  ∃ l ps f code,
    v = VRef l ∧ h !! l = Some (Obj ps) ∧
    assoc "left" ps = Some (VStr f) ∧ assoc "operation" ps = Some (VStr code).

(** A node that carries the connective tag: its [operation] is an object
    with an [operator]. *)
Definition is_connective (h : heap) (v : val) : Prop :=
  ∃ l ps o ops,
    v = VRef l ∧ h !! l = Some (Obj ps) ∧
    assoc "operation" ps = Some (VRef o) ∧ h !! o = Some (Obj ops) ∧
    is_Some (assoc "operator" ops).

(** What [FilterOperationDict | OperationDict] admits. *)
Definition is_operand (h : heap) (v : val) : Prop :=
  is_predicate h v ∨ is_connective h v.

(** [y] is the operand made of the argument [x]: [x] itself when it is a
    connective node, a new leaf [{expression: x}] when it is a predicate. *)
Definition operand_of (h h' : heap) (x y : val) : Prop :=
  (is_connective h x → y = x) ∧
  (is_predicate h x →
   ∃ w, y = VRef w ∧ length h ≤ w ∧ h' !! w = Some (Obj [("expression", x)])).

(** The result of a combinator called on [args] in the store [h]: a new
    node [{operation: {operator, operands}}], one operand per argument in
    order, and every object of [h] as it was. *)
Definition combinator_result (operator : string) (h : heap) (args : list val)
    (r : option (val * heap)) : Prop :=
  ∃ node o a operands h',
    r = Some (VRef node, h') ∧
    h' !! node = Some (Obj [("operation", VRef o)]) ∧
    h' !! o = Some (Obj [("operator", VStr operator); ("operands", VRef a)]) ∧
    h' !! a = Some (Arr operands) ∧
    (∀ l, l < length h → h' !! l = h !! l) ∧
    Forall2 (operand_of h h') args operands.

(** The operands of a connective node. *)
Definition operands_of (node : val) : M (list val) :=
  operation ← get_prop node "operation";
  operands ← get_prop operation "operands";
  get_elems operands.

(** The store after [p = col('close').gt(5)], [q = col('volume').gt(7)],
    [r = col('beta').empty()] and [Or(q, r)]: the predicates are the objects
    1, 3 and 5, the node of [Or(q, r)] is the object 10. *)
Definition nesting_example : heap :=
  default [] (exec (c ← col "close"; p ← Column.gt c (num 5);
                    c ← col "volume"; q ← Column.gt c (num 7);
                    c ← col "beta"; r ← Column.empty c;
                    Or [q; r]) []).

(** A call that touches neither the filters nor the symbol selection. *)
Definition leaves_filters_and_symbols (c : call) : Prop :=
  match c with
  | CSelect _ | CSetMarkets _ | COrderBy _ _ _ | CLimit _ | COffset _ => True
  | _ => False
  end.

(** Primitive values other than [undefined], and their documents. *)
Definition is_prim (v : val) : Prop :=
  match v with VUndefined | VRef _ => False | _ => True end.

Definition json_of_prim (v : val) : json :=
  match v with
  | VBool b => JBool b
  | VNum q => JNum q
  | VStr s => JStr s
  | _ => JNull
  end.

(** A state whose filters and symbol selection are as the constructor left
    them and whose other fields hold primitives. *)
Definition plain_state (st : qstate) : Prop :=
  st_tickers st = None ∧ st_groups st = None ∧
  (st_filter st).2 = [] ∧ st_filter2 st = None ∧
  Forall is_prim (st_markets st).2 ∧ Forall is_prim (st_columns st).2 ∧
  Forall (λ p, is_prim p.2) (st_sort st).2 ∧ Forall is_prim (st_range st).2.

(** The document of a plain state. *)
Definition plain_document (st : qstate) : json :=
  JObj [("markets", JArr (json_of_prim <$> (st_markets st).2));
        ("symbols", JObj []);
        ("options", JObj [("lang", JStr "en")]);
        ("columns", JArr (json_of_prim <$> (st_columns st).2));
        ("filter", JArr []);
        ("sort", JObj (prod_map id json_of_prim <$> (st_sort st).2));
        ("range", JArr (json_of_prim <$> (st_range st).2))].

(** *** The response mapper *)

(** [this] is a builder whose column list holds the names [cols]. *)
Definition has_columns (h : heap) (this : val) (cols : list string) : Prop :=
  ∃ q ps d dps c,
    this = VRef q ∧ h !! q = Some (Obj ps) ∧
    assoc "queryDict" ps = Some (VRef d) ∧ h !! d = Some (Obj dps) ∧
    assoc "columns" dps = Some (VRef c) ∧ h !! c = Some (Arr (VStr <$> cols)).

(** [row] is a wire row [{s, d}] with symbol [r.1] and values [r.2]. *)
Definition is_row (h : heap) (row : val) (r : val * list val) : Prop :=
  ∃ l ps d,
    row = VRef l ∧ h !! l = Some (Obj ps) ∧
    prop_of "s" ps = r.1 ∧ prop_of "d" ps = VRef d ∧ h !! d = Some (Arr r.2).

(** [rawData] is a response [{totalCount, data}] with the rows [rows]. *)
Definition is_response (h : heap) (rawData total : val)
    (rows : list (val * list val)) : Prop :=
  ∃ l ps a rs,
    rawData = VRef l ∧ h !! l = Some (Obj ps) ∧
    prop_of "totalCount" ps = total ∧ prop_of "data" ps = VRef a ∧
    h !! a = Some (Arr rs) ∧ Forall2 (is_row h) rs rows.

(** The record the specification describes for one row:
    [{symbol} ∪ {columns[i]: values[i]}]. *)
Definition spec_record (cols : list string) (r : val * list val)
  : list (string * val) :=
  ("symbol", r.1) :: imap (λ i c, (c, default VUndefined (r.2 !! i))) cols.

(** The record the code builds for one row: the assignments
    [obj[columns[i]] = values[i]], from left to right, on
    [{symbol: s}]. *)
Fixpoint assign_from (i : nat) (cols : list string) (values : list val)
    (ps : list (string * val)) : list (string * val) :=
  match cols with
  | [] => ps
  | c :: cols =>
      assign_from (S i) cols values
        (assoc_set c (default VUndefined (values !! i)) ps)
  end.

Definition code_record (cols : list string) (r : val * list val)
  : list (string * val) :=
  assign_from 0 cols r.2 [("symbol", r.1)].

(** Reading the mapped result: its count and the properties of each
    record. *)
Definition props_of (v : val) : M (list (string * val)) :=
  o ← read v;
  match o with
  | Obj ps => mret ps
  | Arr _ => throw
  end.

Definition mapped_of (out : val) : M (val * list (list (string * val))) :=
  totalCount ← get_prop out "totalCount";
  data ← get_prop out "data";
  records ← get_elems data;
  rs ← map_m props_of records;
  mret (totalCount, rs).

(** The response [{totalCount: 1, data: [{s: 'NASDAQ:AAPL', d: values}]}]. *)
Definition one_row_response (values : list json) : json :=
  JObj [("totalCount", JNum 1);
        ("data", JArr [JObj [("s", JStr "NASDAQ:AAPL"); ("d", JArr values)]])].

(** The store after [new Query().select('close', 'volume')] (the builder
    is the object 8) and the arrival of the response with the one row
    [{s: 'NASDAQ:AAPL', d: [150.2, 9000000]}] (parsed into the object
    13). *)
Definition mapper_example : heap :=
  default []
    (exec (q ← Query.constructor;
           q ← Query.select q [VStr "close"; VStr "volume"];
           JSON_parse (one_row_response [JNum (751 # 5); JNum 9000000])) []).

(** *** Sharing *)

(** The values an object holds. *)
Definition refs_of (o : obj) : list val :=
  match o with
  | Arr es => es
  | Obj ps => ps.*2
  end.

(** [reach h v l]: the object [l] can be reached from the value [v] by
    following references, through properties and elements alike. *)
Inductive reach (h : heap) : val → loc → Prop :=
| reach_here l : reach h (VRef l) l
| reach_step l o v l' :
    h !! l = Some o → v ∈ refs_of o → reach h v l' → reach h (VRef l) l'.

(** A well-formed store has no dangling reference. *)
Definition closed (h : heap) : Prop :=
  Forall (λ o, Forall (λ v, if v is VRef l then l < length h else True)
                      (refs_of o)) h.

(** The properties through which the methods of [Query] reach the objects
    they write to: [this.queryDict], [queryDict.symbols],
    [queryDict.filter], [queryDict.range] and [symbols.groups]. *)
Definition spine_key (k : string) : bool :=
  bool_decide (k ∈ ["queryDict"; "symbols"; "filter"; "range"; "groups"]).

Definition in_region (P : loc → Prop) (v : val) : Prop :=
  match v with VRef l => P l | _ => True end.

(** A set [P] of locations is a region of the store [h] when it contains
    every location still to be allocated and every object of [P] points,
    under the properties above, into [P] again. *)
Definition region (P : loc → Prop) (h : heap) : Prop :=
  (∀ l, length h ≤ l → P l) ∧
  (∀ l ps k v,
     P l → h !! l = Some (Obj ps) → spine_key k = true →
     assoc k ps = Some v → in_region P v).

(** From [h] to [h'] nothing outside [P] was written. *)
Definition frame (P : loc → Prop) (h h' : heap) : Prop :=
  length h ≤ length h' ∧ ∀ l, l < length h → ¬ P l → h' !! l = h !! l.

(** A computation that stays inside a region: whenever it returns, [P] is
    still a region, nothing outside [P] was written, and the result
    satisfies [Φ]. *)
Definition stays_in (P : loc → Prop) {A} (m : M A) (Φ : A → Prop) : Prop :=
  ∀ h a h',
    region P h → m h = Some (a, h') → region P h' ∧ frame P h h' ∧ Φ a.

(** The locations from [n] up to, not including, [m]: what a computation
    that starts in a store of [n] objects and ends in one of [m] has
    allocated. *)
Definition span (n m : nat) (l : loc) : Prop := n ≤ l < m.

(** The store after
    [const q = new Query().where(col('close').gt(5)).limit(10)]: the builder
    is the object 8. *)
Definition copy_example : heap :=
  default []
    (exec (q ← Query.constructor;
           c ← col "close"; p ← Column.gt c (num 5);
           run_calls q [CWhere [p]; CLimit (inject_Z 10)]) []).

(** The store after [q.copy()] in [copy_example]. *)
Definition copied_example : heap :=
  default [] (exec (Query.copy (VRef 8)) copy_example).

(** * Further vocabulary *)

(** ** What a chain of calls amounts to *)

(** The other fields of [getQueryDict()], read the way a caller would. *)
Definition sort_of (this : val) : M (val * val * val) :=
  d ← Query.getQueryDict this;
  s ← get_prop d "sort";
  sortBy ← get_prop s "sortBy";
  sortOrder ← get_prop s "sortOrder";
  nullsFirst ← get_prop s "nullsFirst";
  mret (sortBy, sortOrder, nullsFirst).

Definition filter2_of (this : val) : M val :=
  d ← Query.getQueryDict this; get_prop d "filter2".

(** The arguments of the last [select] call that had any, and of the last
    such [setMarkets] call; the constructor's lists when there is none. *)
Definition selected (cs : list call) : list string :=
  foldl (λ acc c, match c with CSelect (x :: xs) => x :: xs | _ => acc end)
        ["name"; "close"; "volume"; "market_cap_basic"] cs.

Definition chosen_markets (cs : list call) : list string :=
  foldl (λ acc c, match c with CSetMarkets (x :: xs) => x :: xs | _ => acc end)
        ["america"] cs.

(** The arguments of all the [where] calls, in the order of the calls. *)
Definition where_arguments (cs : list call) : list val :=
  cs ≫= λ c, match c with CWhere es => es | _ => [] end.

(** The argument of the last [where2] call, [undefined] when there is
    none. *)
Definition last_where2 (cs : list call) : val :=
  foldl (λ acc c, match c with CWhere2 v => v | _ => acc end) VUndefined cs.

(** The sort of the last [orderBy] call with its defaults filled in; the
    constructor's sort, which has no [nullsFirst], when there is none. *)
Definition last_sort (cs : list call) : val * val * val :=
  foldl (λ acc c,
           match c with
           | COrderBy column ascending nullsFirst =>
               (VStr column,
                VStr (if default true ascending then "asc" else "desc"),
                VBool (default false nullsFirst))
           | _ => acc
           end)
        (VStr "name", VStr "asc", VUndefined) cs.

(** The argument of the last [offset] call (0 when there is none) and of
    the last [limit] call (50 when there is none). *)
Definition last_offset (cs : list call) : Q :=
  foldl (λ acc c, match c with COffset x => x | _ => acc end) (inject_Z 0) cs.

Definition last_limit (cs : list call) : Q :=
  foldl (λ acc c, match c with CLimit x => x | _ => acc end) (inject_Z 50) cs.

(** The argument lists of the [setIndex] calls that had any, in the order
    of the calls, and of the last such [setTickers] call. *)
Definition index_groups (cs : list call) : list (list string) :=
  cs ≫= λ c, match c with CSetIndex (x :: xs) => [x :: xs] | _ => [] end.

Definition last_tickers (cs : list call) : option (list string) :=
  foldl (λ acc c, match c with CSetTickers (x :: xs) => Some (x :: xs) | _ => acc end)
        None cs.

(** What a caller reads of these groups: nothing when there is none. *)
Definition groups_read (gs : list (list string))
  : option (list (val * list val)) :=
  match gs with
  | [] => None
  | _ :: _ => Some ((λ ixs : list string, (VStr "index", VStr <$> ixs)) <$> gs)
  end.

(** ** The methods of [Column] as a datatype *)

Inductive method :=
| Mgt | Mgte | Mlt | Mlte | Meq | Mneq
| Mbetween | MnotBetween | MinDayRange | MinWeekRange | MinMonthRange
| MabovePct | MbelowPct | MbetweenPct | MnotBetweenPct
| Mcrosses | McrossesAbove | McrossesBelow
| Mlike | MnotLike | Mhas | MhasNoneOf | Misin | MnotIn
| Mempty | MnotEmpty.

(** The [i]-th argument of a call: [undefined] when the call has fewer. *)
Definition argument (i : nat) (args : list val) : val :=
  default VUndefined (args !! i).

(** [this.m(...args)]. *)
Definition invoke (m : method) (this : val) (args : list val) : M val :=
  let a := argument 0 args in
  let b := argument 1 args in
  match m with
  | Mgt => Column.gt this a
  | Mgte => Column.gte this a
  | Mlt => Column.lt this a
  | Mlte => Column.lte this a
  | Meq => Column.eq this a
  | Mneq => Column.neq this a
  | Mbetween => Column.between this a b
  | MnotBetween => Column.notBetween this a b
  | MinDayRange => Column.inDayRange this a b
  | MinWeekRange => Column.inWeekRange this a b
  | MinMonthRange => Column.inMonthRange this a b
  | MabovePct => Column.abovePct this a
  | MbelowPct => Column.belowPct this a
  | MbetweenPct => Column.betweenPct this a b
  | MnotBetweenPct => Column.notBetweenPct this a b
  | Mcrosses => Column.crosses this a
  | McrossesAbove => Column.crossesAbove this a
  | McrossesBelow => Column.crossesBelow this a
  | Mlike => Column.like this a
  | MnotLike => Column.notLike this a
  | Mhas => Column.has this a
  | MhasNoneOf => Column.hasNoneOf this a
  | Misin => Column.isin this a
  | MnotIn => Column.notIn this a
  | Mempty => Column.empty this
  | MnotEmpty => Column.notEmpty this
  end.

(** The two pairs of methods that are two names for one predicate. *)
Definition same_wire (m1 m2 : method) : Prop :=
  match m1, m2 with
  | Mhas, Misin | Misin, Mhas | MhasNoneOf, MnotIn | MnotIn, MhasNoneOf => True
  | _, _ => False
  end.

(** How a method takes its operand: not at all, as the argument itself, or
    as a new array of its two arguments. *)
Inductive operand_kind := NoOperand | ValueOperand | RangeOperand.

Definition operand_kind_of (m : method) : operand_kind :=
  match m with
  | Mempty | MnotEmpty => NoOperand
  | Mbetween | MnotBetween | MinDayRange | MinWeekRange | MinMonthRange
  | MbetweenPct | MnotBetweenPct => RangeOperand
  | _ => ValueOperand
  end.

(** ** Circular structures *)

(** The object [l] lies on a cycle of references. *)
Definition cyclic (h : heap) (l : loc) : Prop :=
  ∃ o w, h !! l = Some o ∧ w ∈ refs_of o ∧ reach h w l.

(** The store after
    [const node = And(col('close').gt(5)); node.operation.operands.push(node);
     const q = new Query().where2(node)]: the node is the object 5 and the
    builder the object 14. *)
Definition circular_example : heap :=
  default []
    (exec (c ← col "close"; p ← Column.gt c (num 5);
           node ← And [p];
           operation ← get_prop node "operation";
           operands ← get_prop operation "operands";
           push operands node;;
           q ← Query.constructor;
           Query.where2 q node) []).

(** ** The request of [getScannerDataRaw] *)

Definition SCREENER_URL : string := "https://scanner.tradingview.com".

(** [`${v}`] for a string [v]; the conversions of the other values are not
    modelled. *)
Definition to_string (v : val) : M string :=
  match v with
  | VStr s => mret s
  | _ => throw
  end.

(** [fetch(url, {method, headers, body})]: what is sent.  [req_body] is
    the document whose text is the body. *)
Record request := Request {
  req_url : string;
  req_method : string;
  req_headers : val;
  req_body : json }.

(** [getScannerDataRaw] up to the call of [fetch]: the request it makes.
    The round trip itself and the handling of the response are not
    modelled. *)
Definition getScannerDataRaw_request (this cookies : val) : M request :=
  queryDict ← get_prop this "queryDict";
  markets ← get_prop queryDict "markets";
  first ← match markets with
          | VUndefined | VNull => mret VUndefined
          | _ => get_index markets 0
          end;
  market ← to_string (if truthy first then first else VStr "america");
  let url := (SCREENER_URL ++ "/" ++ market ++ "/scan")%string in
  headers ← alloc (Obj [("Content-Type", VStr "application/json");
                        ("User-Agent",
                         VStr "Mozilla/5.0 (Windows NT 10.0; Win64; x64) AppleWebKit/537.36")]);
  (if truthy cookies then
     entries ← props_of cookies;
     parts ← map_m (λ e : string * val,
                      value ← to_string e.2;
                      mret (e.1 ++ "=" ++ value)%string)
                   entries;
     set_prop headers "Cookie" (VStr (String.concat "; " parts))
   else mret ());;
  queryDict ← get_prop this "queryDict";
  body ← JSON_stringify queryDict;
  mret (Request url "POST" headers body).

(** The market in the URL: the first of the market list, ['america'] when
    that is the empty string. *)
Definition url_market (markets : list string) : string :=
  match markets with
  | m :: _ => if String.eqb m "" then "america" else m
  | [] => "america"
  end.

(** The headers [getScannerDataRaw] sends: two fixed ones, and a [Cookie]
    header when a cookie object is passed. *)
Definition sent_headers (cookies : option (list (string * string)))
  : list (string * val) :=
  [("Content-Type", VStr "application/json");
   ("User-Agent",
    VStr "Mozilla/5.0 (Windows NT 10.0; Win64; x64) AppleWebKit/537.36")]
  ++ match cookies with
     | Some kvs =>
         [("Cookie",
           VStr (String.concat "; "
                   ((λ kv, (kv.1 ++ "=" ++ kv.2)%string) <$> kvs)))]
     | None => []
     end.

(** The argument [cookies]: left out, or an object of the store with the
    string entries [kvs]. *)
Definition cookies_value (h : heap) (cookies : val)
    (kvs : option (list (string * string))) : Prop :=
  match kvs with
  | None => cookies = VUndefined
  | Some kvs =>
      ∃ c, cookies = VRef c ∧ h !! c = Some (Obj (prod_map id VStr <$> kvs))
  end.

(** The store with the one cookie object [{sessionid: 'abc', device: 'x'}]. *)
Definition cookie_example : heap :=
  [Obj [("sessionid", VStr "abc"); ("device", VStr "x")]].

(** ** Documents *)

(** The operation code each method of [Column] writes. *)
Definition operation_code (m : method) : string :=
  match m with
  | Mgt => "greater" | Mgte => "egreater" | Mlt => "less"
  | Mlte => "eless" | Meq => "equal" | Mneq => "nequal"
  | Mbetween => "in_range" | MnotBetween => "not_in_range"
  | MinDayRange => "in_day_range" | MinWeekRange => "in_week_range"
  | MinMonthRange => "in_month_range"
  | MabovePct => "above_pct" | MbelowPct => "below_pct"
  | MbetweenPct => "in_range_pct" | MnotBetweenPct => "not_in_range_pct"
  | Mcrosses => "crosses" | McrossesAbove => "crosses_above"
  | McrossesBelow => "crosses_below"
  | Mlike => "match" | MnotLike => "nmatch"
  | Mhas | Misin => "has" | MhasNoneOf | MnotIn => "has_none_of"
  | Mempty => "empty" | MnotEmpty => "nempty"
  end.

(** The document of a value of the store [h], when [JSON.stringify] gives
    one: not for [undefined], nor for a circular structure. *)
Definition document_of (h : heap) (v : val) : option json :=
  match serialize (S (length h)) h [] v with
  | SDoc j => Some j
  | _ => None
  end.

(** [JSON.stringify] does not throw on [v]. *)
Definition serialises (h : heap) (v : val) : Prop :=
  match serialize (S (length h)) h [] v with
  | SDoc _ | SNone => True
  | _ => False
  end.

(** The [right] member of the document of a predicate made by [m] on
    [args]: none for an [undefined] operand, [null] for an [undefined]
    bound. *)
Definition right_document (h : heap) (m : method) (args : list val)
  : list (string * json) :=
  match operand_kind_of m with
  | NoOperand => []
  | ValueOperand =>
      match document_of h (argument 0 args) with
      | Some j => [("right", j)]
      | None => []
      end
  | RangeOperand =>
      [("right", JArr [default JNull (document_of h (argument 0 args));
                       default JNull (document_of h (argument 1 args))])]
  end.

(** The members of [symbols] after a chain of calls, in the order of their
    keys. *)
Definition symbols_members (cs : list call) : list (string * json) :=
  foldl (λ ms c,
           match c with
           | CSetTickers (x :: xs) =>
               assoc_set "tickers" (JArr (JStr <$> x :: xs)) ms
           | CSetIndex (x :: xs) =>
               assoc_set "groups"
                 (JArr (match assoc "groups" ms with
                        | Some (JArr gs) => gs
                        | _ => []
                        end
                        ++ [JObj [("type", JStr "index");
                                  ("values", JArr (JStr <$> x :: xs))]]))
                 ms
           | _ => ms
           end) [] cs.

(** The document of the sort after a chain of calls. *)
Definition sort_document (cs : list call) : json :=
  foldl (λ acc c,
           match c with
           | COrderBy column ascending nullsFirst =>
               JObj [("sortBy", JStr column);
                     ("sortOrder",
                      JStr (if default true ascending then "asc" else "desc"));
                     ("nullsFirst", JBool (default false nullsFirst))]
           | _ => acc
           end)
        (JObj [("sortBy", JStr "name"); ("sortOrder", JStr "asc")]) cs.

(** The [filter2] member after a chain of calls: none without a [where2]
    call, and none when the last one passed [undefined]. *)
Definition filter2_member (h : heap) (cs : list call) : list (string * json) :=
  match document_of h (last_where2 cs) with
  | Some j => [("filter2", j)]
  | None => []
  end.

(** The document of a builder after the chain [cs], whose [where] and
    [where2] arguments are values of the store [h]. *)
Definition chain_document (h : heap) (cs : list call) : json :=
  JObj ([("markets", JArr (JStr <$> chosen_markets cs));
         ("symbols", JObj (symbols_members cs));
         ("options", JObj [("lang", JStr "en")]);
         ("columns", JArr (JStr <$> selected cs));
         ("filter", JArr ((λ v, default JNull (document_of h v))
                            <$> where_arguments cs));
         ("sort", sort_document cs);
         ("range", JArr [JNum (last_offset cs);
                         JNum (Qred (last_offset cs + last_limit cs))])]
        ++ filter2_member h cs).





(** The store with the array [['stock', 'fund']] (the object 0). *)
Definition operand_example : heap := [Arr [VStr "stock"; VStr "fund"]].



(** ** [src/examples/base_scan.ts] *)

(** The columns of the base scan. *)
Definition base_columns : list string :=
  ["time"; "update_time"; "logoid"; "name"; "description";
   "last_bar_update_time"; "open"; "high"; "low"; "close"; "volume";
   "premarket_time"; "premarket_open"; "premarket_high"; "premarket_low";
   "premarket_close"; "premarket_volume"; "premarket_change_abs";
   "premarket_change"; "premarket_change_from_open"; "premarket_gap";
   "change"; "volume_change"; "average_volume_30d_calc"; "relative_volume";
   "relative_volume_10d_calc"; "gap"; "gap_up"; "gap_up_abs";
   "float_shares_outstanding"; "currency"; "sector"; "market"; "industry";
   "update_mode"; "type"; "typespecs"].

(** [getBaseScanQuery(market)].  The receiver of [where] is evaluated
    before its arguments, so the three predicates are made after the
    builder, its markets and its columns. *)
Definition getBaseScanQuery (market : val) : M val :=
  let market := Query.or_default (VStr "america") market in
  q ← Query.constructor;
  q ← Query.setMarkets q [market];
  q ← Query.select q (VStr <$> base_columns);
  c ← col "active_symbol"; p1 ← Column.eq c (VBool true);
  c ← col "type"; p2 ← Column.eq c (VStr "stock");
  c ← col "is_primary"; p3 ← Column.eq c (VBool true);
  q ← Query.where_ q [p1; p2; p3];
  Query.setMarkets q [market].

(** [baseScan(market, cookies)] builds the same query and maps the
    response; as for [getScannerData], [rawData] is the parsed body that
    the transport delivers. *)
Definition baseScan (market rawData : val) : M val :=
  query ← getBaseScanQuery market;
  Query.getScannerData query rawData.

(** The store with the response
    [{totalCount: 1, data: [{s: 'NASDAQ:AAPL', d: [150.2, 9000000]}]}]
    (the object 3). *)
Definition response_example : heap :=
  default []
    (exec (JSON_parse (one_row_response [JNum (751 # 5); JNum 9000000])) []).

(** ** Total correctness of a store computation *)

(** [wp m h Φ]: run in [h], [m] returns, and its result and final store
    satisfy [Φ]. *)
Definition wp {A} (m : M A) (h : heap) (Φ : A → heap → Prop) : Prop :=
  ∃ a h', m h = Some (a, h') ∧ Φ a h'.

(** [wlp m h Φ]: whenever [m] returns, [Φ] holds. *)
Definition wlp {A} (m : M A) (h : heap) (Φ : A → heap → Prop) : Prop :=
  ∀ a h', m h = Some (a, h') → Φ a h'.

(** * Reasoning about store computations *)

#[global] Arguments Qred : simpl never.

Section wp_rules.
Context {A B : Type}.
Implicit Types (h : heap) (v x : val) (l : loc).

Lemma wp_ret (a : A) h Φ : Φ a h → wp (mret a) h Φ.
Proof. intros H. by exists a, h. Qed.

Lemma wp_bind (m : M A) (f : A → M B) h Φ :
  wp m h (λ a h', wp (f a) h' Φ) → wp (m ≫= f) h Φ.
Proof.
  intros (a & h' & Hm & b & h'' & Hf & HΦ). exists b, h''. split; [|done].
  unfold mbind, M_bind. by rewrite Hm.
Qed.

Lemma wp_mono (m : M A) h (Φ Ψ : A → heap → Prop) :
  wp m h Φ → (∀ a h', Φ a h' → Ψ a h') → wp m h Ψ.
Proof. intros (a & h' & Hm & HΦ) HΨ. exists a, h'. eauto. Qed.

Lemma wp_eq (m : M A) h Φ a h' : m h = Some (a, h') → Φ a h' → wp m h Φ.
Proof. intros. by exists a, h'. Qed.

Lemma wp_assoc {C} (m : M A) (f : A → M B) (g : B → M C) h Φ :
  wp (x ← (a ← m; f a); g x) h Φ → wp (a ← m; x ← f a; g x) h Φ.
Proof.
  intros (x & h' & Heq & HΦ). exists x, h'. split; [|done].
  revert Heq. unfold mbind, M_bind. by destruct (m h) as [[]|].
Qed.
End wp_rules.

Section wp_prims.
Implicit Types (h : heap) (v x : val) (l : loc).

Lemma wp_alloc o h Φ : Φ (VRef (length h)) (h ++ [o]) → wp (alloc o) h Φ.
Proof. intros H. by eexists _, _. Qed.

Lemma wp_get_prop l k ps h Φ :
  h !! l = Some (Obj ps) → Φ (prop_of k ps) h → wp (get_prop (VRef l) k) h Φ.
Proof.
  intros Hl H. eexists _, _. split; [|exact H].
  unfold get_prop, mbind, M_bind, read. by rewrite Hl.
Qed.

Lemma wp_set_prop l k x ps h Φ :
  h !! l = Some (Obj ps) →
  Φ () (<[l := Obj (assoc_set k x ps)]> h) →
  wp (set_prop (VRef l) k x) h Φ.
Proof.
  intros Hl H. eexists _, _. split; [|exact H].
  unfold set_prop, mbind, M_bind, read, write. rewrite Hl. simpl.
  apply lookup_lt_Some in Hl. by rewrite decide_True.
Qed.

Lemma wp_get_elems l es h Φ :
  h !! l = Some (Arr es) → Φ es h → wp (get_elems (VRef l)) h Φ.
Proof.
  intros Hl H. eexists _, _. split; [|exact H].
  unfold get_elems, mbind, M_bind, read. by rewrite Hl.
Qed.

Lemma wp_get_index l i es h Φ :
  h !! l = Some (Arr es) → Φ (default VUndefined (es !! i)) h →
  wp (get_index (VRef l) i) h Φ.
Proof.
  intros Hl H. apply wp_bind. eapply wp_get_elems; [done|]. by apply wp_ret.
Qed.

Lemma wp_set_index l i x es h Φ :
  h !! l = Some (Arr es) → i < length es →
  Φ () (<[l := Arr (<[i := x]> es)]> h) →
  wp (set_index (VRef l) i x) h Φ.
Proof.
  intros Hl Hi H. apply wp_bind. eapply wp_get_elems; [done|].
  rewrite decide_True by done. eexists _, _. split; [|exact H].
  unfold write. apply lookup_lt_Some in Hl. by rewrite decide_True.
Qed.

Lemma wp_push l x es h Φ :
  h !! l = Some (Arr es) → Φ () (<[l := Arr (es ++ [x])]> h) →
  wp (push (VRef l) x) h Φ.
Proof.
  intros Hl H. apply wp_bind. eapply wp_get_elems; [done|].
  eexists _, _. split; [|exact H].
  unfold write. apply lookup_lt_Some in Hl. by rewrite decide_True.
Qed.

Lemma wp_js_add a b h Φ :
  Φ (VNum (Qred (a + b))) h → wp (js_add (VNum a) (VNum b)) h Φ.
Proof. intros H. by eexists _, _. Qed.

Lemma wp_js_sub a b h Φ :
  Φ (VNum (Qred (a - b))) h → wp (js_sub (VNum a) (VNum b)) h Φ.
Proof. intros H. by eexists _, _. Qed.
End wp_prims.

(** Lookups in a store built by allocations and writes. *)
Lemma length_snoc {A} (l : list A) x : length (l ++ [x]) = S (length l).
Proof. rewrite length_app. simpl. lia. Qed.

(** [lia] splits on every disequality among the hypotheses, so they are put
    aside before it runs. *)
Ltac clear_neqs :=
  repeat match goal with H : _ ≠ _ |- _ => clear H end.

Ltac norm_len :=
  repeat first [ rewrite length_insert | rewrite length_snoc ].

Ltac heap_lia :=
  first [ assumption | apply not_eq_sym; assumption | clear_neqs; lia ].

Ltac heap_len :=
  first [ assumption | apply not_eq_sym; assumption
        | norm_len; rewrite ?length_app; simpl; clear_neqs; lia ].

Ltac heap_lookup :=
  repeat first
    [ rewrite list_lookup_insert_eq by heap_len
    | rewrite list_lookup_insert_ne by heap_len
    | rewrite list_lookup_middle by heap_len
    | rewrite lookup_app_l by heap_len ];
  try done.

Ltac wp_step :=
  lazymatch goal with
  | |- wp (mret _) _ _ => apply wp_ret
  | |- wp (_ ≫= _) _ _ => apply wp_bind
  | |- wp (alloc _) _ _ => apply wp_alloc; norm_len
  | |- wp (get_prop _ _) _ _ => eapply wp_get_prop; [heap_lookup; eassumption|]
  | |- wp (set_prop _ _ _) _ _ => eapply wp_set_prop; [heap_lookup; eassumption|]
  | |- wp (get_elems _) _ _ => eapply wp_get_elems; [heap_lookup; eassumption|]
  | |- wp (get_index _ _) _ _ => eapply wp_get_index; [heap_lookup; eassumption|]
  | |- wp (set_index _ _ _) _ _ => eapply wp_set_index; [heap_lookup; eassumption|simpl; heap_lia|]
  | |- wp (push _ _) _ _ => eapply wp_push; [heap_lookup; eassumption|]
  | |- wp (js_add _ _) _ _ => apply wp_js_add
  | |- wp (js_sub _ _) _ _ => apply wp_js_sub
  | |- wp (if decide ?P then _ else _) _ _ => destruct (decide P)
  | |- wp (if ?b then _ else _) _ _ => progress (cbn [truthy])
  end; cbn beta; cbn [prop_of assoc assoc_set from_option id String.eqb Ascii.eqb Bool.eqb app fst snd lookup list_lookup].

Lemma holds_app h ext cs : Forall (holds h) cs → Forall (holds (h ++ ext)) cs.
Proof. intros H. eapply Forall_impl; [exact H|]. intros [l o]. apply lookup_app_l_Some. Qed.

Lemma holds_insert (h : heap) (l : loc) o cs :
  Forall (holds h) cs → l ∉ cs.*1 → Forall (holds (<[l := o]> h)) cs.
Proof.
  intros H Hl. apply Forall_forall. intros [l' o'] Hin.
  rewrite Forall_forall in H. unfold holds. simpl.
  rewrite list_lookup_insert_ne; [by apply (H (l', o'))|].
  intros ->. apply Hl. apply list_elem_of_fmap. by exists (l', o').
Qed.

Lemma holds_fresh (h : heap) (l : loc) cs : Forall (holds h) cs → length h ≤ l → l ∉ cs.*1.
Proof.
  intros H Hl (c & -> & Hin)%list_elem_of_fmap.
  rewrite Forall_forall in H. apply H, lookup_lt_Some in Hin. lia.
Qed.

Ltac cbn_state :=
  cbn [st_this st_dict st_markets st_symbols st_tickers st_groups st_tickers_first
       st_options st_columns st_filter st_filter2 st_sort st_range fst snd
       with_markets with_tickers with_groups with_columns with_filter
       with_filter2 with_sort with_range].

Tactic Notation "cbn_state" "in" hyp(H) :=
  cbn [st_this st_dict st_markets st_symbols st_tickers st_groups st_tickers_first
       st_options st_columns st_filter st_filter2 st_sort st_range fst snd
       with_markets with_tickers with_groups with_columns with_filter
       with_filter2 with_sort with_range] in H.

Ltac cbn_cells :=
  cbn [app fmap list_fmap fst snd tickers_cells groups_cells group_cells
       mbind list_bind g_loc g_vloc g_values].

Tactic Notation "cbn_cells" "in" hyp(H) :=
  cbn [app fmap list_fmap fst snd tickers_cells groups_cells group_cells
       mbind list_bind g_loc g_vloc g_values] in H.

Lemma conj_all_Forall {A} (P : A → Prop) l : conj_all P l ↔ Forall P l.
Proof.
  induction l as [|x l IH]; simpl.
  - split; [intros _; apply Forall_nil_2|done].
  - rewrite Forall_cons. by rewrite IH.
Qed.

Lemma distinct_NoDup l : distinct l ↔ NoDup l.
Proof.
  induction l as [|x l IH]; simpl.
  - split; [intros _; apply NoDup_nil_2|done].
  - rewrite NoDup_cons, conj_all_Forall, IH, Forall_forall.
    split; intros [H1 H2]; (split; [|done]).
    + intros Hin. by apply (H1 x).
    + intros y Hy ->. done.
Qed.

Lemma rep_unfold st h : rep st h ↔ rep_facts st h.
Proof.
  unfold rep, rep_facts, footprint.
  rewrite !fmap_app, !NoDup_app, !Forall_app, distinct_NoDup, !conj_all_Forall.
  rewrite (Forall_forall _ (tickers_cells _).*1).
  assert (NoDup (tickers_cells (st_tickers st)).*1).
  { destruct (st_tickers st); simpl; [apply NoDup_singleton|apply NoDup_nil_2]. }
  split.
  - intros [(Hs & Hd & Ht & Htg & Hg) (Hcs & Hct & Hcg)].
    repeat split; try done.
    apply Forall_forall. intros x Hx. apply Hd in Hx.
    by rewrite not_elem_of_app in Hx.
  - intros (Hs & Hd & Htg & Hg & Hcs & Hct & Hcg).
    repeat split; try done.
    intros x Hx. apply not_elem_of_app.
    rewrite Forall_forall in Hd. by apply Hd.
Qed.

Lemma holds_bound (h : heap) cs (x : loc) :
  Forall (holds h) cs → x ∈ cs.*1 → x < length h.
Proof.
  intros H (c & -> & Hin)%list_elem_of_fmap.
  rewrite Forall_forall in H. by apply H, lookup_lt_Some in Hin.
Qed.

Ltac rep_open H :=
  apply rep_unfold in H; unfold rep_facts, static_cells, dict_props, symbols_props in H;
  cbn_state in H; cbn_cells in H; cbn [conj_all distinct fst snd] in H;
  destruct_and?;
  repeat match goal with
  | H' : _ ∉ _ :: _ |- _ => apply not_elem_of_cons in H' as [? ?]
  | H' : NoDup (_ :: _) |- _ => apply NoDup_cons in H' as [? ?]
  | H' : Forall _ (_ :: _) |- _ => apply Forall_cons in H' as [? ?]
  | H' : holds ?h (?l, ?o) |- _ => change (h !! l = Some o) in H'
  end.

Ltac note_bounds :=
  repeat match goal with
  | H : ?h !! ?l = Some _ |- _ =>
      lazymatch goal with
      | _ : l < length h |- _ => fail
      | _ => pose proof (lookup_lt_Some _ _ _ H)
      end
  end.

Ltac norm_cells :=
  cbn_cells; rewrite ?bind_app, ?fmap_app, ?app_nil_r; cbn_cells.

(** The objects of a list of cells are still there after an allocation or
    a write elsewhere. *)
Ltac solve_notin :=
  first
    [ assumption
    | apply not_elem_of_nil
    | eapply holds_fresh; [eassumption|heap_len]
    | norm_cells;
      first [ apply not_elem_of_nil
            | apply not_elem_of_cons; split; [heap_lia|solve_notin]
            | apply not_elem_of_app; split; solve_notin ] ].

(** Objects that were there before are not among those just allocated. *)
Ltac solve_disj :=
  let x := fresh "x" in
  let Hx := fresh "Hx" in
  intros x Hx; eapply holds_bound in Hx; [|eassumption];
  rewrite ?not_elem_of_cons; repeat split;
  first [ apply not_elem_of_nil | clear_neqs; lia ].

Ltac solve_nodup :=
  first
    [ assumption
    | apply NoDup_nil_2
    | norm_cells;
      first [ apply NoDup_nil_2
            | apply NoDup_cons; split; [solve_notin|solve_nodup]
            | apply NoDup_app; split; [solve_nodup|split; [solve_disj|solve_nodup]] ] ].

Ltac solve_cell :=
  unfold holds; cbn [fst snd]; heap_lookup;
  first [ eassumption | reflexivity
        | cbn [insert list_insert]; first [eassumption | reflexivity] ].

Ltac solve_tail :=
  lazymatch goal with
  | |- Forall (holds (_ ++ _)) _ => apply holds_app; solve_tail
  | |- Forall (holds (<[_ := _]> _)) _ => apply holds_insert; [solve_tail|solve_notin]
  | |- Forall (holds _) _ => assumption
  end.

Ltac solve_forall :=
  first
    [ apply Forall_nil_2
    | solve_tail
    | norm_cells;
      first [ apply Forall_nil_2
            | apply Forall_cons; split; [solve_cell|solve_forall]
            | apply Forall_app; split; solve_forall ] ].

Ltac solve_atom :=
  lazymatch goal with
  | |- True => exact I
  | |- _ ≠ _ => heap_lia
  | |- _ ∉ _ => solve_notin
  | |- NoDup _ => solve_nodup
  | |- Forall _ _ => solve_forall
  | |- holds _ _ => solve_cell
  | |- conj_all _ _ => assumption
  | |- _ => idtac
  end.

Ltac rep_close :=
  apply rep_unfold;
  unfold rep_facts, fresh_state, static_cells, dict_props, symbols_props;
  cbn_state; cbn_cells; cbn [conj_all distinct];
  repeat split; try solve_atom.

Lemma constructor_rep h :
  wp Query.constructor h (λ v h',
    v = VRef (st_this (fresh_state (length h))) ∧
    rep (fresh_state (length h)) h' ∧ ∃ ext, h' = h ++ ext).
Proof.
  unfold Query.constructor.
  repeat wp_step.
  split; [done|]. split; [rep_close|].
  eexists. by rewrite <- !app_assoc.
Qed.

Lemma limit_rep st h a b n :
  rep st h → (st_range st).2 = [VNum a; VNum b] →
  wp (Query.limit (VRef (st_this st)) (VNum n)) h (λ v h',
    v = VRef (st_this st) ∧
    rep (with_range ((st_range st).1, [VNum a; VNum (Qred (a + n))]) st) h').
Proof.
  destruct st as [q d [m ms] sy tk gr tf o [c cs] [f fs] f2 [s ss] [r rs]].
  simpl. intros Hrep ->. rep_open Hrep. note_bounds.
  unfold Query.limit.
  repeat wp_step.
  split; [done|]. rep_close.
Qed.

Lemma offset_rep st h a b n :
  rep st h → (st_range st).2 = [VNum a; VNum b] →
  wp (Query.offset (VRef (st_this st)) (VNum n)) h (λ v h',
    v = VRef (st_this st) ∧
    rep (with_range (length h, [VNum n; VNum (Qred (n + Qred (b - a)))]) st) h').
Proof.
  destruct st as [q d [m ms] sy tk gr tf o [c cs] [f fs] f2 [s ss] [r rs]].
  simpl. intros Hrep ->. rep_open Hrep. note_bounds.
  unfold Query.offset.
  repeat wp_step.
  split; [done|]. rep_close.
Qed.

Lemma select_rep st h columns :
  rep st h → columns ≠ [] →
  wp (Query.select (VRef (st_this st)) columns) h (λ v h',
    v = VRef (st_this st) ∧ rep (with_columns (length h, columns) st) h').
Proof.
  destruct st as [q d [m ms] sy tk gr tf o [c cs] [f fs] f2 [s ss] [r rs]].
  simpl. intros Hrep Hne. rep_open Hrep. note_bounds.
  unfold Query.select.
  wp_step. wp_step; [|destruct columns; simpl in *; [done|heap_lia]].
  repeat wp_step.
  split; [done|]. rep_close.
Qed.

Lemma setMarkets_rep st h markets :
  rep st h → markets ≠ [] →
  wp (Query.setMarkets (VRef (st_this st)) markets) h (λ v h',
    v = VRef (st_this st) ∧ rep (with_markets (length h, markets) st) h').
Proof.
  destruct st as [q d [m ms] sy tk gr tf o [c cs] [f fs] f2 [s ss] [r rs]].
  simpl. intros Hrep Hne. rep_open Hrep. note_bounds.
  unfold Query.setMarkets.
  wp_step. wp_step; [|destruct markets; simpl in *; [done|heap_lia]].
  repeat wp_step.
  split; [done|]. rep_close.
Qed.

Lemma where2_rep st h operation :
  rep st h →
  wp (Query.where2 (VRef (st_this st)) operation) h (λ v h',
    v = VRef (st_this st) ∧ rep (with_filter2 operation st) h').
Proof.
  destruct st as [q d [m ms] sy tk gr tf o [c cs] [f fs] f2 [s ss] [r rs]].
  simpl. intros Hrep. destruct f2; rep_open Hrep; note_bounds.
  all: unfold Query.where2; repeat wp_step.
  all: split; [done|]; rep_close.
Qed.

Lemma orderBy_rep st h column ascending nullsFirst :
  rep st h →
  wp (Query.orderBy (VRef (st_this st)) column ascending nullsFirst) h (λ v h',
    v = VRef (st_this st) ∧
    rep (with_sort
           (length h,
            [("sortBy", column);
             ("sortOrder",
              VStr (if truthy (Query.or_default (VBool true) ascending)
                    then "asc" else "desc"));
             ("nullsFirst", Query.or_default (VBool false) nullsFirst)]) st) h').
Proof.
  destruct st as [q d [m ms] sy tk gr tf o [c cs] [f fs] f2 [s ss] [r rs]].
  simpl. intros Hrep. rep_open Hrep. note_bounds.
  unfold Query.orderBy.
  repeat wp_step.
  split; [done|]. rep_close.
Qed.

Lemma where_loop_rep exprs : ∀ st h,
  rep st h →
  wp (for_each (λ expr, filter ← get_prop (VRef (st_dict st)) "filter";
                        push filter expr) exprs) h
     (λ _ h', rep (with_filter ((st_filter st).1, (st_filter st).2 ++ exprs) st) h').
Proof.
  induction exprs as [|e exprs IH]; intros st h Hrep.
  - apply wp_ret. destruct st as [q d [m ms] sy tk gr tf o [c cs] [f fs] f2 [s ss] [r rs]].
    unfold with_filter. simpl. by rewrite app_nil_r.
  - destruct st as [q d [m ms] sy tk gr tf o [c cs] [f fs] f2 [s ss] [r rs]].
    cbn [for_each]. apply wp_bind.
    eapply wp_mono.
    { instantiate (1 := λ _ h', rep (QState q d (m, ms) sy tk gr tf o (c, cs) (f, fs ++ [e]) f2 (s, ss) (r, rs)) h').
      rep_open Hrep. note_bounds. simpl. repeat wp_step. rep_close. }
    intros [] h' Hrep'. eapply wp_mono; [apply (IH _ _ Hrep')|].
    intros [] h''. unfold with_filter. simpl. by rewrite <- app_assoc.
Qed.

Lemma where_rep st h exprs :
  rep st h →
  wp (Query.where_ (VRef (st_this st)) exprs) h (λ v h',
    v = VRef (st_this st) ∧
    rep (with_filter ((st_filter st).1, (st_filter st).2 ++ exprs) st) h').
Proof.
  intros Hrep. unfold Query.where_.
  apply wp_bind. eapply wp_get_prop.
  { destruct Hrep as [_ Hc]. by apply Forall_cons in Hc as [Hc _]. }
  cbn [prop_of assoc from_option id String.eqb Ascii.eqb Bool.eqb].
  apply wp_bind. eapply wp_get_prop.
  { destruct Hrep as [_ Hc]. apply Forall_cons in Hc as [_ Hc].
    by apply Forall_cons in Hc as [Hc _]. }
  unfold dict_props.
  cbn [prop_of assoc from_option id String.eqb Ascii.eqb Bool.eqb app].
  apply wp_bind. cbn [truthy]. apply wp_ret.
  apply wp_bind. eapply wp_mono; [by apply where_loop_rep|].
  intros [] h' Hrep'. by apply wp_ret.
Qed.

Lemma setTickers_rep st h tickers :
  rep st h → tickers ≠ [] →
  wp (Query.setTickers (VRef (st_this st)) tickers) h (λ v h',
    v = VRef (st_this st) ∧ rep (with_tickers (length h, tickers) st) h').
Proof.
  destruct st as [q d [m ms] sy tk gr tf o [c cs] [f fs] f2 [s ss] [r rs]].
  simpl. intros Hrep Hne. 
  unfold Query.setTickers.
  wp_step. wp_step; [|destruct tickers; simpl in *; [done|heap_lia]].
  destruct tk as [[t ts]|], gr as [[g gs]|]; try destruct tf;
    rep_open Hrep; note_bounds; repeat wp_step; (split; [done|]).
  all: rep_close.
Qed.

Lemma setIndex_rep st h indexes :
  rep st h → indexes ≠ [] →
  wp (Query.setIndex (VRef (st_this st)) indexes) h (λ v h',
    v = VRef (st_this st) ∧ rep (setIndex_state (length h) indexes st) h').
Proof.
  destruct st as [q d [m ms] sy tk gr tf o [c cs] [f fs] f2 [s ss] [r rs]].
  simpl. intros Hrep Hne.
  unfold Query.setIndex.
  wp_step. wp_step; [|destruct indexes; simpl in *; [done|heap_lia]].
  unfold setIndex_state.
  destruct tk as [[t ts]|], gr as [[g gs]|]; try destruct tf;
    rep_open Hrep; note_bounds; repeat wp_step; (split; [reflexivity|]); cbn_state.
  all: rep_close.
Qed.

(** ** Chains of calls *)

Lemma call_state_numeric n c st : numeric_range st → numeric_range (call_state n c st).
Proof.
  intros (a & b & Hr). destruct st as [q d m sy tk gr tf o cl f f2 s [r rs]].
  simpl in Hr. subst rs.
  destruct c as [[]|[]|[]|[]| | | | |]; try (by exists a, b); simpl.
  - unfold setIndex_state. simpl. destruct gr; by exists a, b.
  - by eexists _, _.
  - by eexists _, _.
Qed.

Lemma call_state_this n c st : st_this (call_state n c st) = st_this st.
Proof.
  destruct st as [q d m sy tk gr tf o cl f f2 s [r rs]].
  destruct c as [[]|[]|[]|[]| | | | |]; try done; simpl.
  - unfold setIndex_state. simpl. by destruct gr.
  - by destruct rs as [|[] [|[] []]].
  - by destruct rs as [|[] [|[] []]].
Qed.

Lemma run_call_rep st h c :
  rep st h → numeric_range st →
  wp (run_call (VRef (st_this st)) c) h (λ v h',
    v = VRef (st_this st) ∧ rep (call_state (length h) c st) h').
Proof.
  intros Hrep (a & b & Hr).
  destruct c as [cols|ms|ts|ixs|es|op|col asc nf|x|x]; simpl.
  - destruct cols as [|c cols]; [by apply wp_ret|].
    by apply select_rep.
  - destruct ms as [|c cols]; [by apply wp_ret|].
    by apply setMarkets_rep.
  - destruct ts as [|c cols]; [by apply wp_ret|].
    by apply setTickers_rep.
  - destruct ixs as [|c cols]; [by apply wp_ret|].
    by apply setIndex_rep.
  - by apply where_rep.
  - by apply where2_rep.
  - eapply wp_mono; [by apply orderBy_rep|].
    intros v h' [-> H]. split; [done|]. by destruct asc as [[]|], nf.
  - rewrite Hr. eapply wp_mono; [by eapply limit_rep|]. done.
  - rewrite Hr. eapply wp_mono; [by eapply offset_rep|]. done.
Qed.

Lemma run_calls_rep cs : ∀ st h,
  rep st h → numeric_range st →
  wp (run_calls (VRef (st_this st)) cs) h (λ v h',
    v = VRef (st_this st) ∧ ∃ st', reaches st cs st' ∧ rep st' h').
Proof.
  induction cs as [|c cs IH]; intros st h Hrep Hnum; simpl.
  - apply wp_ret. eauto.
  - apply wp_bind. eapply wp_mono; [by apply run_call_rep|].
    intros v h' [-> Hrep'].
    rewrite <- (call_state_this (length h) c st).
    eapply wp_mono; [apply IH; [done|by apply call_state_numeric]|].
    intros v h'' (-> & st' & Hreach & Hrep''). split; [done|]. eauto.
Qed.

Lemma reaches_this cs : ∀ st st', reaches st cs st' → st_this st' = st_this st.
Proof.
  induction cs as [|c cs IH]; simpl; intros st st'.
  - by intros ->.
  - intros (n & H). apply IH in H. by rewrite call_state_this in H.
Qed.

Lemma reaches_numeric cs : ∀ st st',
  reaches st cs st' → numeric_range st → numeric_range st'.
Proof.
  induction cs as [|c cs IH]; simpl; intros st st'.
  - by intros ->.
  - intros (n & H) Hn. eapply IH; [done|]. by apply call_state_numeric.
Qed.

Lemma fresh_calls_rep h cs :
  wp (q ← Query.constructor; run_calls q cs) h (λ v h',
    ∃ st', v = VRef (st_this st') ∧
           reaches (fresh_state (length h)) cs st' ∧ rep st' h').
Proof.
  apply wp_bind. eapply wp_mono; [apply constructor_rep|].
  intros v h' (-> & Hrep & _).
  eapply wp_mono; [apply run_calls_rep; [done|by eexists _, _]|].
  intros v h'' (-> & st' & Hreach & Hrep'). exists st'.
  split; [|done]. by rewrite (reaches_this _ _ _ Hreach).
Qed.

(** ** Reading the state of a builder *)

Lemma wp_eval {A} (m : M A) h x : wp m h (λ a _, a = x) → eval m h = Some x.
Proof. intros (a & h' & Hm & ->). unfold eval. by rewrite Hm. Qed.

Lemma wp_range_of st h Φ :
  rep st h → Φ (Some (st_range st).2) h → wp (range_of (VRef (st_this st))) h Φ.
Proof.
  destruct st as [q d [m ms] sy tk gr tf o [c cs] [f fs] f2 [s ss] [r rs]].
  intros Hrep HΦ. rep_open Hrep.
  unfold range_of, Query.getQueryDict, array_of. by repeat wp_step.
Qed.

Lemma wp_columns_of st h Φ :
  rep st h → Φ (Some (st_columns st).2) h → wp (columns_of (VRef (st_this st))) h Φ.
Proof.
  destruct st as [q d [m ms] sy tk gr tf o [c cs] [f fs] f2 [s ss] [r rs]].
  intros Hrep HΦ. rep_open Hrep.
  unfold columns_of, Query.getQueryDict, array_of. by repeat wp_step.
Qed.

Lemma wp_markets_of st h Φ :
  rep st h → Φ (Some (st_markets st).2) h → wp (markets_of (VRef (st_this st))) h Φ.
Proof.
  destruct st as [q d [m ms] sy tk gr tf o [c cs] [f fs] f2 [s ss] [r rs]].
  intros Hrep HΦ. rep_open Hrep.
  unfold markets_of, Query.getQueryDict, array_of. by repeat wp_step.
Qed.

Lemma wp_filter_of st h Φ :
  rep st h → Φ (Some (st_filter st).2) h → wp (filter_of (VRef (st_this st))) h Φ.
Proof.
  destruct st as [q d [m ms] sy tk gr tf o [c cs] [f fs] f2 [s ss] [r rs]].
  intros Hrep HΦ. rep_open Hrep.
  unfold filter_of, Query.getQueryDict, array_of. by repeat wp_step.
Qed.

Lemma wp_tickers_of st h Φ :
  rep st h → Φ (tickers_view st) h → wp (tickers_of (VRef (st_this st))) h Φ.
Proof.
  destruct st as [q d [m ms] sy tk gr tf o [c cs] [f fs] f2 [s ss] [r rs]].
  intros Hrep HΦ.
  unfold tickers_of, Query.getQueryDict, array_of.
  destruct tk as [[t ts]|], gr as [[g gs]|]; try destruct tf;
    rep_open Hrep; by repeat wp_step.
Qed.

Lemma wp_group_objects gs : ∀ h Φ,
  Forall (holds h) (gs ≫= group_cells) →
  Φ ((λ g, (VStr "index", g_values g)) <$> gs) h →
  wp (map_m group_of (VRef ∘ g_loc <$> gs)) h Φ.
Proof.
  induction gs as [|[gl vl vs] gs IH]; intros h Φ Hc HΦ; simpl.
  - by apply wp_ret.
  - cbn_cells in Hc. apply Forall_cons in Hc as [Hg Hc]. apply Forall_cons in Hc as [Hv Hc].
    unfold holds in Hg, Hv; simpl in Hg, Hv.
    apply wp_bind. unfold group_of at 1. repeat wp_step.
    apply IH; [done|]. by apply wp_ret.
Qed.

Lemma wp_groups_of st h Φ :
  rep st h → Φ (groups_view st) h → wp (groups_of (VRef (st_this st))) h Φ.
Proof.
  destruct st as [q d [m ms] sy tk gr tf o [c cs] [f fs] f2 [s ss] [r rs]].
  intros Hrep HΦ.
  unfold groups_of, Query.getQueryDict.
  destruct tk as [[t ts]|], gr as [[g gs]|]; try destruct tf;
    rep_open Hrep; repeat wp_step; try done.
  all: apply wp_group_objects; [done|]; by apply wp_ret.
Qed.

(** * The claims *)

(** ** Range arithmetic *)




(** C1. Range composition: a fresh builder has range [0,50]; [limit(10)]
    makes it [0,10]; [offset(5)] then makes it [5,15], keeping the width 10;
    [limit(20)] then makes it [5,25], keeping the lower bound 5.  This holds
    in whatever store the builder is constructed. *)
Theorem range_composition (h : heap) :
  eval (q ← Query.constructor; r0 ← range_of q;
        q ← Query.limit q (num 10); r1 ← range_of q;
        q ← Query.offset q (num 5); r2 ← range_of q;
        q ← Query.limit q (num 20); r3 ← range_of q;
        mret [r0; r1; r2; r3]) h
  = Some [Some [num 0; num 50]; Some [num 0; num 10];
          Some [num 5; num 15]; Some [num 5; num 25]].
Proof.
  apply wp_eval.
  apply wp_bind. eapply wp_mono; [apply constructor_rep|].
  intros v h0 (-> & Hrep0 & _).
  apply wp_bind. apply (wp_range_of _ _ _ Hrep0).
  apply wp_bind. eapply wp_mono; [by eapply (limit_rep _ _ _ _ _ Hrep0)|].
  intros v h1 (-> & Hrep1).
  apply wp_bind. apply (wp_range_of _ _ _ Hrep1).
  apply wp_bind. eapply wp_mono; [by eapply (offset_rep _ _ _ _ _ Hrep1)|].
  intros v h2 (-> & Hrep2).
  apply wp_bind. apply (wp_range_of _ _ _ Hrep2).
  apply wp_bind. eapply wp_mono; [by eapply (limit_rep _ _ _ _ _ Hrep2)|].
  intros v h3 (-> & Hrep3).
  apply wp_bind. apply (wp_range_of _ _ _ Hrep3).
  apply wp_ret. reflexivity.
Qed.





(** ** Setters *)

(** C8. [select], [setMarkets] and [setTickers] called with no argument
    return the builder and leave the whole store as it was: nothing of the
    builder's state changes and nothing is raised. *)
Theorem empty_setters_noop (this : val) (h : heap) :
  Query.select this [] h = Some (this, h) ∧
  Query.setMarkets this [] h = Some (this, h) ∧
  Query.setTickers this [] h = Some (this, h).
Proof. by repeat split. Qed.

Lemma symbols_after_setTickers n ts st :
  groups_view (with_tickers (n, ts) st) = groups_view st ∧
  tickers_view (with_tickers (n, ts) st) = Some ts.
Proof. by destruct st. Qed.

Lemma symbols_after_setIndex n ixs st :
  tickers_view (setIndex_state n ixs st) = tickers_view st ∧
  groups_view (setIndex_state n ixs st)
  = Some (default [] (groups_view st) ++ [(VStr "index", ixs)]).
Proof.
  destruct st as [q d m sy tk [[g gs]|] tf o cl f f2 s r]; split; try done.
  unfold setIndex_state, groups_view. simpl. by rewrite fmap_app.
Qed.

(** C10, as amended.  In every state a chain of calls can leave: a
    [setTickers] call with at least one ticker replaces the ticker list by
    its arguments, whatever it was, and leaves the groups as they were; a
    [setIndex] call with at least one index appends the one group
    [{type: 'index', values}] and leaves the ticker list as it was. *)
Theorem tickers_and_groups_are_independent
    (h : heap) (cs : list call) (tickers indexes : list string) :
  tickers ≠ [] → indexes ≠ [] →
  (∃ g0,
     eval (q ← Query.constructor; q ← run_calls q cs;
           g0 ← groups_of q;
           q ← Query.setTickers q (VStr <$> tickers);
           t1 ← tickers_of q; g1 ← groups_of q;
           mret (g0, t1, g1)) h
     = Some (g0, Some (VStr <$> tickers), g0)) ∧
  (∃ t0 g0,
     eval (q ← Query.constructor; q ← run_calls q cs;
           t0 ← tickers_of q; g0 ← groups_of q;
           q ← Query.setIndex q (VStr <$> indexes);
           t1 ← tickers_of q; g1 ← groups_of q;
           mret (t0, g0, t1, g1)) h
     = Some (t0, g0, t0,
             Some (default [] g0 ++ [(VStr "index", VStr <$> indexes)]))).
Proof.
  intros Ht Hi.
  destruct (fresh_calls_rep h cs) as (v & h' & Hrun & st & -> & Hreach & Hrep).
  assert (wp (q ← Query.constructor; run_calls q cs) h
            (λ v h', v = VRef (st_this st) ∧ rep st h')) as Hwp
    by (by eexists _, _).
  split.
  - exists (groups_view st). apply wp_eval.
    apply wp_assoc, wp_bind. eapply wp_mono; [exact Hwp|].
    intros v h1 [-> Hrep1].
    apply wp_bind, (wp_groups_of _ _ _ Hrep1).
    apply wp_bind. eapply wp_mono.
    { apply (setTickers_rep _ _ _ Hrep1). by destruct tickers. }
    intros v h2 [-> Hrep2].
    apply wp_bind, (wp_tickers_of _ _ _ Hrep2).
    apply wp_bind, (wp_groups_of _ _ _ Hrep2).
    apply wp_ret.
    destruct (symbols_after_setTickers (length h1) (VStr <$> tickers) st)
      as [E1 E2].
    by rewrite E1, E2.
  - exists (tickers_view st), (groups_view st). apply wp_eval.
    apply wp_assoc, wp_bind. eapply wp_mono; [exact Hwp|].
    intros v h1 [-> Hrep1].
    apply wp_bind, (wp_tickers_of _ _ _ Hrep1).
    apply wp_bind, (wp_groups_of _ _ _ Hrep1).
    apply wp_bind. eapply wp_mono.
    { apply (setIndex_rep _ _ _ Hrep1). by destruct indexes. }
    intros v h2 [Hv Hrep2].
    assert (v = VRef (st_this (setIndex_state (length h1) (VStr <$> indexes) st)))
      as -> by (rewrite Hv; destruct st as [? ? ? ? ? [] ? ? ? ? ? ? ?]; done).
    apply wp_bind, (wp_tickers_of _ _ _ Hrep2).
    apply wp_bind, (wp_groups_of _ _ _ Hrep2).
    apply wp_ret.
    destruct (symbols_after_setIndex (length h1) (VStr <$> indexes) st)
      as [E1 E2].
    by rewrite E1, E2.
Qed.

Lemma tickers_and_groups_are_independent_witness :
  (∃ g0,
     eval (q ← Query.constructor;
           q ← run_calls q [CSetIndex ["SP;SPX"]; CSetTickers ["NYSE:IBM"]];
           g0 ← groups_of q;
           q ← Query.setTickers q (VStr <$> ["NASDAQ:AAPL"; "NASDAQ:MSFT"]);
           t1 ← tickers_of q; g1 ← groups_of q;
           mret (g0, t1, g1)) []
     = Some (g0, Some (VStr <$> ["NASDAQ:AAPL"; "NASDAQ:MSFT"]), g0)) ∧
  (∃ t0 g0,
     eval (q ← Query.constructor;
           q ← run_calls q [CSetIndex ["SP;SPX"]; CSetTickers ["NYSE:IBM"]];
           t0 ← tickers_of q; g0 ← groups_of q;
           q ← Query.setIndex q (VStr <$> ["DJ;DJI"]);
           t1 ← tickers_of q; g1 ← groups_of q;
           mret (t0, g0, t1, g1)) []
     = Some (t0, g0, t0,
             Some (default [] g0 ++ [(VStr "index", VStr <$> ["DJ;DJI"])]))).
Proof.
  apply (tickers_and_groups_are_independent []
           [CSetIndex ["SP;SPX"]; CSetTickers ["NYSE:IBM"]]
           ["NASDAQ:AAPL"; "NASDAQ:MSFT"] ["DJ;DJI"]); discriminate.
Defined.

(** C10 as stated fails for [setIndex] called with no index: the guard
    [indexes.length > 0] makes that call a no-op, so no group is appended
    (here the builder has no [groups] before and none after). *)
Lemma setIndex_without_index_appends_nothing :
  eval (q ← Query.constructor;
        g0 ← groups_of q;
        q ← Query.setIndex q [];
        g1 ← groups_of q;
        mret (g0, g1)) []
  = Some (None, None).
Proof. reflexivity. Qed.

(** ** Column predicates *)

Lemma wp_has_prop l k ps h Φ :
  h !! l = Some (Obj ps) → Φ (bool_decide (is_Some (assoc k ps))) h →
  wp (has_prop (VRef l) k) h Φ.
Proof.
  intros Hl H. eexists _, _. split; [|exact H].
  unfold has_prop, mbind, M_bind, read. by rewrite Hl.
Qed.

(** Primitives serialise whatever the fuel. *)
Lemma serialize_prim n h stack v :
  (if v is VRef _ then False else True) →
  serialize n h stack v =
  match v with
  | VUndefined => SNone
  | VNull => SDoc JNull
  | VBool b => SDoc (JBool b)
  | VNum q => SDoc (JNum q)
  | VStr s => SDoc (JStr s)
  | VRef _ => SFuel
  end.
Proof. by destruct n, v. Qed.

(** Serialising an object whose properties are strings. *)
Lemma stringify_cell l ps js (h : heap) :
  h !! l = Some (Obj ps) →
  ser_members (serialize (length h) h [l]) ps = SDoc (JObj js) →
  JSON_stringify (VRef l) h = Some (JObj js, h).
Proof.
  intros Hl Hs. unfold JSON_stringify. cbn [serialize].
  rewrite decide_False by apply not_elem_of_nil. by rewrite Hl, Hs.
Qed.

Lemma nullary_predicate (method : val → M val) (code f : string) (h : heap) :
  (∀ this, method this =
     (name ← get_prop this "name";
      alloc (Obj [("left", name); ("operation", VStr code)]))) →
  ∃ p h',
    (c ← col f; method c) h = Some (VRef p, h') ∧
    h' !! p = Some (Obj [("left", VStr f); ("operation", VStr code)]) ∧
    eval (has_prop (VRef p) "right") h' = Some false ∧
    eval (JSON_stringify (VRef p)) h'
    = Some (JObj [("left", JStr f); ("operation", JStr code)]).
Proof.
  intros Hm.
  assert (wp (c ← col f; method c) h (λ v h',
            v = VRef (S (length h)) ∧
            h' !! S (length h)
            = Some (Obj [("left", VStr f); ("operation", VStr code)]))) as Hwp.
  { unfold col, Column.constructor. apply wp_bind. wp_step. rewrite Hm.
    repeat wp_step. split; [done|]. heap_lookup. }
  destruct Hwp as (v & h' & Hrun & -> & Hp).
  exists (S (length h)), h'. repeat split; try done.
  - apply wp_eval. eapply wp_has_prop; [done|].
    apply bool_decide_eq_false_2. simpl. by intros [? ?].
  - unfold eval.
    rewrite (stringify_cell _ _ [("left", JStr f); ("operation", JStr code)]
               _ Hp); [done|].
    cbn [ser_members]. by rewrite !serialize_prim.
Qed.

(** C9. For every field name, [col(f).empty()] and [col(f).notEmpty()]
    produce a predicate with exactly the two properties [left] (the field)
    and [operation] ([empty] / [nempty]): the key [right] is not in the
    object, and the serialised predicate has no operand member. *)
Theorem nullary_predicates_have_no_operand (f : string) (h : heap) :
  (∃ p h',
     (c ← col f; Column.empty c) h = Some (VRef p, h') ∧
     h' !! p = Some (Obj [("left", VStr f); ("operation", VStr "empty")]) ∧
     eval (has_prop (VRef p) "right") h' = Some false ∧
     eval (JSON_stringify (VRef p)) h'
     = Some (JObj [("left", JStr f); ("operation", JStr "empty")])) ∧
  (∃ p h',
     (c ← col f; Column.notEmpty c) h = Some (VRef p, h') ∧
     h' !! p = Some (Obj [("left", VStr f); ("operation", VStr "nempty")]) ∧
     eval (has_prop (VRef p) "right") h' = Some false ∧
     eval (JSON_stringify (VRef p)) h'
     = Some (JObj [("left", JStr f); ("operation", JStr "nempty")])).
Proof. split; by apply nullary_predicate. Qed.

(** ** The logical combinators *)

Lemma is_predicate_not_connective h v : is_predicate h v → ¬ is_connective h v.
Proof.
  intros (l & ps & f & code & -> & Hl & _ & Hop) (l' & ps' & o & ops & [= <-] & Hl' & Hop' & _).
  congruence.
Qed.

Lemma wp_run {A} (m : M A) h x y :
  wp m h (λ a h', a = x ∧ h' = y) → m h = Some (x, y).
Proof. by intros (a & h' & Hm & -> & ->). Qed.

Lemma is_OperationDict_predicate h v :
  is_predicate h v → is_OperationDict v h = Some (false, h).
Proof.
  intros (l & ps & f & code & -> & Hl & _ & Hop).
  apply wp_run. unfold is_OperationDict.
  apply wp_bind. eapply wp_has_prop; [done|].
  rewrite Hop, bool_decide_eq_true_2 by done.
  apply wp_bind. eapply wp_get_prop; [done|].
  unfold prop_of. rewrite Hop. by apply wp_ret.
Qed.

Lemma is_OperationDict_connective h v :
  is_connective h v → is_OperationDict v h = Some (true, h).
Proof.
  intros (l & ps & o & ops & -> & Hl & Hop & Ho & Hops).
  apply wp_run. unfold is_OperationDict.
  apply wp_bind. eapply wp_has_prop; [done|].
  rewrite Hop, bool_decide_eq_true_2 by done.
  apply wp_bind. eapply wp_get_prop; [done|].
  unfold prop_of. rewrite Hop. simpl.
  eapply wp_has_prop; [done|]. by rewrite bool_decide_eq_true_2.
Qed.

Lemma is_predicate_app h ext v : is_predicate h v → is_predicate (h ++ ext) v.
Proof.
  intros (l & ps & f & code & -> & Hl & H1 & H2).
  exists l, ps, f, code. repeat split; try done. by apply lookup_app_l_Some.
Qed.

Lemma is_connective_app h ext v : is_connective h v → is_connective (h ++ ext) v.
Proof.
  intros (l & ps & o & ops & -> & Hl & Hop & Ho & Hops).
  exists l, ps, o, ops. repeat split; try done; by apply lookup_app_l_Some.
Qed.

Lemma wrap_operands h0 args : ∀ ext,
  Forall (is_operand h0) args →
  ∃ operands ext',
    map_m wrap_operand args (h0 ++ ext) = Some (operands, h0 ++ ext') ∧
    (∀ l o, (h0 ++ ext) !! l = Some o → (h0 ++ ext') !! l = Some o) ∧
    Forall2 (operand_of h0 (h0 ++ ext')) args operands.
Proof.
  induction args as [|x args IH]; intros ext Hargs.
  - exists [], ext. repeat split; [done|constructor].
  - apply Forall_cons in Hargs as [Hx Hargs].
    destruct Hx as [Hx|Hx].
    + destruct (IH (ext ++ [Obj [("expression", x)]]) Hargs)
        as (operands & ext' & Hrun & Hext & Hops).
      exists (VRef (length (h0 ++ ext)) :: operands), ext'.
      split; [|split].
      * cbn [map_m]. unfold mbind at 1, M_bind at 1.
        unfold wrap_operand at 1. unfold mbind at 1, M_bind at 1.
        rewrite (is_OperationDict_predicate (h0 ++ ext) x)
          by by apply is_predicate_app.
        unfold alloc. rewrite <- app_assoc.
        unfold mbind at 1, M_bind at 1. rewrite Hrun. done.
      * intros l o Hl. apply Hext. rewrite app_assoc. by apply lookup_app_l_Some.
      * constructor; [|done]. split.
        -- intros Hc. by apply is_predicate_not_connective in Hx.
        -- intros _. exists (length (h0 ++ ext)). split; [done|]. split.
           ++ rewrite length_app. lia.
           ++ apply Hext. rewrite app_assoc. by apply list_lookup_middle.
    + destruct (IH ext Hargs) as (operands & ext' & Hrun & Hext & Hops).
      exists (x :: operands), ext'.
      split; [|split; [done|]].
      * cbn [map_m]. unfold mbind at 1, M_bind at 1.
        unfold wrap_operand at 1. unfold mbind at 1, M_bind at 1.
        rewrite (is_OperationDict_connective (h0 ++ ext) x)
          by by apply is_connective_app.
        unfold mret at 1, M_ret at 1.
        unfold mbind at 1, M_bind at 1. rewrite Hrun. done.
      * constructor; [|done]. split; [done|].
        intros Hp. by apply is_predicate_not_connective in Hp.
Qed.

Lemma combinator_spec (operator : string) (h : heap) (args : list val) :
  Forall (is_operand h) args →
  combinator_result operator h args
    ((operands ← map_m wrap_operand args;
      a ← alloc (Arr operands);
      o ← alloc (Obj [("operator", VStr operator); ("operands", a)]);
      alloc (Obj [("operation", o)])) h).
Proof.
  intros Hargs.
  destruct (wrap_operands h args [] Hargs) as (operands & ext & Hrun & Hext & Hops).
  rewrite app_nil_r in Hrun, Hext.
  exists (S (S (length (h ++ ext)))), (S (length (h ++ ext))), (length (h ++ ext)),
    operands,
    ((((h ++ ext) ++ [Arr operands])
        ++ [Obj [("operator", VStr operator);
                 ("operands", VRef (length (h ++ ext)))]])
       ++ [Obj [("operation", VRef (S (length (h ++ ext))))]]).
  split; [|split; [|split; [|split; [|split]]]].
  - unfold mbind at 1, M_bind at 1. rewrite Hrun.
    unfold mbind, M_bind, alloc. by rewrite !length_snoc.
  - heap_lookup.
  - heap_lookup.
  - heap_lookup.
  - intros l Hl. rewrite <- !app_assoc. by rewrite lookup_app_l.
  - eapply Forall2_impl; [exact Hops|].
    intros x y [Hc Hp]. split; [done|].
    intros Hx. destruct (Hp Hx) as (w & -> & Hw & Hlook).
    exists w. repeat split; try done.
    by do 3 apply lookup_app_l_Some.
Qed.

(** C2. Called on arguments that are bare predicates or connective nodes,
    [And] and [Or] return a new node [{operation: {operator, operands}}]
    with one operand per argument, in order: a connective argument is the
    operand itself (the same object, untouched), a bare predicate is wrapped
    in a new leaf [{expression: predicate}].  Nothing is flattened: no
    object that existed before the call is changed, so a nested [Or(q, r)]
    stays the intact second operand of [And(p, Or(q, r))]. *)
Theorem combinators_wrap_or_pass_through (h : heap) (args : list val) :
  Forall (is_operand h) args →
  combinator_result "and" h args (And args h) ∧
  combinator_result "or" h args (Or args h).
Proof. intros Hargs. split; by apply combinator_spec. Qed.

Lemma combinators_wrap_or_pass_through_witness :
  combinator_result "and" nesting_example [VRef 1; VRef 10]
    (And [VRef 1; VRef 10] nesting_example) ∧
  combinator_result "or" nesting_example [VRef 1; VRef 10]
    (Or [VRef 1; VRef 10] nesting_example).
Proof.
  apply (combinators_wrap_or_pass_through nesting_example [VRef 1; VRef 10]).
  apply Forall_cons_2; [|apply Forall_cons_2; [|apply Forall_nil_2]].
  - left. by eexists 1, _, "close", "greater".
  - right. eexists 10, _, 9, _. repeat split; try reflexivity. by eexists.
Defined.

(** [And(p, Or(q, r))] by evaluation: two operands, the leaf made of [p]
    and the node of [Or(q, r)] itself, whose own two operands are still the
    leaves of [q] and [r]. *)
Lemma And_nests_Or :
  eval (node ← And [VRef 1; VRef 10];
        operands ← operands_of node;
        leaf ← get_prop (default VUndefined (operands !! 0)) "expression";
        inner ← operands_of (default VUndefined (operands !! 1));
        mret (operands, leaf, inner)) nesting_example
  = Some ([VRef 11; VRef 10], VRef 1, [VRef 6; VRef 7]).
Proof. reflexivity. Qed.

(** C4 as stated fails for the empty argument list: [And()] and [Or()]
    return a node whose operand sequence is empty. *)
Lemma combinators_without_arguments_have_no_operand :
  eval (node ← And []; operands_of node) [] = Some [] ∧
  eval (node ← Or []; operands_of node) [] = Some [].
Proof. split; reflexivity. Qed.

Lemma wp_operands_of operator h args r :
  combinator_result operator h args r →
  ∃ node h' operands,
    r = Some (node, h') ∧ eval (operands_of node) h' = Some operands ∧
    length operands = length args.
Proof.
  intros (node & o & a & operands & h' & -> & Hn & Ho & Ha & _ & Hops).
  exists (VRef node), h', operands. split; [done|]. split.
  - apply wp_eval. unfold operands_of. by repeat wp_step.
  - symmetry. by eapply Forall2_length.
Qed.

(** C4, as amended.  A connective node made by [And] or [Or] has exactly
    as many operands as the call had arguments: at least one operand when
    there is at least one argument, none for the empty argument list. *)
Theorem combinators_keep_operand_count (h : heap) (args : list val) :
  Forall (is_operand h) args →
  (∃ operands,
     eval (node ← And args; operands_of node) h = Some operands ∧
     length operands = length args) ∧
  (∃ operands,
     eval (node ← Or args; operands_of node) h = Some operands ∧
     length operands = length args).
Proof.
  intros Hargs. split.
  - destruct (wp_operands_of "and" h args (And args h))
      as (node & h' & operands & Hrun & Hops & Hlen); [by apply combinator_spec|].
    exists operands. split; [|done].
    unfold eval, mbind, M_bind in *. by rewrite Hrun.
  - destruct (wp_operands_of "or" h args (Or args h))
      as (node & h' & operands & Hrun & Hops & Hlen); [by apply combinator_spec|].
    exists operands. split; [|done].
    unfold eval, mbind, M_bind in *. by rewrite Hrun.
Qed.

Lemma combinators_keep_operand_count_witness :
  (∃ operands,
     eval (node ← And [VRef 1; VRef 10]; operands_of node) nesting_example
     = Some operands ∧
     length operands = length [VRef 1; VRef 10]) ∧
  (∃ operands,
     eval (node ← Or [VRef 1; VRef 10]; operands_of node) nesting_example
     = Some operands ∧
     length operands = length [VRef 1; VRef 10]).
Proof.
  apply (combinators_keep_operand_count nesting_example [VRef 1; VRef 10]).
  apply Forall_cons_2; [|apply Forall_cons_2; [|apply Forall_nil_2]].
  - left. by eexists 1, _, "close", "greater".
  - right. eexists 10, _, 9, _. repeat split; try reflexivity. by eexists.
Defined.

(** ** Serialisation *)

Lemma ser_items_prims f es :
  (∀ v, is_prim v → f v = SDoc (json_of_prim v)) →
  Forall is_prim es → ser_items f es = SDoc (JArr (json_of_prim <$> es)).
Proof.
  intros Hf. induction 1 as [|v es Hv Hes IH]; [done|].
  cbn [ser_items] in *. by rewrite (Hf v Hv), IH.
Qed.

Lemma ser_members_prims f ps :
  (∀ v, is_prim v → f v = SDoc (json_of_prim v)) →
  Forall (λ p, is_prim p.2) ps →
  ser_members f ps = SDoc (JObj (prod_map id json_of_prim <$> ps)).
Proof.
  intros Hf. induction 1 as [|[k v] ps Hv Hps IH]; [done|].
  cbn [ser_members] in *. by rewrite (Hf v Hv), IH.
Qed.

Lemma serialize_is_prim n h stack v :
  is_prim v → serialize n h stack v = SDoc (json_of_prim v).
Proof. by destruct n, v. Qed.

Lemma serialize_ref n (h : heap) stack l :
  serialize (S n) h stack (VRef l) =
  if decide (l ∈ stack) then SCircular
  else match h !! l with
       | None => SDangling
       | Some (Arr es) => ser_items (serialize n h (l :: stack)) es
       | Some (Obj ps) => ser_members (serialize n h (l :: stack)) ps
       end.
Proof. done. Qed.

Lemma serialize_prim_array n (h : heap) stack l es :
  h !! l = Some (Arr es) → l ∉ stack → Forall is_prim es →
  serialize (S n) h stack (VRef l) = SDoc (JArr (json_of_prim <$> es)).
Proof.
  intros Hl Hs Hes. rewrite serialize_ref, decide_False, Hl by done.
  apply ser_items_prims; [|done]. intros v. apply serialize_is_prim.
Qed.

Lemma serialize_prim_object n (h : heap) stack l ps :
  h !! l = Some (Obj ps) → l ∉ stack → Forall (λ p, is_prim p.2) ps →
  serialize (S n) h stack (VRef l)
  = SDoc (JObj (prod_map id json_of_prim <$> ps)).
Proof.
  intros Hl Hs Hes. rewrite serialize_ref, decide_False, Hl by done.
  apply ser_members_prims; [|done]. intros v. apply serialize_is_prim.
Qed.

Lemma toJSON_plain st h :
  rep st h → plain_state st →
  Query.toJSON (VRef (st_this st)) h = Some (plain_document st, h).
Proof.
  destruct st as [q d [m ms] sy tk gr tf o [c cs] [f fs] f2 [s ss] [r rs]].
  intros Hrep (Ht & Hg & Hf & Hf2 & Hms & Hcs & Hss & Hrs). simpl in *. subst.
  rep_open Hrep. note_bounds.
  apply wp_run. unfold Query.toJSON. apply wp_bind. wp_step.
  eapply wp_eq; [|done].
  unfold JSON_stringify.
  destruct (length h) as [|n] eqn:Hlen; [exfalso; clear_neqs; lia|].
  rewrite serialize_ref, decide_False by apply not_elem_of_nil.
  match goal with H : h !! d = Some _ |- _ => rewrite H end.
  assert (∀ x, x ≠ d → x ∉ [d]) as Hnot
    by (intros x Hx; apply not_elem_of_cons; split; [done|apply not_elem_of_nil]).
  cbn [ser_members app].
  rewrite (serialize_prim_array n h [d] m ms) by (try apply Hnot; done).
  rewrite (serialize_prim_object n h [d] sy []) by (try apply Hnot; done).
  rewrite (serialize_prim_object n h [d] o [("lang", VStr "en")])
    by (try apply Hnot; try done; by repeat constructor).
  rewrite (serialize_prim_array n h [d] c cs) by (try apply Hnot; done).
  rewrite (serialize_prim_array n h [d] f []) by (try apply Hnot; done).
  rewrite (serialize_prim_object n h [d] s ss) by (try apply Hnot; done).
  rewrite (serialize_prim_array n h [d] r rs) by (try apply Hnot; done).
  reflexivity.
Qed.

Lemma Forall_is_prim_strings (ss : list string) : Forall is_prim (VStr <$> ss).
Proof. induction ss; by constructor. Qed.

Lemma call_state_plain n c st :
  leaves_filters_and_symbols c → plain_state st → plain_state (call_state n c st).
Proof.
  destruct st as [q d [m ms] sy tk gr tf o [cl cs] [f fs] f2 [s ss] [r rs]].
  intros Hc (Ht & Hg & Hf & Hf2 & Hms & Hcs & Hss & Hrs). simpl in *.
  destruct c as [[]|[]| | | | |col asc nf|x|x]; try done; simpl;
    unfold plain_state; simpl.
  - repeat split; try done. apply (Forall_is_prim_strings (_ :: _)).
  - repeat split; try done. apply (Forall_is_prim_strings (_ :: _)).
  - repeat split; try done. by repeat constructor.
  - destruct rs as [|[] [|[] []]]; simpl; repeat split; try done.
    by repeat constructor.
  - destruct rs as [|[] [|[] []]]; simpl; repeat split; try done.
    by repeat constructor.
Qed.

Lemma reaches_plain cs : ∀ st st',
  Forall leaves_filters_and_symbols cs → reaches st cs st' →
  plain_state st → plain_state st'.
Proof.
  induction cs as [|c cs IH]; simpl; intros st st' Hcs Hreach Hst.
  - by subst.
  - apply Forall_cons in Hcs as [Hc Hcs]. destruct Hreach as (n & Hreach).
    eapply IH; [done..|]. by apply call_state_plain.
Qed.

Lemma fresh_state_plain n : plain_state (fresh_state n).
Proof. unfold plain_state. simpl. repeat split; by repeat constructor. Qed.

(** C3 as stated fails: a builder whose filters and symbol selection were
    never touched serialises with both fields present, [symbols] as the
    empty object and [filter] as the empty list the constructor put
    there. *)
Lemma fresh_document_has_filter_and_symbols :
  eval (q ← Query.constructor; Query.toJSON q) []
  = Some (JObj [("markets", JArr [JStr "america"]);
                ("symbols", JObj []);
                ("options", JObj [("lang", JStr "en")]);
                ("columns", JArr [JStr "name"; JStr "close"; JStr "volume";
                                  JStr "market_cap_basic"]);
                ("filter", JArr []);
                ("sort", JObj [("sortBy", JStr "name");
                               ("sortOrder", JStr "asc")]);
                ("range", JArr [JNum 0; JNum 50])]).
Proof. reflexivity. Qed.

(** C3, as amended.  The serialised document of a builder whose filters and
    symbol selection were never touched (a fresh builder, possibly followed
    by [select], [setMarkets], [orderBy], [limit] and [offset] calls) has
    exactly the members markets, symbols, options, columns, filter, sort and
    range, in this order: [symbols] is present as the empty object and
    [filter] as the empty list, [filter2] is absent; with no call at all,
    markets, columns, sort and range carry the defaults. *)
Theorem untouched_document (h : heap) (cs : list call) :
  Forall leaves_filters_and_symbols cs →
  (∃ markets columns sort range,
     eval (q ← Query.constructor; q ← run_calls q cs; Query.toJSON q) h
     = Some (JObj [("markets", JArr markets);
                   ("symbols", JObj []);
                   ("options", JObj [("lang", JStr "en")]);
                   ("columns", JArr columns);
                   ("filter", JArr []);
                   ("sort", JObj sort);
                   ("range", JArr range)])) ∧
  eval (q ← Query.constructor; Query.toJSON q) h
  = Some (JObj [("markets", JArr [JStr "america"]);
                ("symbols", JObj []);
                ("options", JObj [("lang", JStr "en")]);
                ("columns", JArr [JStr "name"; JStr "close"; JStr "volume";
                                  JStr "market_cap_basic"]);
                ("filter", JArr []);
                ("sort", JObj [("sortBy", JStr "name");
                               ("sortOrder", JStr "asc")]);
                ("range", JArr [JNum 0; JNum 50])]).
Proof.
  intros Hcs. split.
  - destruct (fresh_calls_rep h cs) as (v & h' & Hrun & st & -> & Hreach & Hrep).
    assert (plain_state st) as Hplain
      by (eapply reaches_plain; [done..|apply fresh_state_plain]).
    exists (json_of_prim <$> (st_markets st).2),
      (json_of_prim <$> (st_columns st).2),
      (prod_map id json_of_prim <$> (st_sort st).2),
      (json_of_prim <$> (st_range st).2).
    apply wp_eval, wp_assoc, wp_bind. eapply wp_eq; [exact Hrun|].
    eapply wp_eq; [by apply toJSON_plain|]. done.
  - apply wp_eval, wp_bind. eapply wp_mono; [apply constructor_rep|].
    intros v h' (-> & Hrep & _).
    eapply wp_eq; [apply (toJSON_plain _ _ Hrep), fresh_state_plain|]. done.
Qed.

Lemma untouched_document_witness :
  (∃ markets columns sort range,
     eval (q ← Query.constructor;
           q ← run_calls q [CSelect ["close"; "volume"];
                            COrderBy "volume" (Some false) None;
                            CLimit (inject_Z 10)];
           Query.toJSON q) []
     = Some (JObj [("markets", JArr markets);
                   ("symbols", JObj []);
                   ("options", JObj [("lang", JStr "en")]);
                   ("columns", JArr columns);
                   ("filter", JArr []);
                   ("sort", JObj sort);
                   ("range", JArr range)])) ∧
  eval (q ← Query.constructor; Query.toJSON q) []
  = Some (JObj [("markets", JArr [JStr "america"]);
                ("symbols", JObj []);
                ("options", JObj [("lang", JStr "en")]);
                ("columns", JArr [JStr "name"; JStr "close"; JStr "volume";
                                  JStr "market_cap_basic"]);
                ("filter", JArr []);
                ("sort", JObj [("sortBy", JStr "name");
                               ("sortOrder", JStr "asc")]);
                ("range", JArr [JNum 0; JNum 50])]).
Proof.
  apply (untouched_document []
           [CSelect ["close"; "volume"]; COrderBy "volume" (Some false) None;
            CLimit (inject_Z 10)]).
  repeat (apply Forall_cons_2; [exact I|]). apply Forall_nil_2.
Defined.

(** ** The response mapper *)

Lemma insert_last (H : heap) x y : <[length H := x]> (H ++ [y]) = H ++ [x].
Proof.
  rewrite insert_app_r_alt by lia. by rewrite Nat.sub_diag.
Qed.

Lemma is_row_app h ext row r : is_row h row r → is_row (h ++ ext) row r.
Proof.
  intros (l & ps & d & -> & Hl & Hs & Hd & Hvs).
  exists l, ps, d. repeat split; try done; by apply lookup_app_l_Some.
Qed.

Lemma assign_loop cols : ∀ i ps (H : heap) l rps d vs,
  H !! l = Some (Obj rps) → prop_of "d" rps = VRef d → H !! d = Some (Arr vs) →
  Forall (λ c, ordinary_key c = true) cols →
  for_each_from i
    (λ index col,
       d ← get_prop (VRef l) "d";
       x ← get_index d index;
       set_computed (VRef (length H)) col x)
    (VStr <$> cols) (H ++ [Obj ps])
  = Some ((), H ++ [Obj (assign_from i cols vs ps)]).
Proof.
  induction cols as [|c cols IH]; intros i ps H l rps d vs Hl Hd Hvs Hcols.
  - done.
  - apply Forall_cons in Hcols as [Hc Hcols].
    cbn [fmap list_fmap for_each_from assign_from].
    apply wp_run. apply wp_bind. note_bounds.
    apply wp_bind. eapply wp_get_prop; [heap_lookup|]. rewrite Hd.
    apply wp_bind. eapply wp_get_index; [heap_lookup|].
    unfold set_computed. rewrite Hc.
    eapply wp_set_prop; [heap_lookup|]. rewrite insert_last.
    eapply wp_eq; [by eapply IH|]. done.
Qed.

Lemma format_row_spec cols (H : heap) c row r :
  H !! c = Some (Arr (VStr <$> cols)) → is_row H row r →
  Forall (λ c, ordinary_key c = true) cols →
  Query.format_row (VRef c) row H
  = Some (VRef (length H), H ++ [Obj (code_record cols r)]).
Proof.
  intros Hc (l & ps & d & -> & Hl & Hs & Hd & Hvs) Hcols.
  apply wp_run. unfold Query.format_row. note_bounds.
  apply wp_bind. eapply wp_get_prop; [done|]. rewrite Hs.
  apply wp_bind. apply wp_alloc.
  apply wp_bind. eapply wp_get_elems; [heap_lookup|].
  apply wp_bind. eapply wp_eq; [by eapply assign_loop|].
  by apply wp_ret.
Qed.

Lemma format_rows cols c rs : ∀ rows (H : heap),
  H !! c = Some (Arr (VStr <$> cols)) → Forall2 (is_row H) rs rows →
  Forall (λ c, ordinary_key c = true) cols →
  map_m (Query.format_row (VRef c)) rs H
  = Some (VRef <$> seq (length H) (length rows),
          H ++ (Obj ∘ code_record cols <$> rows)).
Proof.
  induction rs as [|row rs IH]; intros rows H Hc Hrows Hcols.
  - apply Forall2_nil_inv_l in Hrows as ->. simpl. by rewrite app_nil_r.
  - apply Forall2_cons_inv_l in Hrows as (r & rows' & Hr & Hrows & ->).
    cbn [map_m]. unfold mbind at 1, M_bind at 1.
    rewrite (format_row_spec cols H c row r) by done.
    unfold mbind at 1, M_bind at 1.
    rewrite (IH rows' (H ++ [Obj (code_record cols r)])).
    + simpl. rewrite length_snoc. by rewrite <- app_assoc.
    + by apply lookup_app_l_Some.
    + eapply Forall2_impl; [done|]. intros. by apply is_row_app.
    + done.
Qed.

Lemma read_records recs : ∀ (H : heap) rest,
  map_m props_of (VRef <$> seq (length H) (length recs))
    (H ++ (Obj <$> recs) ++ rest)
  = Some (recs, H ++ (Obj <$> recs) ++ rest).
Proof.
  induction recs as [|r recs IH]; intros H rest; [done|].
  cbn [length seq fmap list_fmap map_m app].
  specialize (IH (H ++ [Obj r]) rest).
  rewrite length_snoc, <- app_assoc in IH. simpl in IH.
  apply wp_run. apply wp_bind. unfold props_of at 1.
  apply wp_bind. eapply wp_eq.
  { unfold read. by rewrite list_lookup_middle. }
  apply wp_ret. apply wp_bind. eapply wp_eq; [exact IH|]. by apply wp_ret.
Qed.

Lemma assoc_set_fresh {A} k (v : A) ps :
  k ∉ ps.*1 → assoc_set k v ps = ps ++ [(k, v)].
Proof.
  induction ps as [|[k' v'] ps IH]; [done|].
  cbn [fmap list_fmap fst]. rewrite not_elem_of_cons. intros [Hne Hk]. simpl.
  apply String.eqb_neq in Hne. rewrite Hne. by rewrite IH.
Qed.

Lemma assign_from_fresh cols vs : ∀ i ps,
  NoDup cols → (∀ c, c ∈ cols → c ∉ ps.*1) →
  assign_from i cols vs ps
  = ps ++ imap (λ j c, (c, default VUndefined (vs !! (i + j)))) cols.
Proof.
  induction cols as [|c cols IH]; intros i ps Hnd Hps.
  - simpl. by rewrite app_nil_r.
  - apply NoDup_cons in Hnd as [Hc Hnd]. cbn [assign_from imap].
    rewrite assoc_set_fresh by (apply Hps; apply list_elem_of_here).
    rewrite IH; [|done|].
    + rewrite <- app_assoc. simpl. rewrite Nat.add_0_r. do 2 f_equal.
      apply imap_ext. intros j x _. simpl. by rewrite Nat.add_succ_r.
    + intros x Hx. rewrite fmap_app, not_elem_of_app. split.
      * apply Hps. by apply list_elem_of_further.
      * simpl. rewrite not_elem_of_cons. split; [|apply not_elem_of_nil].
        intros ->. done.
Qed.

Lemma code_record_spec cols r :
  NoDup cols → "symbol" ∉ cols → code_record cols r = spec_record cols r.
Proof.
  intros Hnd Hs. unfold code_record, spec_record.
  rewrite assign_from_fresh; [done|done|].
  intros c Hc. simpl. rewrite not_elem_of_cons. split; [|apply not_elem_of_nil].
  intros ->. done.
Qed.

Lemma getScannerData_spec (h : heap) this rawData total rows cols :
  has_columns h this cols → is_response h rawData total rows →
  Forall (λ c, ordinary_key c = true) cols →
  eval (out ← Query.getScannerData this rawData; mapped_of out) h
  = Some (total, code_record cols <$> rows).
Proof.
  intros (q & ps & d & dps & c & -> & Hq & Hd & Hdps & Hc & Hcols)
         (l & rps & a & rs & -> & Hl & Htotal & Hdata & Ha & Hrows) Hkeys.
  assert (prop_of "queryDict" ps = VRef d) as Hd'
    by (unfold prop_of; by rewrite Hd).
  assert (prop_of "columns" dps = VRef c) as Hc'
    by (unfold prop_of; by rewrite Hc).
  apply wp_eval. apply wp_bind. unfold Query.getScannerData. note_bounds.
  apply wp_bind. eapply wp_get_prop; [done|]. rewrite Hd'.
  apply wp_bind. eapply wp_get_prop; [done|]. rewrite Hc'.
  apply wp_bind. cbn [truthy]. apply wp_ret.
  apply wp_bind. eapply wp_get_prop; [done|]. rewrite Hdata.
  apply wp_bind. eapply wp_get_elems; [done|].
  apply wp_bind. eapply wp_eq; [by eapply format_rows|].
  apply wp_bind. apply wp_alloc.
  apply wp_bind. eapply wp_get_prop; [by do 2 apply lookup_app_l_Some|].
  rewrite Htotal. apply wp_alloc.
  set (recs := code_record cols <$> rows).
  assert (Obj ∘ code_record cols <$> rows = Obj <$> recs) as ->
    by (unfold recs; by rewrite <- list_fmap_compose).
  assert (length rows = length recs) as -> by (unfold recs; by rewrite length_fmap).
  set (data := Arr (VRef <$> seq (length h) (length recs))).
  set (out := Obj [("totalCount", total);
                   ("data", VRef (length (h ++ (Obj <$> recs))))]).
  assert (((h ++ (Obj <$> recs)) ++ [data]) ++ [out]
          = h ++ (Obj <$> recs) ++ [data; out]) as Hheap
    by (by rewrite <- !app_assoc).
  unfold mapped_of.
  apply wp_bind. eapply wp_get_prop; [by apply list_lookup_middle|].
  apply wp_bind. eapply wp_get_prop; [by apply list_lookup_middle|].
  cbn [prop_of assoc from_option id String.eqb Ascii.eqb Bool.eqb].
  apply wp_bind. eapply wp_get_elems.
  { apply lookup_app_l_Some. by apply list_lookup_middle. }
  apply wp_bind. rewrite Hheap. eapply wp_eq; [apply read_records|].
  by apply wp_ret.
Qed.




(** * Sharing: computations that stay inside a region *)

Lemma bind_inv {A B} (m : M A) (f : A → M B) h r :
  (m ≫= f) h = Some r → ∃ a h1, m h = Some (a, h1) ∧ f a h1 = Some r.
Proof.
  unfold mbind, M_bind. destruct (m h) as [[a h1]|]; [|done]. eauto.
Qed.

Lemma read_inv v h o h' :
  read v h = Some (o, h') → ∃ l, v = VRef l ∧ h !! l = Some o ∧ h' = h.
Proof.
  destruct v; try done. unfold read. simpl.
  destruct (h !! l) eqn:Hl; [|done]. intros [= <- <-]. eauto.
Qed.

Lemma write_inv v o h u h' :
  write v o h = Some (u, h') →
  ∃ l, v = VRef l ∧ l < length h ∧ h' = <[l := o]> h.
Proof.
  destruct v; try done. unfold write. case_decide; [|done].
  intros [= <-]. eauto.
Qed.

Lemma assoc_assoc_set {A} k0 k (x : A) ps :
  assoc k0 (assoc_set k x ps) = if String.eqb k0 k then Some x else assoc k0 ps.
Proof.
  induction ps as [|[k' v'] ps IH]; simpl.
  - by destruct (String.eqb k0 k).
  - destruct (String.eqb k k') eqn:Hk; simpl.
    + apply String.eqb_eq in Hk as ->. by destruct (String.eqb k0 k').
    + rewrite IH. destruct (String.eqb k0 k') eqn:Hk0; [|done].
      apply String.eqb_eq in Hk0 as ->.
      by rewrite String.eqb_sym, Hk.
Qed.

Lemma frame_refl P h : frame P h h.
Proof. by split. Qed.

Lemma frame_trans P h1 h2 h3 : frame P h1 h2 → frame P h2 h3 → frame P h1 h3.
Proof.
  intros [Hl1 H1] [Hl2 H2]. split; [lia|].
  intros l Hl HP. rewrite H2, H1; try done. lia.
Qed.

Section stays_in.
Context (P : loc → Prop).

Lemma stays_ret {A} (a : A) (Φ : A → Prop) : Φ a → stays_in P (mret a) Φ.
Proof. intros HΦ h a' h' Hr [= <- <-]. auto using frame_refl. Qed.

Lemma stays_throw {A} (Φ : A → Prop) : stays_in P throw Φ.
Proof. by intros h a h' Hr. Qed.

Lemma stays_bind {A B} (m : M A) (f : A → M B) (Φ : A → Prop) (Ψ : B → Prop) :
  stays_in P m Φ → (∀ a, Φ a → stays_in P (f a) Ψ) → stays_in P (m ≫= f) Ψ.
Proof.
  intros Hm Hf h b h' Hr (a & h1 & Hma & Hfb)%bind_inv.
  destruct (Hm h a h1 Hr Hma) as (Hr1 & Hf1 & HΦ).
  destruct (Hf a HΦ h1 b h' Hr1 Hfb) as (Hr2 & Hf2 & HΨ).
  eauto using frame_trans.
Qed.

Lemma stays_mono {A} (m : M A) (Φ Ψ : A → Prop) :
  stays_in P m Φ → (∀ a, Φ a → Ψ a) → stays_in P m Ψ.
Proof.
  intros Hm HΨ h a h' Hr Hma. destruct (Hm h a h' Hr Hma) as (? & ? & ?). auto.
Qed.

(** Reads. *)
Lemma stays_read {A} (m : M A) :
  (∀ h a h', m h = Some (a, h') → h' = h) → stays_in P m (λ _, True).
Proof. intros Hm h a h' Hr ->%Hm. auto using frame_refl. Qed.

Lemma get_prop_inv v k h x h' :
  get_prop v k h = Some (x, h') →
  ∃ l ps, v = VRef l ∧ h !! l = Some (Obj ps) ∧ x = prop_of k ps ∧ h' = h.
Proof.
  unfold get_prop. intros (o & h1 & (l & -> & Hl & ->)%read_inv & Ho)%bind_inv.
  destruct o; [done|]. injection Ho as <- <-. by eexists _, _.
Qed.

Lemma get_elems_inv v h es h' :
  get_elems v h = Some (es, h') →
  ∃ l, v = VRef l ∧ h !! l = Some (Arr es) ∧ h' = h.
Proof.
  unfold get_elems. intros (o & h1 & (l & -> & Hl & ->)%read_inv & Ho)%bind_inv.
  destruct o; [|done]. injection Ho as <- <-. by eexists.
Qed.

Lemma stays_get_prop v k : stays_in P (get_prop v k) (λ _, True).
Proof.
  apply stays_read. by intros h a h' (l & ps & _ & _ & _ & ->)%get_prop_inv.
Qed.

Lemma stays_get_elems v : stays_in P (get_elems v) (λ _, True).
Proof.
  apply stays_read. by intros h a h' (l & _ & _ & ->)%get_elems_inv.
Qed.

Lemma stays_get_index v i : stays_in P (get_index v i) (λ _, True).
Proof.
  eapply stays_bind; [apply stays_get_elems|]. intros es _. by apply stays_ret.
Qed.

Lemma stays_js_add a b : stays_in P (js_add a b) (λ _, True).
Proof. destruct a, b; try apply stays_throw. by apply stays_ret. Qed.

Lemma stays_js_sub a b : stays_in P (js_sub a b) (λ _, True).
Proof. destruct a, b; try apply stays_throw. by apply stays_ret. Qed.

(** Reading along the spine stays in the region. *)
Lemma stays_get_spine v k :
  in_region P v → spine_key k = true → stays_in P (get_prop v k) (in_region P).
Proof.
  intros Hv Hk h x h' Hr (l & ps & -> & Hl & -> & ->)%get_prop_inv.
  split; [done|]. split; [apply frame_refl|].
  unfold prop_of. destruct (assoc k ps) as [x|] eqn:Hx; [|done].
  destruct Hr as [_ Hclosed]. by eapply (Hclosed l ps k x).
Qed.

(** Allocation: the new object is in the region. *)
Lemma stays_alloc o :
  (∀ ps k v, o = Obj ps → spine_key k = true → assoc k ps = Some v →
             in_region P v) →
  stays_in P (alloc o) (in_region P).
Proof.
  intros Ho h v h' [Hfresh Hclosed] [= <- <-]. split; [split|split].
  - intros l Hl. apply Hfresh. rewrite length_snoc in Hl. lia.
  - intros l ps k v HP Hl Hk Hv.
    destruct (decide (l < length h)) as [Hlt|Hge].
    + rewrite lookup_app_l in Hl by done. by eapply Hclosed.
    + apply lookup_lt_Some in Hl as Hlen. rewrite length_snoc in Hlen.
      assert (l = length h) as -> by lia.
      rewrite list_lookup_middle in Hl by done. injection Hl as ->.
      by eapply Ho.
  - split; [rewrite length_snoc; lia|].
    intros l Hl _. by rewrite lookup_app_l.
  - by apply Hfresh.
Qed.

(** Writes to an object of the region. *)
Lemma stays_set_prop v k x :
  in_region P v → (spine_key k = true → in_region P x) →
  stays_in P (set_prop v k x) (λ _, True).
Proof.
  intros Hv Hx h u h' [Hfresh Hclosed].
  unfold set_prop. intros (o & h1 & (l & -> & Hl & ->)%read_inv & Ho)%bind_inv.
  destruct o as [|ps]; [done|].
  apply write_inv in Ho as (l' & [= <-] & Hlt & ->). simpl in Hv.
  split; [split|split; [split|done]].
  - intros l0 Hl0. apply Hfresh. by rewrite length_insert in Hl0.
  - intros l0 ps0 k0 v0 HP0 Hl0 Hk0 Hv0.
    destruct (decide (l0 = l)) as [->|Hne].
    + rewrite list_lookup_insert_eq in Hl0 by done. injection Hl0 as <-.
      rewrite assoc_assoc_set in Hv0.
      destruct (String.eqb k0 k) eqn:Hkk.
      * apply String.eqb_eq in Hkk as ->. injection Hv0 as <-. by apply Hx.
      * by eapply (Hclosed l ps k0 v0).
    + rewrite list_lookup_insert_ne in Hl0 by done. by eapply Hclosed.
  - by rewrite length_insert.
  - intros l0 Hl0 HP0. rewrite list_lookup_insert_ne; [done|].
    by intros ->.
Qed.

Lemma stays_write_array v es :
  in_region P v →
  stays_in P (es0 ← get_elems v; write v (Arr (es es0))) (λ _, True).
Proof.
  intros Hv h u h' [Hfresh Hclosed].
  intros (es0 & h1 & (l & -> & Hl & ->)%get_elems_inv & Ho)%bind_inv.
  apply write_inv in Ho as (l' & [= <-] & Hlt & ->). simpl in Hv.
  split; [split|split; [split|done]].
  - intros l0 Hl0. apply Hfresh. by rewrite length_insert in Hl0.
  - intros l0 ps0 k0 v0 HP0 Hl0 Hk0 Hv0.
    destruct (decide (l0 = l)) as [->|Hne].
    + by rewrite list_lookup_insert_eq in Hl0.
    + rewrite list_lookup_insert_ne in Hl0 by done. by eapply Hclosed.
  - by rewrite length_insert.
  - intros l0 Hl0 HP0. rewrite list_lookup_insert_ne; [done|].
    by intros ->.
Qed.

Lemma stays_push v x : in_region P v → stays_in P (push v x) (λ _, True).
Proof. intros Hv. by apply (stays_write_array v (λ es, es ++ [x])). Qed.

Lemma stays_set_index v i x :
  in_region P v → stays_in P (set_index v i x) (λ _, True).
Proof.
  intros Hv h u h' Hr. unfold set_index.
  intros (es & h1 & Hes & Ho)%bind_inv.
  pose proof Hes as (l & -> & Hl & ->)%get_elems_inv.
  repeat case_decide.
  - eapply (stays_write_array (VRef l) (λ es, <[i := x]> es)); [done..|].
    unfold mbind, M_bind. by rewrite Hes.
  - eapply (stays_write_array (VRef l) (λ es, es ++ [x])); [done..|].
    unfold mbind, M_bind. by rewrite Hes.
  - done.
Qed.

Lemma stays_for_each {A} (body : A → M unit) xs :
  (∀ x, stays_in P (body x) (λ _, True)) →
  stays_in P (for_each body xs) (λ _, True).
Proof.
  intros Hbody. induction xs as [|x xs IH]; simpl.
  - by apply stays_ret.
  - eapply stays_bind; [apply Hbody|]. by intros _ _.
Qed.

End stays_in.

Lemma stays_seq P {B} (m : M unit) (f : unit → M B) (Ψ : B → Prop) :
  stays_in P m (λ _, True) → stays_in P (f ()) Ψ → stays_in P (m ≫= f) Ψ.
Proof. intros Hm Hf. eapply stays_bind; [exact Hm|]. by intros []. Qed.

(** None of the properties of a literal is a spine property, or it holds a
    value of the region. *)
Ltac solve_spine_free :=
  let Hk := fresh "Hk" in
  let Hv := fresh "Hv" in
  intros ? ? ? ? Hk Hv; first
    [ discriminate
    | simplify_eq; simpl in Hv;
      repeat match type of Hv with
             | (if String.eqb ?k ?k' then _ else _) = _ =>
                 let E := fresh "E" in
                 destruct (String.eqb k k') eqn:E;
                 [apply String.eqb_eq in E; subst; first [discriminate Hk | by simplify_eq]|]
             end;
      discriminate ].

Ltac solve_spine_val :=
  let Hk := fresh "Hk" in
  intros Hk; first [ assumption | vm_compute in Hk; discriminate Hk ].

Ltac stays_atom :=
  first
    [ apply stays_ret; done
    | apply stays_get_spine; [assumption | reflexivity]
    | apply stays_get_prop
    | apply stays_get_elems
    | apply stays_get_index
    | apply stays_js_add
    | apply stays_js_sub
    | apply stays_alloc; solve_spine_free
    | apply stays_set_prop; [assumption | solve_spine_val]
    | apply stays_push; assumption
    | apply stays_set_index; assumption ].

Ltac stays_go :=
  lazymatch goal with
  | |- stays_in _ (_ ≫= _) _ =>
      first [ eapply stays_seq; [stays_go | stays_go]
            | eapply stays_bind; [stays_go | intros ? ?; stays_go] ]
  | |- stays_in _ (if ?b then _ else _) _ => destruct b; stays_go
  | |- stays_in _ (for_each _ _) _ => apply stays_for_each; intros ?; stays_go
  | |- _ => stays_atom
  end.

Section stays_query.
Context (P : loc → Prop) (this : val) (Hthis : in_region P this).

Lemma stays_select columns :
  stays_in P (Query.select this columns) (λ v, v = this).
Proof. unfold Query.select. stays_go. Qed.

Lemma stays_setMarkets markets :
  stays_in P (Query.setMarkets this markets) (λ v, v = this).
Proof. unfold Query.setMarkets. stays_go. Qed.

Lemma stays_setTickers tickers :
  stays_in P (Query.setTickers this tickers) (λ v, v = this).
Proof. unfold Query.setTickers. stays_go. Qed.

Lemma stays_setIndex indexes :
  stays_in P (Query.setIndex this indexes) (λ v, v = this).
Proof. unfold Query.setIndex. stays_go. Qed.

Lemma stays_where expressions :
  stays_in P (Query.where_ this expressions) (λ v, v = this).
Proof. unfold Query.where_. stays_go. Qed.

Lemma stays_where2 operation :
  stays_in P (Query.where2 this operation) (λ v, v = this).
Proof. unfold Query.where2. stays_go. Qed.

Lemma stays_orderBy column ascending nullsFirst :
  stays_in P (Query.orderBy this column ascending nullsFirst) (λ v, v = this).
Proof. unfold Query.orderBy. stays_go. Qed.

Lemma stays_limit limit :
  stays_in P (Query.limit this limit) (λ v, v = this).
Proof. unfold Query.limit. stays_go. Qed.

Lemma stays_offset offset :
  stays_in P (Query.offset this offset) (λ v, v = this).
Proof. unfold Query.offset. stays_go. Qed.

Lemma stays_run_call c : stays_in P (run_call this c) (λ v, v = this).
Proof.
  destruct c; simpl;
    auto using stays_select, stays_setMarkets, stays_setTickers, stays_setIndex,
      stays_where, stays_where2, stays_orderBy, stays_limit, stays_offset.
Qed.

Lemma stays_run_calls cs : stays_in P (run_calls this cs) (λ v, v = this).
Proof.
  induction cs as [|c cs IH]; simpl.
  - by apply stays_ret.
  - eapply stays_bind; [apply stays_run_call|]. by intros v ->.
Qed.

End stays_query.

(** ** What [copy] allocates *)

Lemma json_induction (P : json → Prop) :
  P JNull → (∀ b, P (JBool b)) → (∀ q, P (JNum q)) → (∀ s, P (JStr s)) →
  (∀ js, Forall P js → P (JArr js)) →
  (∀ ms, Forall (λ m, P m.2) ms → P (JObj ms)) →
  ∀ j, P j.
Proof.
  intros Hnull Hbool Hnum Hstr Harr Hobj.
  fix IH 1. intros [|b|q|s|js|ms].
  - exact Hnull.
  - apply Hbool.
  - apply Hnum.
  - apply Hstr.
  - apply Harr. induction js as [|j js IHjs]; constructor; [apply IH|exact IHjs].
  - apply Hobj. induction ms as [|[k j] ms IHms]; constructor; [apply IH|exact IHms].
Qed.

Lemma in_region_mono (P Q : loc → Prop) v :
  (∀ l, P l → Q l) → in_region P v → in_region Q v.
Proof. intros H. destruct v; simpl; auto. Qed.

Lemma parse_allocates j : ∀ h v h',
  JSON_parse j h = Some (v, h') →
  ∃ ext, h' = h ++ ext ∧
         in_region (span (length h) (length h')) v ∧
         Forall (λ o, Forall (in_region (span (length h) (length h')))
                             (refs_of o)) ext.
Proof.
  induction j as [| | | |js IH|ms IH] using json_induction; intros h v h' Hp;
    try (injection Hp as <- <-; exists []; by rewrite app_nil_r).
  - cbn [JSON_parse] in Hp.
    apply bind_inv in Hp as (vs & h1 & Hgo & [= <- <-]).
    assert (∃ ext, h1 = h ++ ext ∧
              Forall (in_region (span (length h) (length h1))) vs ∧
              Forall (λ o, Forall (in_region (span (length h) (length h1)))
                                  (refs_of o)) ext) as (ext & -> & Hvs & Hext).
    { revert h vs h1 Hgo.
      induction IH as [|j js Hj _ IHjs]; intros h vs h1 Hgo.
      - injection Hgo as <- <-. exists []. by rewrite app_nil_r.
      - apply bind_inv in Hgo as (v & h2 & Hv & Hgo).
        apply bind_inv in Hgo as (vs' & h3 & Hvs' & [= <- <-]).
        apply Hj in Hv as (ext1 & -> & Hv & Hext1).
        apply IHjs in Hvs' as (ext2 & -> & Hvs' & Hext2).
        exists (ext1 ++ ext2). rewrite app_assoc. split; [done|].
        rewrite !length_app in *.
        split; [apply Forall_cons; split|apply Forall_app; split].
        + eapply in_region_mono; [|exact Hv]. unfold span. lia.
        + eapply Forall_impl; [exact Hvs'|]. intros w.
          apply in_region_mono. unfold span. lia.
        + eapply Forall_impl; [exact Hext1|]. intros o Ho.
          eapply Forall_impl; [exact Ho|]. intros w.
          apply in_region_mono. unfold span. lia.
        + eapply Forall_impl; [exact Hext2|]. intros o Ho.
          eapply Forall_impl; [exact Ho|]. intros w.
          apply in_region_mono. unfold span. lia. }
    exists (ext ++ [Arr vs]). rewrite app_assoc. split; [done|].
    rewrite !length_app in *. simpl.
    split; [unfold span; lia|]. apply Forall_app. split.
    + eapply Forall_impl; [exact Hext|]. intros o Ho.
      eapply Forall_impl; [exact Ho|]. intros w.
      apply in_region_mono. unfold span. lia.
    + apply Forall_singleton. simpl.
      eapply Forall_impl; [exact Hvs|]. intros w.
      apply in_region_mono. unfold span. lia.
  - cbn [JSON_parse] in Hp.
    apply bind_inv in Hp as (ps & h1 & Hgo & [= <- <-]).
    assert (∃ ext, h1 = h ++ ext ∧
              Forall (in_region (span (length h) (length h1))) ps.*2 ∧
              Forall (λ o, Forall (in_region (span (length h) (length h1)))
                                  (refs_of o)) ext) as (ext & -> & Hvs & Hext).
    { revert h ps h1 Hgo.
      induction IH as [|[k j] ms Hj _ IHms]; intros h ps h1 Hgo.
      - injection Hgo as <- <-. exists []. by rewrite app_nil_r.
      - apply bind_inv in Hgo as (v & h2 & Hv & Hgo).
        apply bind_inv in Hgo as (ps' & h3 & Hps' & [= <- <-]).
        apply Hj in Hv as (ext1 & -> & Hv & Hext1).
        apply IHms in Hps' as (ext2 & -> & Hps' & Hext2).
        exists (ext1 ++ ext2). rewrite app_assoc. split; [done|].
        rewrite !length_app in *. cbn [fmap list_fmap snd].
        split; [apply Forall_cons; split|apply Forall_app; split].
        + eapply in_region_mono; [|exact Hv]. unfold span. lia.
        + eapply Forall_impl; [exact Hps'|]. intros w.
          apply in_region_mono. unfold span. lia.
        + eapply Forall_impl; [exact Hext1|]. intros o Ho.
          eapply Forall_impl; [exact Ho|]. intros w.
          apply in_region_mono. unfold span. lia.
        + eapply Forall_impl; [exact Hext2|]. intros o Ho.
          eapply Forall_impl; [exact Ho|]. intros w.
          apply in_region_mono. unfold span. lia. }
    exists (ext ++ [Obj ps]). rewrite app_assoc. split; [done|].
    rewrite !length_app in *. simpl.
    split; [unfold span; lia|]. apply Forall_app. split.
    + eapply Forall_impl; [exact Hext|]. intros o Ho.
      eapply Forall_impl; [exact Ho|]. intros w.
      apply in_region_mono. unfold span. lia.
    + apply Forall_singleton. simpl.
      eapply Forall_impl; [exact Hvs|]. intros w.
      apply in_region_mono. unfold span. lia.
Qed.

Lemma constructor_allocates h :
  ∃ ext, Query.constructor h = Some (VRef (length h + 8), h ++ ext) ∧
         length ext = 9 ∧
         ext !! 8 = Some (Obj [("queryDict", VRef (length h + 7))]) ∧
         Forall (λ o, Forall (in_region (span (length h) (length h + 9)))
                             (refs_of o)) ext.
Proof.
  eexists. split; [|split; [|split]].
  - unfold Query.constructor, alloc, mbind, M_bind. norm_len.
    rewrite <- !app_assoc. cbn [app].
    replace (S (S (S (S (S (S (S (S (length h))))))))) with (length h + 8) by lia.
    reflexivity.
  - reflexivity.
  - cbn. by replace (length h + 7) with (S (S (S (S (S (S (S (length h))))))))
      by lia.
  - repeat first [apply Forall_nil_2 | apply Forall_cons_2 | progress cbn [refs_of fmap list_fmap snd in_region]];
      try exact I; unfold span; lia.
Qed.

Lemma stringify_inv v h j h' : JSON_stringify v h = Some (j, h') → h' = h.
Proof.
  unfold JSON_stringify. destruct (serialize _ _ _ _); [|done..].
  by intros [= _ <-].
Qed.

Lemma Forall_refs_mono (P Q : loc → Prop) (os : list obj) :
  (∀ l, P l → Q l) →
  Forall (λ o, Forall (in_region P) (refs_of o)) os →
  Forall (λ o, Forall (in_region Q) (refs_of o)) os.
Proof.
  intros HPQ H. eapply Forall_impl; [exact H|]. intros o Ho.
  eapply Forall_impl; [exact Ho|]. intros w. by apply in_region_mono.
Qed.

(** [copy] leaves the objects of the store as they are and appends the new
    builder and its state; the appended objects refer to appended objects
    only. *)
Lemma copy_allocates this h C h1 :
  Query.copy this h = Some (C, h1) →
  ∃ ext, h1 = h ++ ext ∧ C = VRef (length h + 8) ∧ 9 ≤ length ext ∧
         Forall (λ o, Forall (in_region (span (length h) (length h1)))
                             (refs_of o)) ext.
Proof.
  unfold Query.copy. intros (nq & h0 & Hc & H)%bind_inv.
  destruct (constructor_allocates h) as (K & HK & Hlen & H8 & HKrefs).
  rewrite HK in Hc. injection Hc as <- <-.
  apply bind_inv in H as (d & h0 & (l & ps & _ & _ & _ & ->)%get_prop_inv & H).
  apply bind_inv in H as (text & h0 & Hs & H).
  apply stringify_inv in Hs as ->.
  apply bind_inv in H as (clone & h0 & Hp & H).
  apply parse_allocates in Hp as (ext & -> & Hclone & Hext).
  apply bind_inv in H as ([] & h0 & Hset & [= <- <-]).
  unfold set_prop in Hset.
  apply bind_inv in Hset as (o & h2 & (l' & [= <-] & Hl' & ->)%read_inv & Hw).
  rewrite <- app_assoc, lookup_app_r in Hl' by lia.
  replace (length h + 8 - length h) with 8 in Hl' by lia.
  rewrite lookup_app_l, H8 in Hl' by lia. injection Hl' as <-.
  apply write_inv in Hw as (l' & [= <-] & _ & ->).
  rewrite !length_app, Hlen in Hclone, Hext.
  exists (<[8 := Obj (assoc_set "queryDict" clone
                        [("queryDict", VRef (length h + 7))])]> K ++ ext).
  split; [|split; [done|split]].
  - rewrite <- app_assoc, insert_app_r_alt by lia.
    replace (length h + 8 - length h) with 8 by lia.
    by rewrite insert_app_l by lia.
  - rewrite length_app, length_insert. lia.
  - rewrite length_insert, !length_app, Hlen.
    apply Forall_app. split.
    + apply Forall_insert.
      * eapply Forall_refs_mono; [|exact HKrefs]. unfold span. lia.
      * simpl. apply Forall_singleton.
        eapply in_region_mono; [|exact Hclone]. unfold span. lia.
    + eapply Forall_refs_mono; [|exact Hext]. unfold span. lia.
Qed.

(** ** Reachable objects *)

Lemma reach_region (P : loc → Prop) h v l :
  (∀ l o w, P l → h !! l = Some o → w ∈ refs_of o → in_region P w) →
  in_region P v → reach h v l → P l.
Proof.
  intros Hcl Hv Hr. induction Hr as [l|l o w l' Hl Hw _ IH]; [done|].
  apply IH. by eapply Hcl.
Qed.

Lemma closed_refs h l o w :
  closed h → h !! l = Some o → w ∈ refs_of o →
  in_region (λ l, l < length h) w.
Proof.
  intros Hh Hl Hw. unfold closed in Hh.
  rewrite Forall_forall in Hh. specialize (Hh o (list_elem_of_lookup_2 _ _ _ Hl)).
  rewrite Forall_forall in Hh. specialize (Hh w Hw). by destruct w.
Qed.

Lemma assoc_refs k ps (v : val) : assoc k ps = Some v → v ∈ ps.*2.
Proof.
  induction ps as [|[k' v'] ps IH]; [done|]. simpl.
  destruct (String.eqb k k').
  - intros [= ->]. apply list_elem_of_here.
  - intros H. apply list_elem_of_further. by apply IH.
Qed.

Lemma ser_items_ext (f g : val → ser) es :
  (∀ w, w ∈ es → f w = g w) → ser_items f es = ser_items g es.
Proof.
  induction es as [|e es IH]; [done|]. intros H. simpl.
  rewrite (H e), IH; [done| |apply list_elem_of_here].
  intros w Hw. apply H. by apply list_elem_of_further.
Qed.

Lemma ser_members_ext (f g : val → ser) ps :
  (∀ w, w ∈ ps.*2 → f w = g w) → ser_members f ps = ser_members g ps.
Proof.
  induction ps as [|[k e] ps IH]; [done|]. intros H. simpl.
  rewrite (H e), IH; [done| |apply list_elem_of_here].
  intros w Hw. apply H. by apply list_elem_of_further.
Qed.

(** The document of a value depends on the objects it reaches only. *)
Lemma serialize_frame fuel : ∀ h h' stack v,
  (∀ l, reach h v l → h' !! l = h !! l) →
  serialize fuel h' stack v = serialize fuel h stack v.
Proof.
  induction fuel as [|fuel IH]; intros h h' stack v Hv; destruct v as [| | | | |l];
    try done.
  cbn [serialize]. case_decide; [done|].
  rewrite (Hv l) by constructor.
  destruct (h !! l) as [[es|ps]|] eqn:Hl; [| |done].
  - apply ser_items_ext. intros w Hw. apply IH. intros l' Hl'.
    apply Hv. by eapply reach_step.
  - apply ser_members_ext. intros w Hw. apply IH. intros l' Hl'.
    apply Hv. by eapply reach_step.
Qed.

(** ** The fuel of [JSON_stringify] *)

Lemma ser_items_fuel (f : val → ser) es :
  (∀ w, f w ≠ SFuel) → ser_items f es ≠ SFuel.
Proof.
  intros Hf. induction es as [|e es IH]; [done|]. simpl.
  specialize (Hf e). destruct (f e); try done;
    by destruct (ser_items f es) as [[]| | | |].
Qed.

Lemma ser_members_fuel (f : val → ser) ps :
  (∀ w, f w ≠ SFuel) → ser_members f ps ≠ SFuel.
Proof.
  intros Hf. induction ps as [|[k e] ps IH]; [done|]. simpl.
  specialize (Hf e). destruct (f e); try done;
    by destruct (ser_members f ps) as [[]| | | |].
Qed.

Lemma stack_bound (n : nat) (stack : list loc) :
  NoDup stack → Forall (λ l, l < n) stack → length stack ≤ n.
Proof.
  intros Hnd Hlt. transitivity (length (seq 0 n)); [|by rewrite length_seq].
  apply submseteq_length, NoDup_submseteq; [done|].
  intros l Hl. rewrite Forall_forall in Hlt. apply elem_of_seq.
  specialize (Hlt l Hl). lia.
Qed.

Lemma serialize_fuel_stack fuel : ∀ h stack v,
  NoDup stack → Forall (λ l, l < length h) stack →
  length h < fuel + length stack →
  serialize fuel h stack v ≠ SFuel.
Proof.
  induction fuel as [|fuel IH]; intros h stack v Hnd Hlt Hlen.
  - pose proof (stack_bound _ _ Hnd Hlt). simpl in Hlen. lia.
  - destruct v as [| | | | |l]; try done. cbn [serialize].
    case_decide as Hin; [done|].
    destruct (h !! l) as [[es|ps]|] eqn:Hl; [| |done].
    + apply ser_items_fuel. intros w. apply IH.
      * by apply NoDup_cons.
      * apply Forall_cons. split; [by eapply lookup_lt_Some|done].
      * simpl. lia.
    + apply ser_members_fuel. intros w. apply IH.
      * by apply NoDup_cons.
      * apply Forall_cons. split; [by eapply lookup_lt_Some|done].
      * simpl. lia.
Qed.

(** [JSON_stringify] never stops for lack of fuel. *)
Lemma serialize_fuel h v : serialize (S (length h)) h [] v ≠ SFuel.
Proof.
  apply serialize_fuel_stack; [apply NoDup_nil_2|apply Forall_nil_2|simpl; lia].
Qed.

(** More fuel does not change a result that was not a lack of fuel. *)
Lemma ser_items_stable (f g : val → ser) es r :
  (∀ w, f w ≠ SFuel → g w = f w) →
  ser_items f es = r → r ≠ SFuel → ser_items g es = r.
Proof.
  intros Hfg. revert r. induction es as [|e es IH]; [done|]. simpl.
  intros r Hr Hne. specialize (Hfg e).
  destruct (f e) eqn:He; try (by rewrite Hfg);
    rewrite Hfg by done;
    destruct (ser_items f es) as [[]| | | |] eqn:Hes;
    try (by rewrite (IH _ eq_refl)); congruence.
Qed.

Lemma ser_members_stable (f g : val → ser) ps r :
  (∀ w, f w ≠ SFuel → g w = f w) →
  ser_members f ps = r → r ≠ SFuel → ser_members g ps = r.
Proof.
  intros Hfg. revert r. induction ps as [|[k e] ps IH]; [done|]. simpl.
  intros r Hr Hne. specialize (Hfg e).
  destruct (f e) eqn:He; try (by rewrite Hfg);
    rewrite Hfg by done; [|by apply IH].
  destruct (ser_members f ps) as [[]| | | |] eqn:Hes;
    try (by rewrite (IH _ eq_refl)); congruence.
Qed.

Lemma serialize_more_fuel fuel : ∀ h stack v,
  serialize fuel h stack v ≠ SFuel →
  serialize (S fuel) h stack v = serialize fuel h stack v.
Proof.
  induction fuel as [|fuel IH]; intros h stack v Hne;
    destruct v as [| | | | |l]; try done.
  revert Hne. cbn [serialize]. case_decide; [done|].
  destruct (h !! l) as [[es|ps]|]; [| |done]; intros Hne.
  - eapply ser_items_stable; [|reflexivity|done]. intros w. apply IH.
  - eapply ser_members_stable; [|reflexivity|done]. intros w. apply IH.
Qed.

Lemma serialize_fuel_le fuel k h stack v :
  serialize fuel h stack v ≠ SFuel →
  serialize (k + fuel) h stack v = serialize fuel h stack v.
Proof.
  intros Hne. induction k as [|k IH]; [done|]. simpl plus.
  rewrite <- IH. apply serialize_more_fuel. by rewrite IH.
Qed.

(** ** [copy] returns *)

Lemma parse_total j : ∀ h, is_Some (JSON_parse j h).
Proof.
  induction j as [| | | |js IH|ms IH] using json_induction; intros h;
    try by eexists.
  - cbn [JSON_parse]. unfold mbind, M_bind.
    match goal with |- context [?go js h] =>
      assert (is_Some (go js h)) as [[vs h1] ->] end; [|by eexists].
    revert h. induction IH as [|j js Hj _ IHjs]; intros h; [by eexists|].
    unfold mbind, M_bind in *.
    destruct (Hj h) as [[v h1] ->]. destruct (IHjs h1) as [[vs h2] ->].
    by eexists.
  - cbn [JSON_parse]. unfold mbind, M_bind.
    match goal with |- context [?go ms h] =>
      assert (is_Some (go ms h)) as [[ps h1] ->] end; [|by eexists].
    revert h. induction IH as [|[k j] ms Hj _ IHms]; intros h; [by eexists|].
    unfold mbind, M_bind in *. simpl in Hj.
    destruct (Hj h) as [[v h1] ->]. destruct (IHms h1) as [[ps h2] ->].
    by eexists.
Qed.

(** In a store without dangling references, [copy] returns whenever the
    state of the builder can be serialised, that is whenever [toJSON]
    returns. *)
Lemma copy_returns h q j :
  closed h → Query.toJSON (VRef q) h = Some (j, h) →
  is_Some (Query.copy (VRef q) h).
Proof.
  intros Hh. unfold Query.toJSON.
  intros (d & h0 & (l & ps & [= <-] & Hq & -> & ->)%get_prop_inv & Hs)%bind_inv.
  unfold JSON_stringify in Hs.
  destruct (serialize (S (length h)) h [] (prop_of "queryDict" ps))
    as [j'| | | |] eqn:Hser; [|done..]. injection Hs as ->.
  destruct (constructor_allocates h) as (K & HK & Hlen & H8 & _).
  assert (JSON_stringify (prop_of "queryDict" ps) (h ++ K)
          = Some (j, h ++ K)) as Hs.
  { unfold JSON_stringify. rewrite length_app, Hlen.
    replace (S (length h + 9)) with (9 + S (length h)) by lia.
    rewrite serialize_fuel_le;
      rewrite (serialize_frame _ h (h ++ K)), Hser; try done.
    all: intros l Hl; apply lookup_app_l;
      apply (reach_region (λ l, l < length h)) in Hl; try done.
    all: try (intros l' o w _; apply closed_refs; done).
    all: unfold prop_of; destruct (assoc "queryDict" ps) as [w|] eqn:Hw;
      [|done]; simpl; eapply closed_refs; [done..|]; by eapply assoc_refs. }
  destruct (parse_total j (h ++ K)) as [[clone h1] Hp].
  destruct (parse_allocates _ _ _ _ Hp) as (ext & -> & _).
  unfold Query.copy, mbind, M_bind. rewrite HK.
  unfold get_prop, set_prop, read, mbind, M_bind, option_bind. cbn [mret M_ret].
  rewrite lookup_app_l, Hq by by eapply lookup_lt_Some.
  unfold mret, M_ret. rewrite Hs, Hp.
  rewrite <- app_assoc, lookup_app_r by lia.
  replace (length h + 8 - length h) with 8 by lia.
  rewrite lookup_app_l, H8 by lia. unfold write.
  rewrite decide_True; [by eexists|]. rewrite !length_app. lia.
Qed.

(** The scenario of the documentation by evaluation: after
    [c = q.copy(); c.select('close')] the columns of [q] are the four of
    the constructor and those of [c] are the new one. *)
Lemma copy_then_select :
  eval (q ← Query.constructor;
        c ← Query.copy q;
        Query.select c [VStr "close"];;
        before ← columns_of q; after ← columns_of c;
        mret (before, after)) []
  = Some (Some (VStr <$> ["name"; "close"; "volume"; "market_cap_basic"]),
          Some [VStr "close"]).
Proof. reflexivity. Qed.

(** ** A copy shares nothing with its source *)

Lemma region_above h ext :
  Forall (λ o, Forall (in_region (span (length h) (length (h ++ ext))))
                      (refs_of o)) ext →
  region (λ l, length h ≤ l) (h ++ ext).
Proof.
  intros Hext. split.
  - intros l. rewrite length_app. lia.
  - intros l ps k v Hl Hps _ Hv. rewrite lookup_app_r in Hps by done.
    rewrite Forall_forall in Hext.
    specialize (Hext _ (list_elem_of_lookup_2 _ _ _ Hps)).
    rewrite Forall_forall in Hext. specialize (Hext v (assoc_refs _ _ _ Hv)).
    eapply in_region_mono; [|exact Hext]. unfold span. simpl. lia.
Qed.

Lemma region_below h ext :
  closed h → region (λ l, l < length h ∨ length (h ++ ext) ≤ l) (h ++ ext).
Proof.
  intros Hh. split; [auto|].
  intros l ps k v Hl Hps _ Hv. pose proof (lookup_lt_Some _ _ _ Hps).
  destruct Hl as [Hl|Hl]; [|lia]. rewrite lookup_app_l in Hps by done.
  eapply in_region_mono;
    [|exact (closed_refs _ _ _ _ Hh Hps (assoc_refs _ _ _ Hv))].
  simpl. auto.
Qed.

Lemma reach_below h ext q l :
  closed h → q < length h → reach (h ++ ext) (VRef q) l → l < length h.
Proof.
  intros Hh Hq. apply (reach_region (λ l, l < length h)); [|done].
  intros l' o w Hl' Ho Hw. rewrite lookup_app_l in Ho by done.
  by eapply closed_refs.
Qed.

Lemma reach_above h ext c l :
  Forall (λ o, Forall (in_region (span (length h) (length (h ++ ext))))
                      (refs_of o)) ext →
  span (length h) (length (h ++ ext)) c →
  reach (h ++ ext) (VRef c) l → span (length h) (length (h ++ ext)) l.
Proof.
  intros Hext Hc. apply (reach_region (span _ _)); [|done].
  intros l' o w [Hl' _] Ho Hw. rewrite lookup_app_r in Ho by done.
  rewrite Forall_forall in Hext.
  specialize (Hext _ (list_elem_of_lookup_2 _ _ _ Ho)).
  rewrite Forall_forall in Hext. by apply Hext.
Qed.

(** C5. If [C = Q.copy()] in a store without dangling references, then
    (1) the copy changed no object of the store, (2) no object is reachable
    from both [Q] and [C], (3) whatever chain of mutators is then called on
    [C], every object of the store before the copy is still what it was, so
    that [Q]'s state -- markets, symbols, options, columns, filter, filter2,
    sort and range, which are read through objects reachable from [Q] --
    serialises to the same document as before the copy, and (4) whatever
    chain of mutators is called on [Q], every object reachable from [C] is
    still what it was after the copy, and so is the document of [C]. *)
Theorem copy_isolates (h h1 : heap) (q : loc) (C : val) :
  closed h → q < length h →
  Query.copy (VRef q) h = Some (C, h1) →
  (∀ l, l < length h → h1 !! l = h !! l) ∧
  (∀ l, reach h1 (VRef q) l → ¬ reach h1 C l) ∧
  (∀ cs v h2, run_calls C cs h1 = Some (v, h2) →
     v = C ∧
     (∀ l, l < length h → h2 !! l = h !! l) ∧
     (∀ fuel, serialize fuel h2 [] (VRef q) = serialize fuel h [] (VRef q))) ∧
  (∀ cs v h2, run_calls (VRef q) cs h1 = Some (v, h2) →
     v = VRef q ∧
     (∀ l, reach h1 C l → h2 !! l = h1 !! l) ∧
     (∀ fuel, serialize fuel h2 [] C = serialize fuel h1 [] C)).
Proof.
  intros Hh Hq (ext & -> & -> & Hlen & Hext)%copy_allocates.
  assert (span (length h) (length (h ++ ext)) (length h + 8)) as HC.
  { unfold span. rewrite length_app. lia. }
  split; [|split; [|split]].
  - intros l Hl. by apply lookup_app_l.
  - intros l Hl HCl. apply (reach_below _ _ _ _ Hh Hq) in Hl.
    apply (reach_above _ _ _ _ Hext HC) in HCl as [? _]. lia.
  - intros cs v h2 Hrun.
    destruct (stays_run_calls (λ l, length h ≤ l) (VRef (length h + 8))
                ltac:(simpl; lia) cs _ _ _ (region_above _ _ Hext) Hrun)
      as (_ & [_ Hframe] & ->).
    assert (∀ l, l < length h → h2 !! l = h !! l) as Hsame.
    { intros l Hl. rewrite Hframe; [by apply lookup_app_l| |lia].
      rewrite length_app. lia. }
    split; [done|split; [done|]].
    intros fuel. apply serialize_frame. intros l Hl. apply Hsame.
    apply (reach_below h [] q); [done..|]. by rewrite app_nil_r.
  - intros cs v h2 Hrun.
    destruct (stays_run_calls (λ l, l < length h ∨ length (h ++ ext) ≤ l)
                (VRef q) ltac:(simpl; auto) cs _ _ _
                (region_below _ ext Hh) Hrun)
      as (_ & [_ Hframe] & ->).
    assert (∀ l, reach (h ++ ext) (VRef (length h + 8)) l →
                 h2 !! l = (h ++ ext) !! l) as Hsame.
    { intros l Hl. apply (reach_above _ _ _ _ Hext HC) in Hl as [Hl1 Hl2].
      apply Hframe; [done|]. lia. }
    split; [done|split; [done|]].
    intros fuel. by apply serialize_frame.
Qed.

Lemma copy_isolates_witness :
  (∀ l, l < length copy_example → copied_example !! l = copy_example !! l) ∧
  (∀ l, reach copied_example (VRef 8) l → ¬ reach copied_example (VRef 19) l) ∧
  (∀ cs v h2, run_calls (VRef 19) cs copied_example = Some (v, h2) →
     v = VRef 19 ∧
     (∀ l, l < length copy_example → h2 !! l = copy_example !! l) ∧
     (∀ fuel, serialize fuel h2 [] (VRef 8)
              = serialize fuel copy_example [] (VRef 8))) ∧
  (∀ cs v h2, run_calls (VRef 8) cs copied_example = Some (v, h2) →
     v = VRef 8 ∧
     (∀ l, reach copied_example (VRef 19) l → h2 !! l = copied_example !! l) ∧
     (∀ fuel, serialize fuel h2 [] (VRef 19)
              = serialize fuel copied_example [] (VRef 19))).
Proof.
  apply (copy_isolates copy_example copied_example 8 (VRef 19)).
  - repeat first [apply Forall_nil_2 | apply Forall_cons_2
                 | progress cbn [refs_of fmap list_fmap snd]];
      try exact I; vm_compute; lia.
  - vm_compute. lia.
  - reflexivity.
Defined.

(** * Further properties of the builder *)

(** ** Observing the state a chain leaves *)

Lemma run_calls_app this cs1 cs2 h :
  run_calls this (cs1 ++ cs2) h
  = (q ← run_calls this cs1; run_calls q cs2) h.
Proof.
  revert this h. induction cs1 as [|c cs1 IH]; intros this h; [done|].
  simpl. unfold mbind, M_bind. destruct (run_call this c h) as [[q h1]|]; [|done].
  apply IH.
Qed.

(** A getter that reads [f st] off a builder in state [st] reads, after
    the constructor and a chain [cs], [f] of a state the chain leaves. *)
Lemma chain_observe {A} (g : val → M A) (f : qstate → A) h cs :
  (∀ st h Φ, rep st h → Φ (f st) h → wp (g (VRef (st_this st))) h Φ) →
  ∃ st', reaches (fresh_state (length h)) cs st' ∧
         eval (q ← Query.constructor; q ← run_calls q cs; g q) h
         = Some (f st').
Proof.
  intros Hg.
  destruct (fresh_calls_rep h cs) as (v & h' & Hrun & st' & -> & Hreach & Hrep).
  exists st'. split; [done|]. apply wp_eval.
  assert (wp (q ← Query.constructor; run_calls q cs) h
            (λ v h', v = VRef (st_this st') ∧ rep st' h')) as Hwp
    by (by eexists _, _).
  apply wp_assoc, wp_bind. eapply wp_mono; [exact Hwp|].
  intros v h1 [-> Hrep1]. by apply Hg.
Qed.

Lemma wp_sort_of st h Φ :
  rep st h →
  Φ (prop_of "sortBy" (st_sort st).2, prop_of "sortOrder" (st_sort st).2,
     prop_of "nullsFirst" (st_sort st).2) h →
  wp (sort_of (VRef (st_this st))) h Φ.
Proof.
  destruct st as [q d [m ms] sy tk gr tf o [c cs] [f fs] f2 [s ss] [r rs]].
  intros Hrep HΦ. rep_open Hrep.
  unfold sort_of, Query.getQueryDict. by repeat wp_step.
Qed.

Lemma wp_filter2_of st h Φ :
  rep st h → Φ (default VUndefined (st_filter2 st)) h →
  wp (filter2_of (VRef (st_this st))) h Φ.
Proof.
  destruct st as [q d [m ms] sy tk gr tf o [c cs] [f fs] f2 [s ss] [r rs]].
  intros Hrep HΦ. destruct f2 as [v|]; rep_open Hrep;
    unfold filter2_of, Query.getQueryDict; by repeat wp_step.
Qed.

(** A field of the state that each call updates by [step] is, after a
    chain, the fold of [step] over the chain. *)
Lemma reaches_fold {A B} (proj : qstate → A) (R : A → B → Prop)
    (step : B → call → B) (ok : call → Prop) cs :
  (∀ n c st b, ok c → R (proj st) b → R (proj (call_state n c st)) (step b c)) →
  ∀ st st' b, Forall ok cs → reaches st cs st' → R (proj st) b →
              R (proj st') (foldl step b cs).
Proof.
  intros Hstep. induction cs as [|c cs IH]; simpl; intros st st' b Hok Hreach HR.
  - by subst.
  - apply Forall_cons in Hok as [Hc Hok]. destruct Hreach as (n & Hreach).
    eapply IH; [done..|]. by apply Hstep.
Qed.

Lemma Forall_True {A} (l : list A) : Forall (λ _, True) l.
Proof. by apply Forall_forall. Qed.

Ltac by_call c st :=
  destruct st as [q d m sy tk gr tf o cl f f2 s [r rs]];
  destruct c as [[]|[]|[]|[]| | | | |]; simpl;
  try unfold setIndex_state; simpl;
  try (destruct gr; simpl);
  try (destruct rs as [|[] [|[] []]]; simpl).

Lemma reaches_columns cs st st' cols :
  reaches st cs st' → (st_columns st).2 = VStr <$> cols →
  (st_columns st').2
  = VStr <$> foldl (λ acc c, match c with CSelect (x :: xs) => x :: xs | _ => acc end)
                   cols cs.
Proof.
  intros Hreach Hst.
  apply (reaches_fold (λ st, (st_columns st).2) (λ x b, x = VStr <$> b) _
           (λ _, True) cs) with st; [|apply Forall_True|done..].
  clear. intros n c st b _. by by_call c st.
Qed.

Lemma reaches_markets cs st st' ms :
  reaches st cs st' → (st_markets st).2 = VStr <$> ms →
  (st_markets st').2
  = VStr <$> foldl (λ acc c, match c with CSetMarkets (x :: xs) => x :: xs | _ => acc end)
                   ms cs.
Proof.
  intros Hreach Hst.
  apply (reaches_fold (λ st, (st_markets st).2) (λ x b, x = VStr <$> b) _
           (λ _, True) cs) with st; [|apply Forall_True|done..].
  clear. intros n c st b _. by by_call c st.
Qed.

Lemma foldl_nonempty {A B} (step : list A → B → list A) acc (l : list B) :
  (∀ acc c, acc ≠ [] → step acc c ≠ []) → acc ≠ [] → foldl step acc l ≠ [].
Proof.
  intros Hstep. revert acc. induction l as [|c l IH]; intros acc Hacc; [done|].
  simpl. by apply IH, Hstep.
Qed.

Lemma selected_nonempty cs : selected cs ≠ [].
Proof.
  apply foldl_nonempty; [|done]. by intros acc [[]| | | | | | | |].
Qed.

Lemma chosen_markets_nonempty cs : chosen_markets cs ≠ [].
Proof.
  apply foldl_nonempty; [|done]. by intros acc [|[]| | | | | | |].
Qed.

(** X1. After any chain of calls the column list is the argument list of the
    last [select] call that had an argument, the four columns of the
    constructor when there is none; the market list is that of the last
    [setMarkets] call that had an argument, ['america'] when there is
    none.  No other call touches them, and neither list is ever empty. *)
Theorem columns_and_markets_after_chain (h : heap) (cs : list call) :
  eval (q ← Query.constructor; q ← run_calls q cs;
        columns ← columns_of q; markets ← markets_of q;
        mret (columns, markets)) h
  = Some (Some (VStr <$> selected cs), Some (VStr <$> chosen_markets cs)) ∧
  selected cs ≠ [] ∧ chosen_markets cs ≠ [].
Proof.
  split; [|split; [apply selected_nonempty|apply chosen_markets_nonempty]].
  destruct (chain_observe
              (λ q, columns ← columns_of q; markets ← markets_of q;
                    mret (columns, markets))
              (λ st, (Some (st_columns st).2, Some (st_markets st).2)) h cs)
    as (st' & Hreach & ->).
  { intros st h1 Φ Hrep HΦ.
    apply wp_bind, (wp_columns_of _ _ _ Hrep).
    apply wp_bind, (wp_markets_of _ _ _ Hrep). by apply wp_ret. }
  by rewrite (reaches_columns cs _ _
                ["name"; "close"; "volume"; "market_cap_basic"] Hreach eq_refl),
             (reaches_markets cs _ _ ["america"] Hreach eq_refl).
Qed.

Lemma reaches_filter cs st st' :
  reaches st cs st' →
  (st_filter st').2 = (st_filter st).2 ++ where_arguments cs.
Proof.
  revert st. induction cs as [|c cs IH]; simpl; intros st.
  - intros ->. by rewrite app_nil_r.
  - intros (n & Hreach). rewrite (IH _ Hreach).
    unfold where_arguments. cbn [mbind list_bind]. rewrite app_assoc. f_equal.
    clear. by_call c st; by rewrite ?app_nil_r.
Qed.

(** X2. The filter list after a chain of calls holds the arguments of all the
    [where] calls, in the order of the calls and of their arguments: each
    call appends, nothing is dropped, merged or reordered, and the other
    calls leave the list alone. *)
Theorem filter_accumulates (h : heap) (cs : list call) :
  eval (q ← Query.constructor; q ← run_calls q cs; filter_of q) h
  = Some (Some (where_arguments cs)).
Proof.
  destruct (chain_observe filter_of (λ st, Some (st_filter st).2) h cs)
    as (st' & Hreach & ->); [apply wp_filter_of|].
  by rewrite (reaches_filter _ _ _ Hreach).
Qed.

Lemma reaches_filter2 cs st st' :
  reaches st cs st' →
  default VUndefined (st_filter2 st')
  = foldl (λ acc c, match c with CWhere2 v => v | _ => acc end)
          (default VUndefined (st_filter2 st)) cs.
Proof.
  intros Hreach.
  apply (reaches_fold (λ st, default VUndefined (st_filter2 st)) eq _
           (λ _, True) cs) with st; [|apply Forall_True|done..].
  clear. intros n c st b _ <-. by by_call c st.
Qed.

Lemma reaches_sort cs st st' b :
  reaches st cs st' →
  (prop_of "sortBy" (st_sort st).2, prop_of "sortOrder" (st_sort st).2,
   prop_of "nullsFirst" (st_sort st).2) = b →
  (prop_of "sortBy" (st_sort st').2, prop_of "sortOrder" (st_sort st').2,
   prop_of "nullsFirst" (st_sort st').2)
  = foldl (λ acc c,
             match c with
             | COrderBy column ascending nullsFirst =>
                 (VStr column,
                  VStr (if default true ascending then "asc" else "desc"),
                  VBool (default false nullsFirst))
             | _ => acc
             end) b cs.
Proof.
  intros Hreach Hb.
  apply (reaches_fold
           (λ st, (prop_of "sortBy" (st_sort st).2,
                   prop_of "sortOrder" (st_sort st).2,
                   prop_of "nullsFirst" (st_sort st).2)) eq _
           (λ _, True) cs) with st; [|apply Forall_True|done..].
  clear. intros n c st b _ <-. by by_call c st.
Qed.

(** X3. [filter2] after a chain of calls is the argument of the last [where2]
    call ([undefined] when there is none): [where2] replaces, it does not
    combine with an earlier tree, and it never touches the filter list,
    which still holds the arguments of the [where] calls. *)
Theorem where2_replaces (h : heap) (cs : list call) :
  eval (q ← Query.constructor; q ← run_calls q cs;
        filter2 ← filter2_of q; filter ← filter_of q;
        mret (filter2, filter)) h
  = Some (last_where2 cs, Some (where_arguments cs)).
Proof.
  destruct (chain_observe
              (λ q, filter2 ← filter2_of q; filter ← filter_of q;
                    mret (filter2, filter))
              (λ st, (default VUndefined (st_filter2 st), Some (st_filter st).2))
              h cs)
    as (st' & Hreach & ->).
  { intros st h1 Φ Hrep HΦ.
    apply wp_bind, (wp_filter2_of _ _ _ Hrep).
    apply wp_bind, (wp_filter_of _ _ _ Hrep). by apply wp_ret. }
  by rewrite (reaches_filter2 _ _ _ Hreach), (reaches_filter _ _ _ Hreach).
Qed.

(** X4. The sort after a chain of calls is that of the last [orderBy] call:
    [sortOrder] is ['asc'] when [ascending] is true or left out and
    ['desc'] when it is false, [nullsFirst] is the argument or [false] when
    left out.  Without any [orderBy] call it is the constructor's
    [{sortBy: 'name', sortOrder: 'asc'}], which has no [nullsFirst]. *)
Theorem sort_after_chain (h : heap) (cs : list call) :
  eval (q ← Query.constructor; q ← run_calls q cs; sort_of q) h
  = Some (last_sort cs).
Proof.
  destruct (chain_observe sort_of
              (λ st, (prop_of "sortBy" (st_sort st).2,
                      prop_of "sortOrder" (st_sort st).2,
                      prop_of "nullsFirst" (st_sort st).2)) h cs)
    as (st' & Hreach & ->); [apply wp_sort_of|].
  by rewrite (reaches_sort _ _ _ _ Hreach eq_refl).
Qed.

(** ** The window *)





(** ** The symbol selection *)

Lemma foldl_snoc_bind {A B} (g : B → list A) acc (l : list B) :
  foldl (λ acc c, acc ++ g c) acc l = acc ++ (l ≫= g).
Proof.
  revert acc. induction l as [|c l IH]; intros acc; simpl.
  - by rewrite app_nil_r.
  - by rewrite IH, app_assoc.
Qed.

Lemma reaches_tickers cs st st' :
  reaches st cs st' → tickers_view st = None →
  tickers_view st' = fmap (M := list) VStr <$> last_tickers cs.
Proof.
  intros Hreach Hst.
  apply (reaches_fold tickers_view
           (λ x (b : option (list string)), x = fmap (M := list) VStr <$> b) _
           (λ _, True) cs) with st; [|apply Forall_True|done..].
  clear. intros n c st b _. by by_call c st.
Qed.

Lemma groups_read_snoc b y :
  groups_read (b ++ [y])
  = Some (default [] (groups_read b) ++ [(VStr "index", VStr <$> y)]).
Proof.
  destruct b as [|b0 b]; [done|].
  change ((b0 :: b) ++ [y]) with (b0 :: (b ++ [y])).
  unfold groups_read. by rewrite !fmap_cons, fmap_app.
Qed.

Lemma reaches_groups cs st st' :
  reaches st cs st' → groups_view st = None →
  groups_view st' = groups_read (index_groups cs).
Proof.
  intros Hreach Hst. unfold index_groups.
  rewrite <- (app_nil_l (cs ≫= _)), <- foldl_snoc_bind.
  apply (reaches_fold groups_view
           (λ x (b : list (list string)), x = groups_read b) _
           (λ _, True) cs) with st; [|apply Forall_True|done..].
  clear. intros n c st b _ Hb.
  destruct st as [q d m sy tk gr tf o cl f f2 s [r rs]].
  destruct c as [[]|[]|[]|[|x xs]| | | | |];
    rewrite ?app_nil_r, ?groups_read_snoc, <- Hb; try done.
  - unfold call_state, setIndex_state, groups_view. simpl.
    destruct gr as [[g gs]|]; simpl; [by rewrite fmap_app|done].
  - simpl. by destruct rs as [|[] [|[] []]].
  - simpl. by destruct rs as [|[] [|[] []]].
Qed.

(** X6. After any chain of calls the ticker list is that of the last
    [setTickers] call that had an argument and there is one group
    [{type: 'index', values}] per [setIndex] call that had an argument, in
    the order of the calls.  Until the first such call [symbols] has no
    [tickers], respectively no [groups], at all. *)
Theorem symbols_after_chain (h : heap) (cs : list call) :
  eval (q ← Query.constructor; q ← run_calls q cs;
        tickers ← tickers_of q; groups ← groups_of q;
        mret (tickers, groups)) h
  = Some (fmap (M := list) VStr <$> last_tickers cs,
          groups_read (index_groups cs)).
Proof.
  destruct (chain_observe
              (λ q, tickers ← tickers_of q; groups ← groups_of q;
                    mret (tickers, groups))
              (λ st, (tickers_view st, groups_view st)) h cs)
    as (st' & Hreach & ->).
  { intros st h1 Φ Hrep HΦ.
    apply wp_bind, (wp_tickers_of _ _ _ Hrep).
    apply wp_bind, (wp_groups_of _ _ _ Hrep). by apply wp_ret. }
  by rewrite (reaches_tickers _ _ _ Hreach eq_refl),
             (reaches_groups _ _ _ Hreach eq_refl).
Qed.

(** ** Who sees a change of the window *)




(** * Serialisation round trips *)

Lemma ser_items_docs (f : val → ser) vs js :
  Forall2 (λ v j, f v = SDoc j) vs js → ser_items f vs = SDoc (JArr js).
Proof.
  induction 1 as [|v j vs js Hv _ IH]; [done|]. simpl. by rewrite Hv, IH.
Qed.

Lemma ser_members_docs (f : val → ser) (ps : list (string * val)) ms :
  Forall2 (λ p m, p.1 = m.1 ∧ f p.2 = SDoc m.2) ps ms →
  ser_members f ps = SDoc (JObj ms).
Proof.
  induction 1 as [|[k v] [k' j] ps ms [Hk Hv] _ IH]; [done|].
  simpl in *. subst k'. by rewrite Hv, IH.
Qed.

(** What [JSON_parse] builds serialises back to the document it was built
    from, in any later store and with any stack that holds none of the new
    objects, as soon as the fuel covers the depth of the document. *)
Lemma parse_serialize j : ∀ h v h',
  JSON_parse j h = Some (v, h') →
  ∃ n, ∀ fuel stack ext,
    n ≤ fuel → (∀ l, l ∈ stack → ¬ span (length h) (length h') l) →
    serialize fuel (h' ++ ext) stack v = SDoc j.
Proof.
  induction j as [| | | |js IH|ms IH] using json_induction; intros h v h' Hp;
    try (injection Hp as <- <-; exists 0; intros [|fuel] stack ext _ _; done).
  - cbn [JSON_parse] in Hp.
    apply bind_inv in Hp as (vs & h1 & Hgo & [= <- <-]).
    assert (∃ e n, h1 = h ++ e ∧ ∀ fuel stack ext,
              n ≤ fuel → (∀ l, l ∈ stack → ¬ span (length h) (length h1) l) →
              Forall2 (λ v j, serialize fuel (h1 ++ ext) stack v = SDoc j) vs js)
      as (e & n & -> & Hvs).
    { revert h vs h1 Hgo.
      induction IH as [|j js Hj _ IHjs]; intros h vs h1 Hgo.
      - injection Hgo as <- <-. exists [], 0. rewrite app_nil_r.
        split; [done|]. constructor.
      - apply bind_inv in Hgo as (v & h2 & Hv & Hgo).
        apply bind_inv in Hgo as (vs' & h3 & Hvs' & [= <- <-]).
        destruct (parse_allocates _ _ _ _ Hv) as (e1 & -> & _).
        apply Hj in Hv as (n1 & Hv).
        apply IHjs in Hvs' as (e2 & n2 & -> & Hvs').
        exists (e1 ++ e2), (n1 `max` n2). rewrite app_assoc. split; [done|].
        intros fuel stack ext Hfuel Hstack. constructor.
        + rewrite <- app_assoc. apply Hv; [lia|].
          intros l Hl Hs. apply (Hstack l Hl). unfold span in *.
          rewrite !length_app in *. lia.
        + apply Hvs'; [lia|].
          intros l Hl Hs. apply (Hstack l Hl). unfold span in *.
          rewrite !length_app in *. lia. }
    exists (S n). intros [|fuel] stack ext Hfuel Hstack; [lia|].
    cbn [serialize]. rewrite decide_False.
    2:{ intros Hl. apply (Hstack _ Hl). unfold span.
        rewrite !length_app. simpl. lia. }
    rewrite <- (app_assoc (h ++ e)). cbn [app].
    rewrite list_lookup_middle by done.
    apply ser_items_docs. apply Hvs; [lia|].
    intros l [->|Hl]%elem_of_cons; unfold span; [lia|].
    intros Hs. apply (Hstack l Hl). unfold span in *.
    rewrite !length_app in *. simpl. lia.
  - cbn [JSON_parse] in Hp.
    apply bind_inv in Hp as (ps & h1 & Hgo & [= <- <-]).
    assert (∃ e n, h1 = h ++ e ∧ ∀ fuel stack ext,
              n ≤ fuel → (∀ l, l ∈ stack → ¬ span (length h) (length h1) l) →
              Forall2 (λ p m, p.1 = m.1 ∧
                              serialize fuel (h1 ++ ext) stack p.2 = SDoc m.2)
                      ps ms)
      as (e & n & -> & Hps).
    { revert h ps h1 Hgo.
      induction IH as [|[k j] ms Hj _ IHms]; intros h ps h1 Hgo.
      - injection Hgo as <- <-. exists [], 0. rewrite app_nil_r.
        split; [done|]. constructor.
      - apply bind_inv in Hgo as (v & h2 & Hv & Hgo).
        apply bind_inv in Hgo as (ps' & h3 & Hps' & [= <- <-]).
        destruct (parse_allocates _ _ _ _ Hv) as (e1 & -> & _).
        apply Hj in Hv as (n1 & Hv).
        apply IHms in Hps' as (e2 & n2 & -> & Hps').
        exists (e1 ++ e2), (n1 `max` n2). rewrite app_assoc. split; [done|].
        intros fuel stack ext Hfuel Hstack. constructor.
        + split; [done|]. simpl. rewrite <- app_assoc. apply Hv; [lia|].
          intros l Hl Hs. apply (Hstack l Hl). unfold span in *.
          rewrite !length_app in *. lia.
        + apply Hps'; [lia|].
          intros l Hl Hs. apply (Hstack l Hl). unfold span in *.
          rewrite !length_app in *. lia. }
    exists (S n). intros [|fuel] stack ext Hfuel Hstack; [lia|].
    cbn [serialize]. rewrite decide_False.
    2:{ intros Hl. apply (Hstack _ Hl). unfold span.
        rewrite !length_app. simpl. lia. }
    rewrite <- (app_assoc (h ++ e)). cbn [app].
    rewrite list_lookup_middle by done.
    apply ser_members_docs. apply Hps; [lia|].
    intros l [->|Hl]%elem_of_cons; unfold span; [lia|].
    intros Hs. apply (Hstack l Hl). unfold span in *.
    rewrite !length_app in *. simpl. lia.
Qed.

Lemma reach_app h ext v l : reach h v l → reach (h ++ ext) v l.
Proof.
  induction 1 as [l|l o w l' Hl Hw _ IH]; [constructor|].
  eapply reach_step; [by apply lookup_app_l_Some|done..].
Qed.

(** Where the state can be serialised, [copy] returns the object after the
    nine of [new Query()], holding the parsed document. *)
Lemma copy_runs h q j :
  closed h → Query.toJSON (VRef q) h = Some (j, h) →
  ∃ K clone P,
    length K = 9 ∧
    JSON_parse j (h ++ K) = Some (clone, (h ++ K) ++ P) ∧
    Query.copy (VRef q) h
    = Some (VRef (length h + 8),
            <[length h + 8 := Obj [("queryDict", clone)]]> ((h ++ K) ++ P)).
Proof.
  intros Hh. unfold Query.toJSON.
  intros (d & h0 & (l & ps & [= <-] & Hq & -> & ->)%get_prop_inv & Hs)%bind_inv.
  unfold JSON_stringify in Hs.
  destruct (serialize (S (length h)) h [] (prop_of "queryDict" ps))
    as [j'| | | |] eqn:Hser; [|done..]. injection Hs as ->.
  destruct (constructor_allocates h) as (K & HK & Hlen & H8 & _).
  assert (JSON_stringify (prop_of "queryDict" ps) (h ++ K)
          = Some (j, h ++ K)) as Hs.
  { unfold JSON_stringify. rewrite length_app, Hlen.
    replace (S (length h + 9)) with (9 + S (length h)) by lia.
    rewrite serialize_fuel_le;
      rewrite (serialize_frame _ h (h ++ K)), Hser; try done.
    all: intros l Hl; apply lookup_app_l;
      apply (reach_region (λ l, l < length h)) in Hl; try done.
    all: try (intros l' o w _; apply closed_refs; done).
    all: unfold prop_of; destruct (assoc "queryDict" ps) as [w|] eqn:Hw;
      [|done]; simpl; eapply closed_refs; [done..|]; by eapply assoc_refs. }
  destruct (parse_total j (h ++ K)) as [[clone h1] Hp].
  destruct (parse_allocates _ _ _ _ Hp) as (P & -> & _).
  exists K, clone, P. split; [done|]. split; [done|].
  unfold Query.copy, mbind, M_bind. rewrite HK.
  unfold get_prop, set_prop, read, mbind, M_bind, option_bind. cbn [mret M_ret].
  rewrite lookup_app_l, Hq by by eapply lookup_lt_Some.
  unfold mret, M_ret. rewrite Hs, Hp.
  rewrite <- app_assoc, lookup_app_r by lia.
  replace (length h + 8 - length h) with 8 by lia.
  rewrite lookup_app_l, H8 by lia. unfold write.
  rewrite decide_True by (rewrite !length_app; lia).
  by rewrite app_assoc.
Qed.

(** X8. A copy serialises to the document of its source: [copy] loses nothing
    that [toJSON] shows.  (It does lose what [toJSON] does not show, such as
    an [undefined] operand.) *)
Theorem copy_preserves_document (h : heap) (q : loc) (j : json) :
  closed h → Query.toJSON (VRef q) h = Some (j, h) →
  eval (c ← Query.copy (VRef q); Query.toJSON c) h = Some j.
Proof.
  intros Hh Hj.
  destruct (copy_runs h q j Hh Hj) as (K & clone & P & Hlen & Hp & Hcopy).
  destruct (parse_serialize _ _ _ _ Hp) as (n & Hser).
  destruct (parse_allocates _ _ _ _ Hp) as (P' & HP' & Hclone & Hext).
  apply app_inv_head in HP' as <-.
  set (H1 := <[length h + 8 := Obj [("queryDict", clone)]]> ((h ++ K) ++ P)).
  assert (∀ fuel, n ≤ fuel → serialize fuel H1 [] clone = SDoc j) as Hser1.
  { intros fuel Hfuel.
    rewrite (serialize_frame fuel ((h ++ K) ++ P) H1).
    - rewrite <- (app_nil_r ((h ++ K) ++ P)). apply Hser; [done|].
      intros l Hl. by apply not_elem_of_nil in Hl.
    - intros l Hl.
      apply (reach_region (span (length (h ++ K)) (length ((h ++ K) ++ P))))
        in Hl; [| |done].
      + unfold H1. apply list_lookup_insert_ne.
        destruct Hl as [Hl _]. rewrite length_app in Hl. lia.
      + intros l' o w [Hl' _] Ho Hw. rewrite lookup_app_r in Ho by done.
        rewrite Forall_forall in Hext.
        specialize (Hext _ (list_elem_of_lookup_2 _ _ _ Ho)).
        rewrite Forall_forall in Hext. by apply Hext. }
  unfold eval, mbind, M_bind. rewrite Hcopy. fold H1.
  unfold Query.toJSON, get_prop, read, mbind, M_bind, option_bind.
  unfold H1 at 1. rewrite list_lookup_insert_eq by (rewrite !length_app; lia).
  cbn [mret M_ret prop_of assoc String.eqb Ascii.eqb Bool.eqb from_option id].
  unfold JSON_stringify.
  rewrite <- (serialize_fuel_le (S (length H1)) n) by apply serialize_fuel.
  by rewrite Hser1 by lia.
Qed.

Lemma copy_preserves_document_witness :
  ∃ j, Query.toJSON (VRef 8) copy_example = Some (j, copy_example) ∧
       eval (c ← Query.copy (VRef 8); Query.toJSON c) copy_example = Some j.
Proof.
  eexists. split; [reflexivity|].
  apply (copy_preserves_document copy_example 8).
  - repeat first [apply Forall_nil_2 | apply Forall_cons_2
                 | progress cbn [refs_of fmap list_fmap snd]];
      try exact I; vm_compute; lia.
  - reflexivity.
Defined.

(** * Circular structures *)

Lemma ser_items_doc_inv (f : val → ser) es j :
  ser_items f es = SDoc j →
  ∀ w, w ∈ es → f w = SNone ∨ ∃ j', f w = SDoc j'.
Proof.
  revert j. induction es as [|e es IH]; intros j Hj w Hw.
  - by apply not_elem_of_nil in Hw.
  - simpl in Hj. apply elem_of_cons in Hw as [->|Hw].
    + destruct (f e); try done; eauto.
    + destruct (f e); try done;
        destruct (ser_items f es) as [[]| | | |] eqn:Hes; try done;
        by eapply IH.
Qed.

Lemma ser_members_doc_inv (f : val → ser) (ps : list (string * val)) j :
  ser_members f ps = SDoc j →
  ∀ w, w ∈ ps.*2 → f w = SNone ∨ ∃ j', f w = SDoc j'.
Proof.
  revert j. induction ps as [|[k e] ps IH]; intros j Hj w Hw.
  - by apply not_elem_of_nil in Hw.
  - simpl in Hj. cbn [fmap list_fmap snd] in Hw.
    apply elem_of_cons in Hw as [->|Hw].
    + destruct (f e); try done; eauto.
    + destruct (f e); try done; [|by eapply IH].
      destruct (ser_members f ps) as [[]| | | |] eqn:Hes; try done;
        by eapply IH.
Qed.

(** What a successful serialisation visits: every value of an object that
    was serialised was serialised itself, one level down. *)
Lemma serialize_ref_inv fuel h stack l j :
  serialize fuel h stack (VRef l) = SDoc j →
  ∃ fuel' o, fuel = S fuel' ∧ (l ∉ stack) ∧ h !! l = Some o ∧
    ∀ w, w ∈ refs_of o →
      serialize fuel' h (l :: stack) w = SNone ∨
      ∃ j', serialize fuel' h (l :: stack) w = SDoc j'.
Proof.
  destruct fuel as [|fuel]; [done|]. cbn [serialize].
  case_decide as Hin; [done|].
  destruct (h !! l) as [[es|ps]|] eqn:Hl; [| |done]; intros Hj.
  - exists fuel, (Arr es). repeat split; try done.
    by eapply ser_items_doc_inv.
  - exists fuel, (Obj ps). repeat split; try done.
    by eapply ser_members_doc_inv.
Qed.

Lemma serialize_undefined fuel h stack w :
  serialize fuel h stack w = SNone → w = VUndefined.
Proof.
  destruct fuel as [|fuel], w as [| | | | |l]; try done.
  cbn [serialize]. case_decide; [done|].
  destruct (h !! l) as [[es|ps]|]; [| |done].
  - induction es as [|e es IH]; [done|]. simpl.
    destruct (serialize fuel h (l :: stack) e); try done;
      by destruct (ser_items _ es) as [[]| | | |].
  - induction ps as [|[k e] ps IH]; [done|]. simpl.
    destruct (serialize fuel h (l :: stack) e); try done;
      by destruct (ser_members _ ps) as [[]| | | |].
Qed.

Lemma reach_undefined h l : ¬ reach h VUndefined l.
Proof. inversion 1. Qed.

(** No object reached by a successful serialisation is on the stack. *)
Lemma serialize_doc_stack fuel : ∀ h stack v j l,
  serialize fuel h stack v = SDoc j → reach h v l → l ∉ stack.
Proof.
  induction fuel as [|fuel IH]; intros h stack v j l Hj Hr.
  - destruct Hr; done.
  - destruct Hr as [l|l o w l' Hl Hw Hr].
    + by apply serialize_ref_inv in Hj as (? & ? & _ & ? & _).
    + apply serialize_ref_inv in Hj as (fuel' & o' & [= <-] & Hin & Hl' & Hws).
      rewrite Hl in Hl'. injection Hl' as <-.
      destruct (Hws w Hw) as [Hn|[j' Hj']].
      * apply serialize_undefined in Hn as ->. by apply reach_undefined in Hr.
      * apply (IH _ _ _ _ l') in Hj'; [|done].
        by apply not_elem_of_cons in Hj' as [_ ?].
Qed.

(** Every object reached by a successful serialisation was serialised. *)
Lemma serialize_doc_sub fuel : ∀ h stack v j l,
  serialize fuel h stack v = SDoc j → reach h v l →
  ∃ fuel' stack' j', serialize fuel' h stack' (VRef l) = SDoc j'.
Proof.
  induction fuel as [|fuel IH]; intros h stack v j l Hj Hr.
  - destruct Hr; done.
  - destruct Hr as [l|l o w l' Hl Hw Hr]; [by eauto|].
    apply serialize_ref_inv in Hj as (fuel' & o' & [= <-] & Hin & Hl' & Hws).
    rewrite Hl in Hl'. injection Hl' as <-.
    destruct (Hws w Hw) as [Hn|[j' Hj']].
    + apply serialize_undefined in Hn as ->. by apply reach_undefined in Hr.
    + by eapply IH.
Qed.

Lemma serialize_cyclic fuel h stack v l j :
  reach h v l → cyclic h l → serialize fuel h stack v ≠ SDoc j.
Proof.
  intros Hr (o & w & Hl & Hw & Hback) Hj.
  destruct (serialize_doc_sub _ _ _ _ _ _ Hj Hr) as (fuel' & stack' & j' & Hj').
  apply serialize_ref_inv in Hj' as (fuel'' & o' & -> & Hin & Hl' & Hws).
  rewrite Hl in Hl'. injection Hl' as <-.
  destruct (Hws w Hw) as [Hn|[j'' Hj'']].
  - apply serialize_undefined in Hn as ->. by apply reach_undefined in Hback.
  - apply (serialize_doc_stack _ _ _ _ _ l) in Hj''; [|done].
    apply Hj''. apply list_elem_of_here.
Qed.

Lemma cyclic_app h ext l : cyclic h l → cyclic (h ++ ext) l.
Proof.
  intros (o & w & Hl & Hw & Hr). exists o, w.
  split; [by apply lookup_app_l_Some|]. split; [done|]. by apply reach_app.
Qed.

(** X9. A builder whose state reaches an object that lies on a cycle of
    references -- an operation tree that contains itself, say -- can be
    neither serialised nor copied: [toJSON] and [copy] throw. *)
Theorem circular_state_throws (h : heap) (q l : loc) (ps : list (string * val)) :
  h !! q = Some (Obj ps) → reach h (prop_of "queryDict" ps) l → cyclic h l →
  Query.toJSON (VRef q) h = None ∧ Query.copy (VRef q) h = None.
Proof.
  intros Hq Hr Hc. split.
  - unfold Query.toJSON, get_prop, read, mbind, M_bind, option_bind.
    rewrite Hq. cbn [mret M_ret]. unfold JSON_stringify.
    destruct (serialize _ _ _ _) as [j| | | |] eqn:Hj; try done.
    by eapply serialize_cyclic in Hj.
  - destruct (constructor_allocates h) as (K & HK & _).
    unfold Query.copy, mbind, M_bind. rewrite HK.
    unfold get_prop, read, mbind, M_bind, option_bind.
    rewrite lookup_app_l, Hq by by eapply lookup_lt_Some.
    cbn [mret M_ret]. unfold JSON_stringify.
    destruct (serialize _ _ _ _) as [j| | | |] eqn:Hj; try done.
    eapply serialize_cyclic in Hj; [done|by apply reach_app|by apply cyclic_app].
Qed.

Lemma circular_state_throws_witness :
  Query.toJSON (VRef 14) circular_example = None ∧
  Query.copy (VRef 14) circular_example = None.
Proof.
  apply (circular_state_throws circular_example 14 5
           [("queryDict", VRef 13)]).
  - reflexivity.
  - eapply reach_step; [reflexivity| |constructor].
    cbn [refs_of fmap list_fmap snd]. do 7 apply list_elem_of_further.
    apply list_elem_of_here.
  - exists (Obj [("operation", VRef 4)]), (VRef 4).
    split; [reflexivity|]. split; [apply list_elem_of_here|].
    eapply reach_step; [reflexivity|apply list_elem_of_further, list_elem_of_here|].
    eapply reach_step; [reflexivity|apply list_elem_of_further, list_elem_of_here|].
    constructor.
Defined.

(** * Predicates and combinators *)

Lemma wrap_operand_primitive v h : (∀ l, v ≠ VRef l) → wrap_operand v h = None.
Proof. intros Hv. destruct v; try done. by destruct (Hv l). Qed.

Lemma wrap_operands_primitive v args :
  v ∈ args → (∀ l, v ≠ VRef l) → ∀ h, map_m wrap_operand args h = None.
Proof.
  intros Hin Hv. induction args as [|x args IH]; intros h.
  - by apply not_elem_of_nil in Hin.
  - cbn [map_m]. unfold mbind at 1, M_bind at 1.
    apply elem_of_cons in Hin as [<-|Hin].
    + by rewrite wrap_operand_primitive.
    + destruct (wrap_operand x h) as [[y h1]|]; [|done].
      unfold mbind, M_bind. by rewrite IH.
Qed.

(** X10. [And] and [Or] throw when one of their arguments is not an object (a
    string, a number, a boolean, [null] or [undefined]): the test
    ['operation' in expr] raises a [TypeError] on it.  No node is
    returned. *)
Theorem combinators_reject_primitives (h : heap) (args : list val) (v : val) :
  v ∈ args → (∀ l, v ≠ VRef l) → And args h = None ∧ Or args h = None.
Proof.
  intros Hin Hv. unfold And, Or, mbind, M_bind.
  by rewrite (wrap_operands_primitive v args Hin Hv).
Qed.

Lemma combinators_reject_primitives_witness :
  And [VRef 1; VStr "close > 5"] nesting_example = None ∧
  Or [VRef 1; VStr "close > 5"] nesting_example = None.
Proof.
  apply (combinators_reject_primitives nesting_example
           [VRef 1; VStr "close > 5"] (VStr "close > 5")).
  - apply list_elem_of_further, list_elem_of_here.
  - discriminate.
Defined.

(** What each method of [Column] returns: a new object, after the column
    object and, for the range methods, the new array of the two bounds. *)
Lemma invoke_spec (m : method) (f : string) (args : list val) (h : heap) :
  ∃ code right ext,
    (c ← col f; invoke m c args) h
    = Some (VRef (length (h ++ ext)),
            (h ++ ext)
            ++ [Obj ([("left", VStr f); ("operation", VStr code)] ++ right)]) ∧
    code = operation_code m ∧
    match operand_kind_of m with
    | NoOperand => right = [] ∧ ext = [Obj [("name", VStr f)]]
    | ValueOperand =>
        right = [("right", argument 0 args)] ∧ ext = [Obj [("name", VStr f)]]
    | RangeOperand =>
        right = [("right", VRef (S (length h)))] ∧
        ext = [Obj [("name", VStr f)]; Arr [argument 0 args; argument 1 args]]
    end.
Proof.
  assert ((h ++ [Obj [("name", VStr f)]]) !! length h
          = Some (Obj [("name", VStr f)])) as Hc by by apply list_lookup_middle.
  destruct m; eexists _, _, _;
    (split; [|split; [reflexivity|split; reflexivity]]);
    unfold col, Column.constructor, invoke, alloc, mbind, M_bind;
    unfold Column.gt, Column.gte, Column.lt, Column.lte, Column.eq, Column.neq,
      Column.between, Column.notBetween, Column.inDayRange, Column.inWeekRange,
      Column.inMonthRange, Column.abovePct, Column.belowPct, Column.betweenPct,
      Column.notBetweenPct, Column.crosses, Column.crossesAbove,
      Column.crossesBelow, Column.like, Column.notLike, Column.has,
      Column.hasNoneOf, Column.isin, Column.notIn, Column.empty,
      Column.notEmpty, get_prop, read, alloc, mbind, M_bind, option_bind;
    rewrite Hc; cbn [mret M_ret prop_of assoc String.eqb Ascii.eqb Bool.eqb
                     from_option id app];
    rewrite ?length_snoc, ?length_app, <- ?app_assoc; cbn [length app];
    first [reflexivity | repeat f_equal; lia].
Qed.

(** X11. Two methods of [Column] write the same operation code only when they
    are the same method or one of the two pairs of synonyms, [has]/[isin]
    and [hasNoneOf]/[notIn]: no two different comparisons are sent as the
    same operation. *)
Theorem operation_codes_distinct (m1 m2 : method) (f1 f2 : string)
    (args1 args2 : list val) (h1 h2 : heap) :
  eval (c ← col f1; p ← invoke m1 c args1; get_prop p "operation") h1
  = eval (c ← col f2; p ← invoke m2 c args2; get_prop p "operation") h2 →
  m1 = m2 ∨ same_wire m1 m2.
Proof.
  assert (∀ m f args h,
            eval (c ← col f; p ← invoke m c args; get_prop p "operation") h
            = Some (VStr (operation_code m))) as Hcode.
  { intros m f args h.
    destruct (invoke_spec m f args h) as (code & right & ext & Hrun & -> & _).
    apply wp_eval, wp_assoc, wp_bind. eapply wp_eq; [exact Hrun|].
    eapply wp_get_prop; [by apply list_lookup_middle|]. done. }
  rewrite !Hcode. intros [= H].
  destruct m1, m2; first [by left | by right | discriminate H].
Qed.

Lemma operation_codes_distinct_witness : Mhas = Misin ∨ same_wire Mhas Misin.
Proof.
  apply (operation_codes_distinct Mhas Misin "type" "type"
           [VRef 0] [VRef 0] [Arr [VStr "stock"]] [Arr [VStr "stock"]]).
  reflexivity.
Defined.

(** X12. Whatever method of [Column] made it and whatever its arguments, a
    predicate is a leaf for [And] and [Or]: it is always wrapped in a new
    [{expression}], never taken for a connective node.  Making the
    predicate changes no object of the store. *)
Theorem column_predicates_are_leaves (m : method) (f : string)
    (args : list val) (h : heap) :
  ∃ p h1,
    (c ← col f; invoke m c args) h = Some (p, h1) ∧
    (∀ l, l < length h → h1 !! l = h !! l) ∧
    is_predicate h1 p ∧
    combinator_result "and" h1 [p] (And [p] h1) ∧
    combinator_result "or" h1 [p] (Or [p] h1).
Proof.
  destruct (invoke_spec m f args h) as (code & right & ext & Hrun & _ & _).
  eexists _, _. split; [exact Hrun|].
  assert (is_predicate
            ((h ++ ext)
             ++ [Obj ([("left", VStr f); ("operation", VStr code)] ++ right)])
            (VRef (length (h ++ ext)))) as Hp.
  { eexists _, _, f, code. split; [done|]. split; [by apply list_lookup_middle|].
    done. }
  split; [|split; [done|]].
  - intros l Hl. rewrite <- app_assoc. by apply lookup_app_l.
  - split; apply combinator_spec; by repeat constructor.
Qed.

(** * The request *)

Lemma rep_app st h ext : rep st h → rep st (h ++ ext).
Proof. intros [Hnd Hh]. split; [done|]. by apply holds_app. Qed.

Lemma cookie_parts (kvs : list (string * string)) (h : heap) :
  map_m (λ e : string * val,
           value ← to_string e.2; mret (e.1 ++ "=" ++ value)%string)
        (prod_map id VStr <$> kvs) h
  = Some ((λ kv, (kv.1 ++ "=" ++ kv.2)%string) <$> kvs, h).
Proof.
  induction kvs as [|[k v] kvs IH]; [done|].
  cbn [fmap list_fmap map_m prod_map fst snd to_string id].
  unfold mbind, M_bind in *. cbn [mret M_ret]. by rewrite IH.
Qed.

Lemma request_rep st (h : heap) m0 ms cookies kvs :
  rep st h → plain_state st → (st_markets st).2 = VStr <$> (m0 :: ms) →
  cookies_value h cookies kvs →
  getScannerDataRaw_request (VRef (st_this st)) cookies h
  = Some (Request (SCREENER_URL ++ "/" ++ url_market (m0 :: ms) ++ "/scan")%string
            "POST" (VRef (length h)) (plain_document st),
          h ++ [Obj (sent_headers kvs)]).
Proof.
  intros Hrep Hplain Hms Hck.
  assert (Query.toJSON (VRef (st_this st)) (h ++ [Obj (sent_headers kvs)])
          = Some (plain_document st, h ++ [Obj (sent_headers kvs)])) as Hdoc
    by (apply toJSON_plain; [by apply rep_app|done]).
  destruct st as [q d [m mks] sy tk gr tf o [c cs] [f fs] f2 [s ss] [r rs]].
  simpl in Hms. subst mks. cbn [st_this] in *. clear Hplain.
  rep_open Hrep. note_bounds.
  apply wp_run. unfold getScannerDataRaw_request.
  do 4 wp_step. apply wp_bind. wp_step.
  cbn [fmap list_fmap lookup list_lookup from_option id truthy url_market].
  apply wp_bind.
  eapply (wp_eq _ _ _ (if String.eqb m0 "" then "america" else m0));
    [by destruct (String.eqb m0 "")|].
  apply wp_bind. apply wp_alloc.
  assert (wp (queryDict ← get_prop (VRef q) "queryDict";
              body ← JSON_stringify queryDict;
              mret (Request
                      (SCREENER_URL ++ "/"
                       ++ (if String.eqb m0 "" then "america" else m0)
                       ++ "/scan")%string "POST" (VRef (length h)) body))
            (h ++ [Obj (sent_headers kvs)])
            (λ a h', a = Request
                      (SCREENER_URL ++ "/"
                       ++ (if String.eqb m0 "" then "america" else m0)
                       ++ "/scan")%string "POST" (VRef (length h))
                      (plain_document
                         (QState q d (m, VStr <$> m0 :: ms) sy tk gr tf o
                            (c, cs) (f, fs) f2 (s, ss) (r, rs)))
                    ∧ h' = h ++ [Obj (sent_headers kvs)])) as Hrest.
  { apply (wp_assoc (get_prop (VRef q) "queryDict") JSON_stringify).
    apply wp_bind. eapply wp_eq; [exact Hdoc|]. by apply wp_ret. }
  destruct kvs as [kvs|]; simpl in Hck.
  - destruct Hck as (ck & -> & Hck). cbn [truthy].
    apply wp_bind. apply wp_bind.
    eapply wp_eq.
    { unfold props_of, read, mbind, M_bind, option_bind.
      rewrite lookup_app_l by by eapply lookup_lt_Some.
      rewrite Hck. reflexivity. }
    apply wp_bind. eapply wp_eq; [apply cookie_parts|].
    eapply wp_set_prop; [by apply list_lookup_middle|].
    rewrite insert_last. exact Hrest.
  - subst cookies. cbn [truthy]. apply wp_bind, wp_ret. exact Hrest.
Qed.

(** The constructor and the calls on the new builder change no object that
    was in the store before. *)
Lemma fresh_calls_frame h cs v h' :
  (q ← Query.constructor; run_calls q cs) h = Some (v, h') →
  ∀ l, l < length h → h' !! l = h !! l.
Proof.
  destruct (constructor_allocates h) as (K & HK & Hlen & _ & HKrefs).
  unfold mbind, M_bind. rewrite HK. intros Hrun l Hl.
  assert (region (λ l, length h ≤ l) (h ++ K)) as Hreg.
  { apply region_above. by rewrite length_app, Hlen. }
  destruct (stays_run_calls (λ l, length h ≤ l) (VRef (length h + 8))
              ltac:(simpl; lia) cs _ _ _ Hreg Hrun) as (_ & [_ Hframe] & _).
  rewrite Hframe; [by apply lookup_app_l| |lia].
  rewrite length_app. lia.
Qed.

(** X13. The request of a builder after a chain of calls that leaves filters
    and symbols alone: it is a POST to the [scan] endpoint of the first
    market of the list -- of ['america'] when that market is the empty
    string -- whatever other markets the list holds; its body is the
    document of [toJSON]; it has the two fixed headers and, when a cookie
    object is passed, a [Cookie] header made of its entries as
    [key=value] joined by ['; '] (the empty string for an empty
    object). *)
Theorem request_after_chain (h : heap) (cs : list call) (cookies : val)
    (kvs : option (list (string * string))) :
  Forall leaves_filters_and_symbols cs → cookies_value h cookies kvs →
  ∃ headers body h1,
    (q ← Query.constructor; q ← run_calls q cs;
     getScannerDataRaw_request q cookies) h
    = Some (Request (SCREENER_URL ++ "/" ++ url_market (chosen_markets cs)
                     ++ "/scan")%string "POST" (VRef headers) body, h1) ∧
    h1 !! headers = Some (Obj (sent_headers kvs)) ∧
    eval (q ← Query.constructor; q ← run_calls q cs; Query.toJSON q) h
    = Some body.
Proof.
  intros Hcs Hck.
  destruct (fresh_calls_rep h cs) as (v & h' & Hrun & st & -> & Hreach & Hrep).
  pose proof (reaches_plain _ _ _ Hcs Hreach (fresh_state_plain _)) as Hplain.
  pose proof (reaches_markets cs _ _ ["america"] Hreach eq_refl) as Hms.
  fold (chosen_markets cs) in Hms.
  destruct (chosen_markets cs) as [|m0 ms] eqn:Hm;
    [by apply chosen_markets_nonempty in Hm|].
  assert (cookies_value h' cookies kvs) as Hck'.
  { destruct kvs as [kvs|]; [|done]. destruct Hck as (c & -> & Hc).
    exists c. split; [done|].
    rewrite (fresh_calls_frame _ _ _ _ Hrun); [done|by eapply lookup_lt_Some]. }
  exists (length h'), (plain_document st), (h' ++ [Obj (sent_headers kvs)]).
  split; [|split].
  - unfold mbind, M_bind in *.
    destruct (Query.constructor h) as [[q0 h0]|]; [|done].
    rewrite Hrun. by apply request_rep.
  - by apply list_lookup_middle.
  - unfold eval, mbind, M_bind in *.
    destruct (Query.constructor h) as [[q0 h0]|]; [|done].
    rewrite Hrun. by rewrite (toJSON_plain _ _ Hrep Hplain).
Qed.

Lemma request_after_chain_witness :
  ∃ headers body h1,
    (q ← Query.constructor;
     q ← run_calls q [CSetMarkets [""; "india"]; CLimit (inject_Z 10);
                      CSetMarkets ["forex"; "crypto"]];
     getScannerDataRaw_request q (VRef 0)) cookie_example
    = Some (Request (SCREENER_URL ++ "/"
                     ++ url_market (chosen_markets
                          [CSetMarkets [""; "india"]; CLimit (inject_Z 10);
                           CSetMarkets ["forex"; "crypto"]])
                     ++ "/scan")%string "POST" (VRef headers) body, h1) ∧
    h1 !! headers
    = Some (Obj (sent_headers (Some [("sessionid", "abc"); ("device", "x")]))) ∧
    eval (q ← Query.constructor;
          q ← run_calls q [CSetMarkets [""; "india"]; CLimit (inject_Z 10);
                           CSetMarkets ["forex"; "crypto"]];
          Query.toJSON q) cookie_example
    = Some body.
Proof.
  apply (request_after_chain cookie_example
           [CSetMarkets [""; "india"]; CLimit (inject_Z 10);
            CSetMarkets ["forex"; "crypto"]]
           (VRef 0) (Some [("sessionid", "abc"); ("device", "x")])).
  - by repeat constructor.
  - by exists 0.
Defined.

(** The fallback by evaluation: after [setMarkets('', 'india')] the request
    goes to [america] while the body asks for the markets ['', 'india']. *)
Lemma empty_market_falls_back :
  eval (q ← Query.constructor; q ← Query.setMarkets q [VStr ""; VStr "india"];
        r ← getScannerDataRaw_request q VUndefined;
        mret (req_url r)) []
  = Some "https://scanner.tradingview.com/america/scan".
Proof. reflexivity. Qed.

(** * The mapper and the store *)

(** The mapper allocates one record per row, the array of the records and
    the result, in this order, and writes to the records only. *)
Lemma getScannerData_run (h : heap) this rawData total rows cols :
  has_columns h this cols → is_response h rawData total rows →
  Forall (λ c, ordinary_key c = true) cols →
  Query.getScannerData this rawData h
  = Some (VRef (S (length h + length rows)),
          h ++ (Obj ∘ code_record cols <$> rows)
            ++ [Arr (VRef <$> seq (length h) (length rows));
                Obj [("totalCount", total);
                     ("data", VRef (length h + length rows))]]).
Proof.
  intros (q & ps & d & dps & c & -> & Hq & Hd & Hdps & Hc & Hcols)
         (l & rps & a & rs & -> & Hl & Htotal & Hdata & Ha & Hrows) Hkeys.
  assert (prop_of "queryDict" ps = VRef d) as Hd'
    by (unfold prop_of; by rewrite Hd).
  assert (prop_of "columns" dps = VRef c) as Hc'
    by (unfold prop_of; by rewrite Hc).
  apply wp_run. unfold Query.getScannerData. note_bounds.
  apply wp_bind. eapply wp_get_prop; [done|]. rewrite Hd'.
  apply wp_bind. eapply wp_get_prop; [done|]. rewrite Hc'.
  apply wp_bind. cbn [truthy]. apply wp_ret.
  apply wp_bind. eapply wp_get_prop; [done|]. rewrite Hdata.
  apply wp_bind. eapply wp_get_elems; [done|].
  apply wp_bind. eapply wp_eq; [by eapply format_rows|].
  apply wp_bind. apply wp_alloc.
  apply wp_bind. eapply wp_get_prop; [by do 2 apply lookup_app_l_Some|].
  rewrite Htotal. apply wp_alloc.
  rewrite length_snoc, !length_app, !length_fmap, <- !app_assoc.
  cbn [app]. split; [|done]. f_equal.
Qed.



(** X15. A response whose [data] is not an object -- missing, [null], a string
    or a number, as in the body of an error -- makes the mapper throw: it
    returns no result, not an empty one. *)
Theorem response_without_rows_throws (h : heap) (this : val) (l : loc)
    (ps : list (string * val)) (cols : list string) :
  has_columns h this cols → h !! l = Some (Obj ps) →
  (∀ a, prop_of "data" ps ≠ VRef a) →
  Query.getScannerData this (VRef l) h = None.
Proof.
  intros (q & qps & d & dps & c & -> & Hq & Hd & Hdps & Hc & Hcols) Hl Hdata.
  unfold Query.getScannerData, get_prop, get_elems, read, mbind, M_bind,
    option_bind.
  rewrite Hq. cbn [mret M_ret]. unfold prop_of at 1. rewrite Hd. simpl.
  rewrite Hdps. cbn [mret M_ret]. unfold prop_of at 1. rewrite Hc. simpl.
  rewrite Hl. cbn [mret M_ret].
  destruct (prop_of "data" ps) as [| | | | |a] eqn:E; try done.
  by destruct (Hdata a).
Qed.

Lemma response_without_rows_throws_witness :
  Query.getScannerData (VRef 8) (VRef 13)
    (<[13 := Obj [("error", VStr "Unknown field")]]> mapper_example)
  = None.
Proof.
  apply (response_without_rows_throws _ (VRef 8) 13
           [("error", VStr "Unknown field")] ["close"; "volume"]).
  - by eexists 8, _, 7, _, 9.
  - reflexivity.
  - discriminate.
Defined.

(** * Documents *)

(** ** Moving a serialisation to a later store *)

Lemma serialize_doc_alloc fuel h stack v j l :
  serialize fuel h stack v = SDoc j → reach h v l → l < length h.
Proof.
  intros Hj Hr.
  destruct (serialize_doc_sub _ _ _ _ _ _ Hj Hr) as (fuel' & stack' & j' & Hj').
  apply serialize_ref_inv in Hj' as (? & o & _ & _ & Hl & _).
  by eapply lookup_lt_Some.
Qed.

Lemma reach_frame h H v l :
  (∀ l, reach h v l → H !! l = h !! l) → reach H v l → reach h v l.
Proof.
  intros Hfr Hr. induction Hr as [l|l o w l' Hl Hw _ IH]; [constructor|].
  rewrite (Hfr l) in Hl by constructor.
  eapply reach_step; [done..|]. apply IH.
  intros l'' Hl''. apply Hfr. by eapply reach_step.
Qed.

(** A successful serialisation does not depend on the part of the stack
    that the value does not reach. *)
Lemma serialize_stack fuel : ∀ h stack stack2 v j,
  serialize fuel h stack v = SDoc j →
  (∀ l, l ∈ stack2 → l ∈ stack ∨ ¬ reach h v l) →
  serialize fuel h stack2 v = SDoc j.
Proof.
  induction fuel as [|fuel IH]; intros h stack stack2 v j Hj Hs;
    destruct v as [| | | | |l0]; try done.
  pose proof Hj as Hj0.
  apply serialize_ref_inv in Hj as (fuel' & o & [= <-] & Hin & Hl & Hws).
  rewrite <- Hj0. rewrite !serialize_ref, Hl.
  rewrite (decide_False (P := l0 ∈ stack)) by done.
  rewrite decide_False.
  2:{ intros Hl0. destruct (Hs _ Hl0) as [?|Hn]; [done|]. apply Hn. constructor. }
  assert (∀ w, w ∈ refs_of o →
            serialize fuel h (l0 :: stack2) w = serialize fuel h (l0 :: stack) w)
    as Hext.
  { intros w Hw. destruct (Hws w Hw) as [Hn|[j' Hj']].
    - rewrite Hn. apply serialize_undefined in Hn as ->. by destruct fuel.
    - rewrite Hj'. eapply IH; [exact Hj'|].
      intros l [->|Hl']%elem_of_cons; [left; apply list_elem_of_here|].
      destruct (Hs _ Hl') as [?|Hn]; [left; by apply list_elem_of_further|].
      right. intros Hr. apply Hn. by eapply reach_step. }
  destruct o as [es|ps]; [by apply ser_items_ext|by apply ser_members_ext].
Qed.

(** A value that serialises in [h] serialises to the same document in any
    later store that kept the objects of [h], with any stack of later
    objects and at least as much fuel. *)
Lemma serialize_transfer (h H : heap) stack fuel v :
  (∀ l, l < length h → H !! l = h !! l) →
  (∀ l, l ∈ stack → length h ≤ l) → S (length h) ≤ fuel →
  serialises h v →
  serialize fuel H stack v = serialize (S (length h)) h [] v.
Proof.
  intros Hfr Hstack Hfuel Hv. unfold serialises in Hv.
  destruct (serialize (S (length h)) h [] v) as [j| | | |] eqn:Hj; try done.
  - assert (∀ l, reach h v l → H !! l = h !! l) as Hfr'.
    { intros l Hl. apply Hfr. by eapply serialize_doc_alloc. }
    assert (serialize (S (length h)) H [] v = SDoc j) as Hj1
      by (by rewrite (serialize_frame _ h H)).
    assert (serialize (S (length h)) H stack v = SDoc j) as Hj2.
    { eapply serialize_stack; [exact Hj1|]. intros l Hl. right. intros Hr.
      apply (reach_frame h) in Hr; [|done].
      apply Hstack in Hl. eapply serialize_doc_alloc in Hr; [|done]. lia. }
    replace fuel with ((fuel - S (length h)) + S (length h)) by lia.
    rewrite serialize_fuel_le; [done|]. by rewrite Hj2.
  - apply serialize_undefined in Hj as ->. by destruct fuel.
Qed.

(** ** The document of a predicate *)

Lemma argument_serialises h args i :
  Forall (serialises h) args → serialises h (argument i args).
Proof.
  intros Hargs. unfold argument. destruct (args !! i) as [v|] eqn:Hi.
  - rewrite Forall_forall in Hargs. apply Hargs. by eapply list_elem_of_lookup_2.
  - done.
Qed.

(** X16. The document of the predicate a method of [Column] makes: the field
    name under [left], the code of the method under [operation], and the
    operand under [right] -- the document of the argument, which is left out
    when the argument is [undefined] or missing; for a range method the
    array of the two bounds, [null] standing for an [undefined] one. *)
Theorem predicate_document (m : method) (f : string) (args : list val)
    (h : heap) :
  Forall (serialises h) args →
  eval (c ← col f; p ← invoke m c args; JSON_stringify p) h
  = Some (JObj ([("left", JStr f); ("operation", JStr (operation_code m))]
                ++ right_document h m args)).
Proof.
  intros Hargs.
  pose proof (argument_serialises h args 0 Hargs) as Ha.
  pose proof (argument_serialises h args 1 Hargs) as Hb.
  destruct (invoke_spec m f args h) as (code & right & ext & Hrun & Hcode & Hkind).
  subst code.
  set (props := [("left", VStr f); ("operation", VStr (operation_code m))] ++ right)
    in *.
  set (H := (h ++ ext) ++ [Obj props]) in *.
  assert (∀ l, l < length h → H !! l = h !! l) as Hfr.
  { intros l Hl. unfold H. rewrite <- app_assoc. by apply lookup_app_l. }
  apply wp_eval, wp_assoc, wp_bind. eapply wp_eq; [exact Hrun|].
  eapply wp_eq; [|done]. unfold JSON_stringify.
  assert (length H = S (length (h ++ ext))) as -> by apply length_snoc.
  rewrite serialize_ref, decide_False by apply not_elem_of_nil.
  unfold H at 1. rewrite list_lookup_middle by done.
  unfold props, right_document.
  cbn [app ser_members]. rewrite !serialize_is_prim by done.
  cbn [json_of_prim].
  destruct (operand_kind_of m); destruct Hkind as [-> ->].
  - done.
  - cbn [ser_members].
    rewrite (serialize_transfer h H); try done.
    + unfold document_of, serialises in *. revert Ha.
      by destruct (serialize (S (length h)) h [] (argument 0 args)).
    + intros l ->%list_elem_of_singleton. rewrite length_app. lia.
    + rewrite length_app. simpl. lia.
  - cbn [ser_members].
    assert (length (h ++ [Obj [("name", VStr f)];
                          Arr [argument 0 args; argument 1 args]])
            = S (S (length h))) as -> by (rewrite length_app; simpl; lia).
    rewrite serialize_ref, decide_False.
    2:{ intros Hx%list_elem_of_singleton. lia. }
    assert (H !! S (length h)
            = Some (Arr [argument 0 args; argument 1 args])) as ->.
    { unfold H. rewrite <- !app_assoc.
      change ([Obj [("name", VStr f)]; Arr [argument 0 args; argument 1 args]]
               ++ [Obj props])
        with ([Obj [("name", VStr f)]]
               ++ Arr [argument 0 args; argument 1 args] :: [Obj props]).
      rewrite app_assoc.
      rewrite <- (length_snoc h (Obj [("name", VStr f)])).
      by apply list_lookup_middle. }
    cbn [ser_items].
    assert (∀ v, serialises h v →
              serialize (S (S (length h))) H [S (length h); S (S (length h))] v
              = serialize (S (length h)) h [] v) as Htr.
    { intros v Hv. apply serialize_transfer; [done| |lia|done].
      intros l [->|Hl]%elem_of_cons; [lia|].
      apply list_elem_of_singleton in Hl as ->. lia. }
    rewrite !Htr by done.
    unfold document_of, serialises in *. revert Ha Hb.
    by destruct (serialize (S (length h)) h [] (argument 0 args)),
                (serialize (S (length h)) h [] (argument 1 args)).
Qed.

Lemma predicate_document_witness :
  eval (c ← col "type"; p ← invoke Misin c [VRef 0]; JSON_stringify p)
       operand_example
  = Some (JObj ([("left", JStr "type"); ("operation", JStr (operation_code Misin))]
                ++ right_document operand_example Misin [VRef 0])).
Proof.
  apply (predicate_document Misin "type" [VRef 0] operand_example).
  by repeat constructor.
Defined.

(** The edge by evaluation: [col('close').gt()] serialises without an
    operand, [col('close').between(1)] with [null] for the missing
    bound. *)
Lemma missing_operands :
  eval (c ← col "close"; p ← invoke Mgt c []; JSON_stringify p) []
  = Some (JObj [("left", JStr "close"); ("operation", JStr "greater")]) ∧
  eval (c ← col "close"; p ← invoke Mbetween c [num 1]; JSON_stringify p) []
  = Some (JObj [("left", JStr "close"); ("operation", JStr "in_range");
                ("right", JArr [JNum 1; JNull])]).
Proof. split; reflexivity. Qed.

(** ** The document of a state *)







(** ** The document of a chain *)















(** The document of that chain, spelled out. *)
Lemma chain_document_example :
  chain_document nesting_example
    [CWhere [VRef 1; VRef 5]; CSetTickers ["NASDAQ:AAPL"];
     CWhere2 (VRef 10); CLimit (inject_Z 10);
     COrderBy "close" (Some false) None;
     CSetIndex ["SP;SPX"]; COffset (inject_Z 20)]
  = JObj
      [("markets", JArr [JStr "america"]);
       ("symbols",
        JObj [("tickers", JArr [JStr "NASDAQ:AAPL"]);
              ("groups",
               JArr [JObj [("type", JStr "index");
                           ("values", JArr [JStr "SP;SPX"])]])]);
       ("options", JObj [("lang", JStr "en")]);
       ("columns", JArr [JStr "name"; JStr "close"; JStr "volume";
                         JStr "market_cap_basic"]);
       ("filter",
        JArr [JObj [("left", JStr "close"); ("operation", JStr "greater");
                    ("right", JNum 5)];
              JObj [("left", JStr "beta"); ("operation", JStr "empty")]]);
       ("sort", JObj [("sortBy", JStr "close"); ("sortOrder", JStr "desc");
                      ("nullsFirst", JBool false)]);
       ("range", JArr [JNum 20; JNum 30]);
       ("filter2",
        JObj [("operation",
               JObj [("operator", JStr "or");
                     ("operands",
                      JArr [JObj [("expression",
                                   JObj [("left", JStr "volume");
                                         ("operation", JStr "greater");
                                         ("right", JNum 7)])];
                            JObj [("expression",
                                   JObj [("left", JStr "beta");
                                         ("operation", JStr "empty")])]])])])].
Proof. reflexivity. Qed.

(** ** The document of a connective node *)





(** * Builders and the rest of the store *)

(** X19. Making a builder and calling any chain of methods on it always
    returns, the chain returns the builder itself, and no object that was
    in the store before is changed: not another builder, not a cookie
    object, not a predicate or an operation tree passed to [where] or
    [where2]. *)
Theorem chains_return_the_builder (h : heap) (cs : list call) :
  ∃ q h',
    (q ← Query.constructor; q' ← run_calls q cs; mret (q, q')) h
    = Some ((VRef q, VRef q), h') ∧
    length h ≤ q ∧ ∀ l, l < length h → h' !! l = h !! l.
Proof.
  destruct (fresh_calls_rep h cs) as (v & h' & Hrun & st & -> & Hreach & Hrep).
  pose proof (fresh_calls_frame _ _ _ _ Hrun) as Hfr.
  rewrite (reaches_this _ _ _ Hreach) in Hrun. simpl in Hrun.
  destruct (constructor_allocates h) as (K & HK & _).
  exists (8 + length h), h'. split; [|split; [lia|done]].
  unfold mbind, M_bind in *. rewrite HK in *.
  replace (length h + 8) with (8 + length h) in * by lia.
  by rewrite Hrun.
Qed.

Lemma is_response_frame (h h' : heap) raw total rows :
  (∀ l, l < length h → h' !! l = h !! l) →
  is_response h raw total rows → is_response h' raw total rows.
Proof.
  intros Hfr.
  assert (∀ l o, h !! l = Some o → h' !! l = Some o) as Hold.
  { intros l o Hl. rewrite Hfr; [done|]. by eapply lookup_lt_Some. }
  intros (l & ps & a & rs & -> & Hl & Htotal & Hdata & Ha & Hrows).
  exists l, ps, a, rs. repeat split; auto.
  eapply Forall2_impl; [exact Hrows|].
  intros row r (l' & ps' & d & -> & Hl' & Hs & Hd & Hvs).
  exists l', ps', d. repeat split; auto.
Qed.



(** * The base scan *)

Lemma stays_getBaseScanQuery (P : loc → Prop) market :
  stays_in P (getBaseScanQuery market) (in_region P).
Proof.
  unfold getBaseScanQuery. generalize (Query.or_default (VStr "america") market).
  clear market. intros market.
  eapply stays_bind; [unfold Query.constructor; stays_go|]. intros q Hq.
  eapply stays_bind; [by apply stays_setMarkets|]. intros ? ->.
  eapply stays_bind; [by apply stays_select|]. intros ? ->.
  unfold col, Column.constructor, Column.eq.
  eapply stays_bind; [stays_go|]. intros c1 _.
  eapply stays_bind; [stays_go|]. intros p1 _.
  eapply stays_bind; [stays_go|]. intros c2 _.
  eapply stays_bind; [stays_go|]. intros p2 _.
  eapply stays_bind; [stays_go|]. intros c3 _.
  eapply stays_bind; [stays_go|]. intros p3 _.
  eapply stays_bind; [by apply stays_where|]. intros ? ->.
  eapply stays_mono; [by apply stays_setMarkets|]. by intros ? ->.
Qed.

Lemma getBaseScanQuery_rep market h :
  wp (getBaseScanQuery market) h (λ q h1,
    ∃ st, q = VRef (st_this st) ∧ rep st h1 ∧
          (st_columns st).2 = VStr <$> base_columns).
Proof.
  unfold getBaseScanQuery. generalize (Query.or_default (VStr "america") market).
  clear market. intros market.
  apply wp_bind. eapply wp_mono; [apply constructor_rep|].
  intros v h1 (-> & Hrep1 & _).
  apply wp_bind. eapply wp_mono; [by apply setMarkets_rep|].
  intros v h2 [-> Hrep2]. cbn [st_this fresh_state with_markets].
  apply wp_bind.
  eapply wp_mono; [by apply (select_rep _ _ (VStr <$> base_columns) Hrep2)|].
  intros v h3 [-> Hrep3]. cbn [st_this with_markets with_columns].
  unfold col, Column.constructor, Column.eq.
  repeat wp_step.
  eapply wp_mono.
  { apply (where_rep (with_columns (length h2, VStr <$> base_columns)
                        (with_markets (length h1, [market])
                           (fresh_state (length h))))).
    repeat apply rep_app. exact Hrep3. }
  intros v h4 [-> Hrep4].
  eapply wp_mono; [by apply (setMarkets_rep _ _ _ Hrep4)|].
  intros v h5 [-> Hrep5]. eexists. split; [|split; [exact Hrep5|]]; done.
Qed.

Lemma mapper_run_frame (h : heap) this rawData total rows cols :
  has_columns h this cols → is_response h rawData total rows →
  Forall (λ c, ordinary_key c = true) cols →
  ∃ out h1,
    Query.getScannerData this rawData h = Some (VRef out, h1) ∧
    ∀ l, l < length h → h1 !! l = h !! l.
Proof.
  intros Hthis Hraw Hkeys. eexists _, _.
  split; [by eapply getScannerData_run|].
  intros l Hl. by apply lookup_app_l.
Qed.

Lemma base_columns_distinct :
  NoDup base_columns ∧ ("symbol" ∉ base_columns) ∧
  Forall (λ c, ordinary_key c = true) base_columns.
Proof.
  split; [|split].
  - apply (bool_decide_unpack _). by vm_compute.
  - apply (bool_decide_unpack _). by vm_compute.
  - apply (bool_decide_unpack _). by vm_compute.
Qed.

(** X21. The base scan maps every row of the response to a record with
    exactly the symbol and the 37 columns of the scan, each column holding
    the value at its position ([undefined] where the row is shorter):
    the columns are pairwise distinct and none is named [symbol], so no
    value overwrites another.  Whatever [market] is, the scan returns, and
    it changes no object of the response. *)
Theorem base_scan_records (h : heap) (market rawData total : val)
    (rows : list (val * list val)) :
  is_response h rawData total rows →
  eval (out ← baseScan market rawData; mapped_of out) h
  = Some (total, spec_record base_columns <$> rows) ∧
  ∃ out h1, baseScan market rawData h = Some (out, h1) ∧
            ∀ l, l < length h → h1 !! l = h !! l.
Proof.
  intros Hraw.
  destruct base_columns_distinct as (Hnd & Hsym & Hkeys).
  destruct (getBaseScanQuery_rep market h) as (q & h1 & Hrun & st & -> & Hrep & Hcols).
  assert (∀ l, l < length h → h1 !! l = h !! l) as Hfr.
  { assert (region (λ l, length h ≤ l) h) as Hreg.
    { split; [done|]. intros l ps k v Hl Hps. apply lookup_lt_Some in Hps. lia. }
    destruct (stays_getBaseScanQuery _ market _ _ _ Hreg Hrun) as (_ & [_ Hf] & _).
    intros l Hl. apply Hf; [done|lia]. }
  assert (has_columns h1 (VRef (st_this st)) base_columns) as Hthis.
  { destruct st as [q d [m ms] sy tk gr tf o [c cl] [f fs] f2 [s ss] [r rs]].
    simpl in Hcols. subst cl. rep_open Hrep.
    by eexists q, _, d, _, c. }
  pose proof (is_response_frame _ _ _ _ _ Hfr Hraw) as Hraw1.
  split.
  - pose proof (getScannerData_spec h1 _ _ _ _ _ Hthis Hraw1 Hkeys) as Hmap.
    unfold baseScan, eval, mbind, M_bind in *. rewrite Hrun.
    rewrite Hmap. apply (f_equal (λ x, Some (total, x))).
    apply list_fmap_ext. intros i r _. by apply code_record_spec.
  - destruct (mapper_run_frame h1 _ _ _ _ _ Hthis Hraw1 Hkeys)
      as (out & h2 & Hout & Hf2).
    exists (VRef out), h2. unfold baseScan, mbind, M_bind. rewrite Hrun.
    split; [done|]. intros l Hl. rewrite Hf2, Hfr; [done..|].
    apply lookup_lt_is_Some. rewrite Hfr by done. by apply lookup_lt_is_Some.
Qed.

Lemma base_scan_records_witness :
  eval (out ← baseScan VUndefined (VRef 3); mapped_of out) response_example
  = Some (VNum 1,
          spec_record base_columns
            <$> [(VStr "NASDAQ:AAPL", [VNum (751 # 5); VNum 9000000])]).
Proof.
  apply (base_scan_records response_example VUndefined (VRef 3)).
  eexists 3, _, 2, _. repeat split; try reflexivity.
  apply Forall2_cons_2; [|apply Forall2_nil_2].
  by eexists 1, _, 0.
Defined.
